(** * Cache replacement policies: LRU, LFU, ARC and time-decayed caching

    A shallow embedding of [cache_base.py], [cache_lru.py], [cache_lfu.py],
    [cache_arc.py] and [cache_tdc.py], and the properties of the policy
    engine proved over it.

    Conventions of the embedding.
    - A Python [int] is a [Z].
    - A method is a computation [Py S A]: it takes the object's state,
      and gives back an outcome (a returned value or a raised exception)
      together with the state the object is left in.  A raised exception
      keeps the mutations done before it, as in Python.
    - An [OrderedDict] whose values are all [True] is the list of its keys,
      oldest first.  A [dict] is an association list in insertion order.
    - A Python [float] is an exact rational ([Q]); [float('inf')] is a
      separate top element ([ScoreInf]). *)

From Stdlib Require Import String.
From Stdlib Require Import ZArith List Bool Lia QArith Qpower Qfield Sorted.
Import ListNotations.
Open Scope Z_scope.

(** ** Exceptions and the method monad *)

Inductive exn : Type := KeyError | StopIteration | ZeroDivisionError.

Inductive outcome (A : Type) : Type :=
| Ret (a : A)
| Raise (e : exn).
Arguments Ret {A} a.
Arguments Raise {A} e.

Definition Py (S A : Type) : Type := S -> outcome A * S.

Definition ret {S A} (a : A) : Py S A := fun s => (Ret a, s).

Definition raise {S A} (e : exn) : Py S A := fun s => (Raise e, s).

Definition bind {S A B} (m : Py S A) (k : A -> Py S B) : Py S B :=
  fun s =>
    match m s with
    | (Ret a, s') => k a s'
    | (Raise e, s') => (Raise e, s')
    end.

Definition gets {S A} (f : S -> A) : Py S A := fun s => (Ret (f s), s).

Definition modify {S} (f : S -> S) : Py S unit := fun s => (Ret tt, f s).

(** [when b m] is the statement [if b: m]. *)
Definition when {S} (b : bool) (m : Py S unit) : Py S unit :=
  if b then m else ret tt.

(** A method of a sub-object held in a field, run on the enclosing object. *)
Definition zoom {S X A} (proj : S -> X) (upd : X -> S -> S) (m : Py X A)
  : Py S A :=
  fun s => let (r, x) := m (proj s) in (r, upd x s).

Declare Scope py_scope.
Delimit Scope py_scope with py.
Notation "x <- m ;; k" := (bind m (fun x => k))
  (at level 61, m at next level, right associativity) : py_scope.
Notation "m ;; k" := (bind m (fun _ => k))
  (at level 61, right associativity) : py_scope.
Open Scope py_scope.

(** ** [collections.OrderedDict] with values [True]: an ordered key set *)

Module OD.

Definition t : Type := list Z.

Definition empty : t := [].

(** [k in d] *)
Definition mem (k : Z) (d : t) : bool := existsb (Z.eqb k) d.

(** [len(d)] *)
Definition len (d : t) : Z := Z.of_nat (length d).

(** [bool(d)] *)
Definition nonempty (d : t) : bool :=
  match d with [] => false | _ :: _ => true end.

(** the keys other than [k], in order *)
Definition remove (k : Z) (d : t) : t :=
  filter (fun x => negb (x =? k)) d.

(** [d[k] = True]: a new key goes to the end, a present key keeps its place. *)
Definition setitem (k : Z) : Py t unit :=
  modify (fun d => if mem k d then d else d ++ [k]).

(** [del d[k]] *)
Definition delitem (k : Z) : Py t unit :=
  fun d => if mem k d then (Ret tt, remove k d) else (Raise KeyError, d).

(** [d.popitem(last=False)], giving the key. *)
Definition popitem_first : Py t Z :=
  fun d =>
    match d with
    | [] => (Raise KeyError, d)
    | x :: r => (Ret x, r)
    end.

(** [d.move_to_end(k)] *)
Definition move_to_end (k : Z) : Py t unit :=
  fun d =>
    if mem k d then (Ret tt, remove k d ++ [k]) else (Raise KeyError, d).

(** [next(iter(d))] *)
Definition first : Py t Z :=
  fun d =>
    match d with
    | [] => (Raise StopIteration, d)
    | x :: _ => (Ret x, d)
    end.

End OD.

(** ** [dict]: an association list in insertion order *)

Module Dict.
Section Values.
Context {V : Type}.

Definition t : Type := list (Z * V).

Definition empty : t := [].

Fixpoint get (k : Z) (d : t) : option V :=
  match d with
  | [] => None
  | (k', v) :: r => if k' =? k then Some v else get k r
  end.

(** [k in d] *)
Definition mem (k : Z) (d : t) : bool :=
  match get k d with Some _ => true | None => false end.

(** [len(d)] *)
Definition len (d : t) : Z := Z.of_nat (length d).

(** the keys in iteration order *)
Definition keys (d : t) : list Z := map fst d.

Fixpoint set (k : Z) (v : V) (d : t) : t :=
  match d with
  | [] => [(k, v)]
  | (k', v') :: r => if k' =? k then (k, v) :: r else (k', v') :: set k v r
  end.

(** the entries of the keys other than [k], in order *)
Definition remove (k : Z) (d : t) : t :=
  filter (fun e => negb (fst e =? k)) d.

(** [d[k]] *)
Definition getitem (k : Z) : Py t V :=
  fun d =>
    match get k d with
    | Some v => (Ret v, d)
    | None => (Raise KeyError, d)
    end.

(** [d[k] = v] *)
Definition setitem (k : Z) (v : V) : Py t unit := modify (set k v).

(** [del d[k]] *)
Definition delitem (k : Z) : Py t unit :=
  fun d => if mem k d then (Ret tt, remove k d) else (Raise KeyError, d).

End Values.
Arguments t : clear implicits.
End Dict.

(** ** [cache_base.py]: the state and statistics shared by all policies *)

Module CachePolicy.

Record t : Type := mk {
  capacity : Z;
  hits : Z;
  misses : Z;
  time : Z
}.

(** [CachePolicy.__init__] *)
Definition __init__ (capacity : Z) : t := mk capacity 0 0 0.

Definition incr_time (b : t) : t :=
  mk (capacity b) (hits b) (misses b) (time b + 1).
Definition incr_hits (b : t) : t :=
  mk (capacity b) (hits b + 1) (misses b) (time b).
Definition incr_misses (b : t) : t :=
  mk (capacity b) (hits b) (misses b + 1) (time b).
(** [self.hits = 0; self.misses = 0; self.time = 0] *)
Definition clear (b : t) : t := mk (capacity b) 0 0 0.

(** [a / b] on integers: true division, as an exact rational. *)
Definition truediv (a b : Z) : outcome Q :=
  if b =? 0 then Raise ZeroDivisionError
  else Ret (inject_Z a / inject_Z b)%Q.

(** [get_hit_ratio] *)
Definition get_hit_ratio (b : t) : outcome Q :=
  let total := hits b + misses b in
  if total >? 0 then truediv (hits b) total else Ret 0%Q.

Record stats : Type := mk_stats {
  stats_hits : Z;
  stats_misses : Z;
  stats_hit_ratio : Q
}.

(** [get_stats] *)
Definition get_stats (b : t) : outcome stats :=
  match get_hit_ratio b with
  | Ret r => Ret (mk_stats (hits b) (misses b) r)
  | Raise e => Raise e
  end.

End CachePolicy.

(** ** [cache_lru.py] *)

Module LRUCache.

Record t : Type := mk {
  base : CachePolicy.t;
  cache : OD.t
}.

Definition set_base (b : CachePolicy.t) (s : t) : t := mk b (cache s).
Definition set_cache (c : OD.t) (s : t) : t := mk (base s) c.
Definition on_base (f : CachePolicy.t -> CachePolicy.t) : Py t unit :=
  modify (fun s => set_base (f (base s)) s).
Definition in_cache {A} : Py OD.t A -> Py t A := zoom cache set_cache.

(** [LRUCache.__init__] *)
Definition __init__ (capacity : Z) : t := mk (CachePolicy.__init__ capacity) OD.empty.

(** [LRUCache.access] *)
Definition access (item : Z) : Py t bool :=
  on_base CachePolicy.incr_time ;;
  hit <- gets (fun s => OD.mem item (cache s)) ;;
  if hit then
    in_cache (OD.move_to_end item) ;;
    on_base CachePolicy.incr_hits ;;
    ret true
  else
    on_base CachePolicy.incr_misses ;;
    full <- gets (fun s =>
              OD.len (cache s) >=? CachePolicy.capacity (base s)) ;;
    when full (in_cache OD.popitem_first ;; ret tt) ;;
    in_cache (OD.setitem item) ;;
    ret false.

(** [LRUCache.reset] *)
Definition reset (s : t) : t := mk (CachePolicy.clear (base s)) OD.empty.

End LRUCache.

(** ** [cache_lfu.py] *)

Module LFUCache.

Record t : Type := mk {
  base : CachePolicy.t;
  cache : Dict.t Z;              (* item -> frequency *)
  freq_to_items : Dict.t OD.t;   (* frequency -> OrderedDict of items *)
  min_freq : Z
}.

Definition set_base (b : CachePolicy.t) (s : t) : t :=
  mk b (cache s) (freq_to_items s) (min_freq s).
Definition set_cache (c : Dict.t Z) (s : t) : t :=
  mk (base s) c (freq_to_items s) (min_freq s).
Definition set_freq_to_items (f : Dict.t OD.t) (s : t) : t :=
  mk (base s) (cache s) f (min_freq s).
Definition set_min_freq (m : Z) (s : t) : t :=
  mk (base s) (cache s) (freq_to_items s) m.
Definition on_base (f : CachePolicy.t -> CachePolicy.t) : Py t unit :=
  modify (fun s => set_base (f (base s)) s).
Definition in_cache {A} : Py (Dict.t Z) A -> Py t A := zoom cache set_cache.
Definition in_freq_to_items {A} : Py (Dict.t OD.t) A -> Py t A :=
  zoom freq_to_items set_freq_to_items.

(** [d[f]] on a [defaultdict(OrderedDict)]: an absent key is first bound
    to an empty [OrderedDict]; [m] then runs on the [OrderedDict] that the
    dictionary holds at [f]. *)
Definition bucket {A} (f : Z) (m : Py OD.t A) : Py (Dict.t OD.t) A :=
  fun d =>
    let (b, d1) :=
      match Dict.get f d with
      | Some b => (b, d)
      | None => (OD.empty, Dict.set f OD.empty d)
      end in
    let (r, b') := m b in
    (r, Dict.set f b' d1).

(** [LFUCache.__init__] *)
Definition __init__ (capacity : Z) : t :=
  mk (CachePolicy.__init__ capacity) Dict.empty Dict.empty 0.

(** The eviction block of [access]. *)
Definition evict : Py t unit :=
  m <- gets min_freq ;;
  evict_item <- in_freq_to_items (bucket m OD.first) ;;
  in_freq_to_items (bucket m (OD.delitem evict_item)) ;;
  left <- in_freq_to_items (bucket m (gets OD.nonempty)) ;;
  when (negb left) (in_freq_to_items (Dict.delitem m)) ;;
  in_cache (Dict.delitem evict_item).

(** [LFUCache.access] *)
Definition access (item : Z) : Py t bool :=
  on_base CachePolicy.incr_time ;;
  hit <- gets (fun s => Dict.mem item (cache s)) ;;
  if hit then
    freq <- in_cache (Dict.getitem item) ;;
    in_freq_to_items (bucket freq (OD.delitem item)) ;;
    left <- in_freq_to_items (bucket freq (gets OD.nonempty)) ;;
    when (negb left)
      (in_freq_to_items (Dict.delitem freq) ;;
       m <- gets min_freq ;;
       when (m =? freq) (modify (set_min_freq (m + 1)))) ;;
    in_cache (Dict.setitem item (freq + 1)) ;;
    in_freq_to_items (bucket (freq + 1) (OD.setitem item)) ;;
    on_base CachePolicy.incr_hits ;;
    ret true
  else
    on_base CachePolicy.incr_misses ;;
    full <- gets (fun s =>
              Dict.len (cache s) >=? CachePolicy.capacity (base s)) ;;
    when full evict ;;
    in_cache (Dict.setitem item 1) ;;
    in_freq_to_items (bucket 1 (OD.setitem item)) ;;
    modify (set_min_freq 1) ;;
    ret false.

(** [LFUCache.reset] *)
Definition reset (s : t) : t :=
  mk (CachePolicy.clear (base s)) Dict.empty Dict.empty 0.

End LFUCache.

(** ** [cache_arc.py] *)

Module ARCCache.

Record t : Type := mk {
  base : CachePolicy.t;
  c : Z;        (* cache capacity *)
  p : Z;        (* target size for T1 *)
  t1 : OD.t;    (* pages seen only once recently *)
  t2 : OD.t;    (* pages seen at least twice recently *)
  b1 : OD.t;    (* ghost entries for T1 *)
  b2 : OD.t     (* ghost entries for T2 *)
}.

Definition set_base (x : CachePolicy.t) (s : t) : t :=
  mk x (c s) (p s) (t1 s) (t2 s) (b1 s) (b2 s).
Definition set_p (x : Z) (s : t) : t :=
  mk (base s) (c s) x (t1 s) (t2 s) (b1 s) (b2 s).
Definition set_t1 (x : OD.t) (s : t) : t :=
  mk (base s) (c s) (p s) x (t2 s) (b1 s) (b2 s).
Definition set_t2 (x : OD.t) (s : t) : t :=
  mk (base s) (c s) (p s) (t1 s) x (b1 s) (b2 s).
Definition set_b1 (x : OD.t) (s : t) : t :=
  mk (base s) (c s) (p s) (t1 s) (t2 s) x (b2 s).
Definition set_b2 (x : OD.t) (s : t) : t :=
  mk (base s) (c s) (p s) (t1 s) (t2 s) (b1 s) x.
Definition on_base (f : CachePolicy.t -> CachePolicy.t) : Py t unit :=
  modify (fun s => set_base (f (base s)) s).
Definition in_t1 {A} : Py OD.t A -> Py t A := zoom t1 set_t1.
Definition in_t2 {A} : Py OD.t A -> Py t A := zoom t2 set_t2.
Definition in_b1 {A} : Py OD.t A -> Py t A := zoom b1 set_b1.
Definition in_b2 {A} : Py OD.t A -> Py t A := zoom b2 set_b2.

(** [ARCCache.__init__] *)
Definition __init__ (capacity : Z) : t :=
  mk (CachePolicy.__init__ capacity) capacity 0
     OD.empty OD.empty OD.empty OD.empty.

(** Remove from T1 and add to B1, limiting the size of B1. *)
Definition t1_to_b1 : Py t unit :=
  old <- in_t1 OD.popitem_first ;;
  in_b1 (OD.setitem old) ;;
  over <- gets (fun s => OD.len (b1 s) >? c s) ;;
  when over (in_b1 OD.popitem_first ;; ret tt).

(** Remove from T2 and add to B2, limiting the size of B2. *)
Definition t2_to_b2 : Py t unit :=
  old <- in_t2 OD.popitem_first ;;
  in_b2 (OD.setitem old) ;;
  over <- gets (fun s => OD.len (b2 s) >? c s) ;;
  when over (in_b2 OD.popitem_first ;; ret tt).

(** [ARCCache._replace] *)
Definition _replace (item_in_b2 : bool) : Py t unit :=
  from_t1 <- gets (fun s =>
               OD.nonempty (t1 s)
               && ((item_in_b2 && (OD.len (t1 s) =? p s))
                   || (OD.len (t1 s) >? p s))) ;;
  if from_t1 then t1_to_b1
  else
    some_t2 <- gets (fun s => OD.nonempty (t2 s)) ;;
    when some_t2 t2_to_b2.

(** Case 4 of [access], first block: the tests on [l1] and [l2]. *)
Definition trim (l1 l2 : Z) : Py t unit :=
  cap <- gets c ;;
  if l1 =? cap then
    room <- gets (fun s => OD.len (t1 s) <? c s) ;;
    if room then
      in_b1 OD.popitem_first ;;
      _replace false
    else
      in_t1 OD.popitem_first ;;
      ret tt
  else if (l1 <? cap) && (l1 + l2 >=? cap) then
    when (l1 + l2 >=? 2 * cap)
      (some_b2 <- gets (fun s => OD.nonempty (b2 s)) ;;
       when some_b2 (in_b2 OD.popitem_first ;; ret tt)) ;;
    _replace false
  else ret tt.

(** Case 4 of [access], second block ("Add to T1"): a resident slot is
    freed when the cache is full. *)
Definition make_room : Py t unit :=
  full <- gets (fun s => OD.len (t1 s) + OD.len (t2 s) >=? c s) ;;
  when full
    (some_t1 <- gets (fun s => OD.nonempty (t1 s)) ;;
     if some_t1 then t1_to_b1
     else
       some_t2 <- gets (fun s => OD.nonempty (t2 s)) ;;
       when some_t2 t2_to_b2).

(** The complete-miss part of [access] (case 4 of the source). *)
Definition complete_miss (item : Z) : Py t bool :=
  l1 <- gets (fun s => OD.len (t1 s) + OD.len (b1 s)) ;;
  l2 <- gets (fun s => OD.len (t2 s) + OD.len (b2 s)) ;;
  trim l1 l2 ;;
  make_room ;;
  in_t1 (OD.setitem item) ;;
  ret false.

(** [ARCCache.access] *)
Definition access (item : Z) : Py t bool :=
  on_base CachePolicy.incr_time ;;
  (* Case 1: hit in T1 or T2 *)
  hit1 <- gets (fun s => OD.mem item (t1 s)) ;;
  if hit1 then
    in_t1 (OD.delitem item) ;;
    in_t2 (OD.setitem item) ;;
    on_base CachePolicy.incr_hits ;;
    ret true
  else
  hit2 <- gets (fun s => OD.mem item (t2 s)) ;;
  if hit2 then
    in_t2 (OD.move_to_end item) ;;
    on_base CachePolicy.incr_hits ;;
    ret true
  else
  (* cache miss *)
  on_base CachePolicy.incr_misses ;;
  (* Case 2: item in B1 (ghost hit) *)
  ghost1 <- gets (fun s => OD.mem item (b1 s)) ;;
  if ghost1 then
    modify (fun s =>
      let delta := Z.max 1 (OD.len (b2 s) / Z.max 1 (OD.len (b1 s))) in
      set_p (Z.min (c s) (p s + delta)) s) ;;
    _replace false ;;
    in_b1 (OD.delitem item) ;;
    in_t2 (OD.setitem item) ;;
    ret false
  else
  (* Case 3: item in B2 (ghost hit) *)
  ghost2 <- gets (fun s => OD.mem item (b2 s)) ;;
  if ghost2 then
    modify (fun s =>
      let delta := Z.max 1 (OD.len (b1 s) / Z.max 1 (OD.len (b2 s))) in
      set_p (Z.max 0 (p s - delta)) s) ;;
    _replace true ;;
    in_b2 (OD.delitem item) ;;
    in_t2 (OD.setitem item) ;;
    ret false
  else
  (* Case 4: complete miss *)
  complete_miss item.

(** [ARCCache.reset] *)
Definition reset (s : t) : t :=
  mk (CachePolicy.clear (base s)) (c s) 0
     OD.empty OD.empty OD.empty OD.empty.

End ARCCache.

(** ** [cache_tdc.py] *)

Module TimeDecayedCache.

Record t : Type := mk {
  base : CachePolicy.t;
  decay_rate : Q;
  cache : Dict.t Q;              (* item -> score *)
  last_update_time : Dict.t Z    (* item -> last update time *)
}.

Definition set_base (b : CachePolicy.t) (s : t) : t :=
  mk b (decay_rate s) (cache s) (last_update_time s).
Definition set_cache (x : Dict.t Q) (s : t) : t :=
  mk (base s) (decay_rate s) x (last_update_time s).
Definition set_last_update_time (x : Dict.t Z) (s : t) : t :=
  mk (base s) (decay_rate s) (cache s) x.
Definition on_base (f : CachePolicy.t -> CachePolicy.t) : Py t unit :=
  modify (fun s => set_base (f (base s)) s).
Definition in_cache {A} : Py (Dict.t Q) A -> Py t A := zoom cache set_cache.
Definition in_last_update_time {A} : Py (Dict.t Z) A -> Py t A :=
  zoom last_update_time set_last_update_time.

(** The default of the keyword argument [decay_rate]. *)
Definition default_decay_rate : Q := 0.99.

(** [TimeDecayedCache.__init__]; [None] is an omitted [decay_rate]. *)
Definition __init__ (capacity : Z) (decay_rate : option Q) : t :=
  mk (CachePolicy.__init__ capacity)
     (match decay_rate with Some d => d | None => default_decay_rate end)
     Dict.empty Dict.empty.

(** Scores.  The program keeps the scores as binary floating-point
    numbers.  A score is modelled here by the rational it would be without
    rounding, [float('inf')] by a value of its own ([ScoreInf] below), and
    [x ** n] raises nothing but the [ZeroDivisionError] of [0.0 ** n] for a
    negative [n].  For a [decay_rate] in the documented range (0, 1) the
    powers, products and sums of the program raise nothing and stay finite,
    so that the program and the model can differ only in the value of a
    stored score and, when rounding makes or breaks a tie, in the item that
    the eviction scan picks.  The statements on what the calls of a trace
    do to a [TimeDecayedCache] take a [decay_rate] in that range
    ([in_range] below), and are about what does not depend on the value of
    a decayed score: which calls return and what they return, the
    counters, the number and the order of the cached keys, and the time
    stamps. *)

(** [x ** n] for an integer [n]. *)
Definition pow (x : Q) (n : Z) : outcome Q :=
  if (n <? 0) && Qeq_bool x 0 then Raise ZeroDivisionError
  else Ret (x ^ n)%Q.

(** [TimeDecayedCache._update_score] *)
Definition _update_score (item : Z) : Py t Q :=
  present <- gets (fun s => Dict.mem item (cache s)) ;;
  if negb present then ret 0%Q
  else
    (* apply time decay to the existing score *)
    last <- in_last_update_time (Dict.getitem item) ;;
    now <- gets (fun s => CachePolicy.time (base s)) ;;
    let time_diff := now - last in
    score <- in_cache (Dict.getitem item) ;;
    factor <- (fun s => (pow (decay_rate s) time_diff, s)) ;;
    ret (score * factor)%Q.

(** The running minimum of the eviction scan; it starts at
    [float('inf')]. *)
Inductive min_score : Type := ScoreInf | Score (q : Q).

(** [score < min_score] *)
Definition score_lt (score : Q) (m : min_score) : bool :=
  match m with
  | ScoreInf => true
  | Score q => negb (Qle_bool q score)
  end.

(** The [for cached_item in self.cache] loop of [access], over the keys
    still to visit; it gives [min_item]. *)
Fixpoint scan (items : list Z) (m : min_score) (min_item : option Z)
  : Py t (option Z) :=
  match items with
  | [] => ret min_item
  | cached_item :: rest =>
      score <- _update_score cached_item ;;
      in_cache (Dict.setitem cached_item score) ;;
      now <- gets (fun s => CachePolicy.time (base s)) ;;
      in_last_update_time (Dict.setitem cached_item now) ;;
      if score_lt score m then scan rest (Score score) (Some cached_item)
      else scan rest m min_item
  end.

(** The eviction block of [access]. *)
Definition evict : Py t unit :=
  items <- gets (fun s => Dict.keys (cache s)) ;;
  min_item <- scan items ScoreInf None ;;
  match min_item with
  | Some victim =>
      in_cache (Dict.delitem victim) ;;
      in_last_update_time (Dict.delitem victim)
  | None => ret tt
  end.

(** [TimeDecayedCache.access] *)
Definition access (item : Z) : Py t bool :=
  on_base CachePolicy.incr_time ;;
  hit <- gets (fun s => Dict.mem item (cache s)) ;;
  if hit then
    (* hit: update the score with decay and add 1 for this access *)
    current_score <- _update_score item ;;
    in_cache (Dict.setitem item (current_score + 1)%Q) ;;
    now <- gets (fun s => CachePolicy.time (base s)) ;;
    in_last_update_time (Dict.setitem item now) ;;
    on_base CachePolicy.incr_hits ;;
    ret true
  else
    on_base CachePolicy.incr_misses ;;
    full <- gets (fun s =>
              Dict.len (cache s) >=? CachePolicy.capacity (base s)) ;;
    when full evict ;;
    (* add the new item with an initial score of 1 *)
    in_cache (Dict.setitem item 1%Q) ;;
    now <- gets (fun s => CachePolicy.time (base s)) ;;
    in_last_update_time (Dict.setitem item now) ;;
    ret false.

(** [TimeDecayedCache.reset] *)
Definition reset (s : t) : t :=
  mk (CachePolicy.clear (base s)) (decay_rate s) Dict.empty Dict.empty.

End TimeDecayedCache.

(** ** The policy interface and its four implementations *)

(** The abstract methods of [CachePolicy], with the inherited state and the
    resident set of the implementation. *)
Class Policy (S : Type) : Type := {
  base : S -> CachePolicy.t;
  access : Z -> Py S bool;
  reset : S -> S;
  resident : Z -> S -> bool;
  size : S -> Z
}.

#[export] Instance LRU_Policy : Policy LRUCache.t := {
  base := LRUCache.base;
  access := LRUCache.access;
  reset := LRUCache.reset;
  resident := fun x s => OD.mem x (LRUCache.cache s);
  size := fun s => OD.len (LRUCache.cache s)
}.

#[export] Instance LFU_Policy : Policy LFUCache.t := {
  base := LFUCache.base;
  access := LFUCache.access;
  reset := LFUCache.reset;
  resident := fun x s => Dict.mem x (LFUCache.cache s);
  size := fun s => Dict.len (LFUCache.cache s)
}.

#[export] Instance ARC_Policy : Policy ARCCache.t := {
  base := ARCCache.base;
  access := ARCCache.access;
  reset := ARCCache.reset;
  resident := fun x s => OD.mem x (ARCCache.t1 s) || OD.mem x (ARCCache.t2 s);
  size := fun s => OD.len (ARCCache.t1 s) + OD.len (ARCCache.t2 s)
}.

#[export] Instance TDC_Policy : Policy TimeDecayedCache.t := {
  base := TimeDecayedCache.base;
  access := TimeDecayedCache.access;
  reset := TimeDecayedCache.reset;
  resident := fun x s => Dict.mem x (TimeDecayedCache.cache s);
  size := fun s => Dict.len (TimeDecayedCache.cache s)
}.

(** The four policy classes, with the arguments of the constructor other
    than [capacity]. *)
Inductive policy : Type :=
| LRU
| LFU
| ARC
| TDC (decay_rate : option Q).

(** The range that the docstring of [TimeDecayedCache.__init__] gives for
    a [decay_rate] that is passed: [0 < decay_rate < 1].  The default is in
    it, and the other constructors take no such argument. *)
Definition in_range (k : policy) : Prop :=
  match k with
  | TDC (Some decay_rate) => (0 < decay_rate < 1)%Q
  | _ => True
  end.

Definition state (k : policy) : Type :=
  match k with
  | LRU => LRUCache.t
  | LFU => LFUCache.t
  | ARC => ARCCache.t
  | TDC _ => TimeDecayedCache.t
  end.

#[export] Instance policy_ops (k : policy) : Policy (state k) :=
  match k with
  | LRU => LRU_Policy
  | LFU => LFU_Policy
  | ARC => ARC_Policy
  | TDC _ => TDC_Policy
  end.

(** Construction of a policy object. *)
Definition new (k : policy) (capacity : Z) : state k :=
  match k with
  | LRU => LRUCache.__init__ capacity
  | LFU => LFUCache.__init__ capacity
  | ARC => ARCCache.__init__ capacity
  | TDC d => TimeDecayedCache.__init__ capacity d
  end.

(** The ghost lists B1 and B2, which only ARC keeps. *)
Definition history (k : policy) : state k -> list OD.t :=
  match k with
  | ARC => fun s => [ARCCache.b1 s; ARCCache.b2 s]
  | _ => fun _ => []
  end.

(** The adaptation target [p], which only ARC keeps. *)
Definition target (k : policy) : state k -> option Z :=
  match k with
  | ARC => fun s => Some (ARCCache.p s)
  | _ => fun _ => None
  end.

(** A driver that calls [access] once per trace element.  The object is
    used on after a call that raised, in the state the call left. *)
Section Driver.
Context {S : Type} `{Policy S}.

Fixpoint run (trace : list Z) (s : S) : list (outcome bool) * S :=
  match trace with
  | [] => ([], s)
  | item :: rest =>
      let (o, s1) := access item s in
      let (os, s2) := run rest s1 in
      (o :: os, s2)
  end.

Definition results (trace : list Z) (s : S) : list (outcome bool) :=
  fst (run trace s).

Definition final (trace : list Z) (s : S) : S := snd (run trace s).

Definition get_hit_ratio (s : S) : outcome Q :=
  CachePolicy.get_hit_ratio (base s).

Definition get_stats (s : S) : outcome CachePolicy.stats :=
  CachePolicy.get_stats (base s).
End Driver.

(** * Properties *)

(** ** Lengths and membership of the containers *)

Module ODFacts.
Import OD.

Lemma od_len_nonneg (d : t) : 0 <= len d.
Proof. unfold len. lia. Qed.

Lemma od_len_nil : len [] = 0.
Proof. reflexivity. Qed.

Lemma od_len_cons x (d : t) : len (x :: d) = len d + 1.
Proof. unfold len. simpl length. lia. Qed.

Lemma od_len_app (d e : t) : len (d ++ e) = len d + len e.
Proof. unfold len. rewrite length_app. lia. Qed.

Lemma od_nonempty_len (d : t) : nonempty d = true <-> 0 < len d.
Proof.
  destruct d; simpl.
  - rewrite od_len_nil. split; [discriminate | lia].
  - rewrite od_len_cons. pose proof (od_len_nonneg d). split; [lia | reflexivity].
Qed.

Lemma od_nonempty_false (d : t) : nonempty d = false <-> d = [].
Proof. destruct d; simpl; split; congruence. Qed.

Lemma od_mem_In k (d : t) : mem k d = true <-> In k d.
Proof.
  unfold mem. rewrite existsb_exists. split.
  - intros (x & Hx & E). apply Z.eqb_eq in E. now subst.
  - intros H. exists k. split; [assumption | apply Z.eqb_refl].
Qed.

Lemma od_mem_cons k x (d : t) : mem k (x :: d) = (k =? x) || mem k d.
Proof. reflexivity. Qed.

Lemma od_mem_app k (d e : t) : mem k (d ++ e) = mem k d || mem k e.
Proof. unfold mem. apply existsb_app. Qed.

Lemma od_mem_len k (d : t) : mem k d = true -> 0 < len d.
Proof.
  destruct d; [discriminate |]. intros _. rewrite od_len_cons.
  pose proof (od_len_nonneg d). lia.
Qed.

Lemma od_mem_remove x k (d : t) :
  mem x (remove k d) = negb (x =? k) && mem x d.
Proof.
  induction d as [| y d IH]; [now rewrite andb_false_r |].
  unfold remove in *. simpl filter.
  destruct (Z.eqb_spec y k) as [-> | Hy]; simpl negb; cbv iota.
  - rewrite IH, od_mem_cons. destruct (x =? k); reflexivity.
  - rewrite !od_mem_cons, IH.
    destruct (Z.eqb_spec x y) as [-> | Hx]; [| reflexivity].
    destruct (Z.eqb_spec y k); [contradiction | reflexivity].
Qed.

Lemma od_len_remove_le k (d : t) : len (remove k d) <= len d.
Proof.
  unfold len, remove. pose proof (filter_length_le (fun x => negb (x =? k)) d).
  lia.
Qed.

Lemma od_len_remove k (d : t) : mem k d = true -> len (remove k d) <= len d - 1.
Proof.
  induction d as [| x d IH]; [discriminate |].
  rewrite od_mem_cons. unfold remove in *. simpl filter.
  destruct (Z.eqb_spec x k) as [-> | Hne]; simpl negb; cbv iota.
  - intros _. rewrite od_len_cons. pose proof (od_len_remove_le k d).
    unfold remove in *. lia.
  - destruct (Z.eqb_spec k x); [congruence |].
    rewrite orb_false_l. intros H. rewrite !od_len_cons. specialize (IH H). lia.
Qed.

Lemma od_setitem_len k (d : t) :
  len (snd (setitem k d)) = if mem k d then len d else len d + 1.
Proof.
  unfold setitem, modify. simpl. destruct (mem k d); [reflexivity |].
  rewrite od_len_app. reflexivity.
Qed.

Lemma od_setitem_mem x k (d : t) :
  mem x (snd (setitem k d)) = (x =? k) || mem x d.
Proof.
  unfold setitem, modify. simpl. destruct (mem k d) eqn:E.
  - destruct (Z.eqb_spec x k) as [-> | _]; [now rewrite E | reflexivity].
  - rewrite od_mem_app. simpl. rewrite orb_false_r. apply orb_comm.
Qed.

(** [del d[k]] on a key that is present *)
Lemma od_delitem_mem k (d : t) :
  mem k d = true -> delitem k d = (Ret tt, remove k d).
Proof. intros H. unfold delitem. now rewrite H. Qed.

(** [d.move_to_end(k)] on a key that is present *)
Lemma od_move_to_end_mem x k (d : t) :
  mem k d = true ->
  move_to_end k d = (Ret tt, remove k d ++ [k]) /\
  mem x (remove k d ++ [k]) = mem x d /\
  len (remove k d ++ [k]) <= len d.
Proof.
  intros H. unfold move_to_end. rewrite H. split; [reflexivity |]. split.
  - rewrite od_mem_app, od_mem_remove, od_mem_cons. simpl mem. rewrite orb_false_r.
    destruct (Z.eqb_spec x k) as [-> | Hne]; [now rewrite H |].
    simpl. apply orb_false_r.
  - rewrite od_len_app, od_len_cons, od_len_nil.
    pose proof (od_len_remove k d H). lia.
Qed.

(** The keys of an [OrderedDict] are distinct, and every operation keeps
    them so; on distinct keys [del] takes exactly one entry away. *)
Lemma od_remove_distinct k (d : t) : NoDup d -> NoDup (remove k d).
Proof. apply NoDup_filter. Qed.

Lemma od_remove_absent k (d : t) : mem k (remove k d) = false.
Proof. now rewrite od_mem_remove, Z.eqb_refl. Qed.

Lemma od_append_distinct k (d : t) :
  NoDup d -> mem k d = false -> NoDup (d ++ [k]).
Proof.
  intros Hd Hk. apply NoDup_app; [exact Hd | repeat constructor; intros [] |].
  intros a Ha [<- | []]. apply od_mem_In in Ha. congruence.
Qed.

Lemma od_setitem_distinct k (d : t) : NoDup d -> NoDup (snd (setitem k d)).
Proof.
  intros Hd. unfold setitem, modify. simpl. destruct (mem k d) eqn:E.
  - exact Hd.
  - now apply od_append_distinct.
Qed.

Lemma od_delitem_distinct k (d : t) : NoDup d -> NoDup (snd (delitem k d)).
Proof.
  intros Hd. unfold delitem. destruct (mem k d); simpl;
    [now apply od_remove_distinct | exact Hd].
Qed.

Lemma od_popitem_first_distinct (d : t) :
  NoDup d -> NoDup (snd (popitem_first d)).
Proof.
  intros Hd. destruct d as [| x r]; simpl; [exact Hd |]. now inversion Hd.
Qed.

Lemma od_move_to_end_distinct k (d : t) :
  NoDup d -> NoDup (snd (move_to_end k d)).
Proof.
  intros Hd. unfold move_to_end. destruct (mem k d); simpl; [| exact Hd].
  apply od_append_distinct; [now apply od_remove_distinct |].
  apply od_remove_absent.
Qed.

Lemma od_len_remove_distinct k (d : t) :
  NoDup d -> mem k d = true -> len (remove k d) = len d - 1.
Proof.
  induction d as [| x d IH]; [discriminate |].
  intros Hd. inversion Hd as [| ? ? Hx Hd']; subst.
  rewrite od_mem_cons. unfold remove in *. simpl filter.
  destruct (Z.eqb_spec x k) as [-> | Hne]; simpl negb; cbv iota.
  - intros _. rewrite od_len_cons.
    assert (E : filter (fun y => negb (y =? k)) d = d).
    { apply forallb_filter_id, forallb_forall. intros y Hy.
      destruct (Z.eqb_spec y k) as [-> | _]; [contradiction | reflexivity]. }
    rewrite E. lia.
  - destruct (Z.eqb_spec k x); [congruence |].
    rewrite orb_false_l. intros H. rewrite !od_len_cons, IH by assumption. lia.
Qed.

End ODFacts.

Module DictFacts.
Section Values.
Context {V : Type}.
Implicit Types (d : Dict.t V) (k x : Z) (v : V).
Import Dict.

Lemma dict_mem_get k d : mem k d = true <-> exists v, get k d = Some v.
Proof.
  unfold mem. destruct (get k d) as [v |]; split.
  - intros _. now exists v.
  - reflexivity.
  - discriminate.
  - intros (v & Hv). discriminate.
Qed.

Lemma dict_mem_keys k d : mem k d = true <-> In k (keys d).
Proof.
  unfold mem, keys. induction d as [| [k' v'] d IH]; simpl.
  - split; [discriminate | contradiction].
  - destruct (Z.eqb_spec k' k) as [-> | Hne].
    + split; [now left | reflexivity].
    + rewrite IH. split; [now right | intros [E | H]; [contradiction | exact H]].
Qed.

Lemma dict_get_set k x v d :
  get x (set k v d) = if x =? k then Some v else get x d.
Proof.
  induction d as [| [k' v'] d IH]; simpl.
  - rewrite (Z.eqb_sym k x). reflexivity.
  - destruct (Z.eqb_spec k' k) as [-> | Hne]; simpl.
    + rewrite (Z.eqb_sym k x). destruct (x =? k); reflexivity.
    + rewrite IH. destruct (Z.eqb_spec k' x) as [-> | Hx];
        [| reflexivity].
      destruct (Z.eqb_spec x k); [contradiction | reflexivity].
Qed.

Lemma dict_mem_set k x v d : mem x (set k v d) = (x =? k) || mem x d.
Proof. unfold mem. rewrite dict_get_set. destruct (x =? k); reflexivity. Qed.

Lemma dict_len_set k v d :
  len (set k v d) = if mem k d then len d else len d + 1.
Proof.
  unfold mem, len. induction d as [| [k' v'] d IH]; simpl get; simpl set.
  - reflexivity.
  - destruct (Z.eqb_spec k' k) as [-> | Hne]; [reflexivity |].
    simpl length. destruct (get k d); lia.
Qed.

Lemma dict_get_remove k x d :
  get x (remove k d) = if x =? k then None else get x d.
Proof.
  unfold remove. induction d as [| [k' v'] d IH]; simpl.
  - now destruct (x =? k).
  - destruct (Z.eqb_spec k' k) as [-> | Hk]; simpl.
    + rewrite IH. rewrite (Z.eqb_sym k x). now destruct (x =? k).
    + rewrite IH. destruct (Z.eqb_spec k' x) as [-> | Hx]; [| reflexivity].
      destruct (Z.eqb_spec x k); [contradiction | reflexivity].
Qed.

Lemma dict_mem_remove k x d : mem x (remove k d) = negb (x =? k) && mem x d.
Proof. unfold mem. rewrite dict_get_remove. now destruct (x =? k). Qed.

Lemma dict_len_remove_le k d : len (remove k d) <= len d.
Proof.
  unfold len, remove.
  pose proof (filter_length_le (fun e : Z * V => negb (fst e =? k)) d). lia.
Qed.

Lemma dict_len_remove k d : mem k d = true -> len (remove k d) <= len d - 1.
Proof.
  unfold mem. induction d as [| [k' v'] d IH]; simpl get.
  - discriminate.
  - unfold remove in *. simpl filter.
    destruct (Z.eqb_spec k' k) as [-> | Hne]; simpl negb; cbv iota.
    + intros _. pose proof (dict_len_remove_le k d). unfold remove, len in *.
      simpl length. lia.
    + intros H. specialize (IH H). unfold len in *. simpl length. lia.
Qed.

(** A new key goes to the end of the iteration order, a present key
    keeps its place; distinct keys stay distinct. *)
Lemma dict_keys_set k v d :
  keys (set k v d) = if mem k d then keys d else keys d ++ [k].
Proof.
  unfold mem, keys. induction d as [| [k' v'] d IH]; [reflexivity |].
  unfold set, get in *. fold (set k v d) (get k d) in *.
  destruct (Z.eqb_spec k' k) as [-> | Hne]; [reflexivity |].
  simpl map. rewrite IH. now destruct (get k d).
Qed.

Lemma dict_keys_remove k d : keys (remove k d) = OD.remove k (keys d).
Proof.
  unfold keys, remove, OD.remove. induction d as [| [k' v'] d IH]; simpl.
  - reflexivity.
  - destruct (k' =? k); simpl; now rewrite IH.
Qed.

Lemma dict_set_distinct k v d : NoDup (keys d) -> NoDup (keys (set k v d)).
Proof.
  intros Hd. rewrite dict_keys_set. destruct (mem k d) eqn:E; [exact Hd |].
  apply ODFacts.od_append_distinct; [exact Hd |].
  destruct (OD.mem k (keys d)) eqn:M; [| reflexivity].
  apply ODFacts.od_mem_In, dict_mem_keys in M. congruence.
Qed.

Lemma dict_remove_distinct k d : NoDup (keys d) -> NoDup (keys (remove k d)).
Proof. rewrite dict_keys_remove. apply ODFacts.od_remove_distinct. Qed.

End Values.
End DictFacts.

(** Running the monad of methods by computation, with the container
    operations kept folded. *)
Ltac py_unfold :=
  unfold bind, gets, modify, when, ret, raise, zoom in *.

Arguments OD.mem : simpl never.
Arguments OD.len : simpl never.
Arguments OD.remove : simpl never.
Arguments OD.nonempty : simpl never.
Arguments Dict.mem : simpl never.
Arguments Dict.len : simpl never.
Arguments Dict.get : simpl never.
Arguments Dict.set : simpl never.
Arguments Dict.remove : simpl never.
Arguments Dict.keys : simpl never.
Arguments Z.mul : simpl never.
Arguments Z.add : simpl never.
Arguments Z.sub : simpl never.
Arguments Z.div : simpl never.
Arguments Z.geb : simpl never.
Arguments Z.gtb : simpl never.
Arguments Z.ltb : simpl never.
Arguments Z.eqb : simpl never.

(** ** The driver *)

Section DriverFacts.
Context {S : Type} `{Policy S}.

Lemma run_cons item rest (s : S) :
  run (item :: rest) s =
  (fst (access item s) :: results rest (snd (access item s)),
   final rest (snd (access item s))).
Proof.
  unfold results, final. simpl. destruct (access item s) as [o s1]. simpl.
  destruct (run rest s1). reflexivity.
Qed.

Lemma final_nil (s : S) : final [] s = s.
Proof. reflexivity. Qed.

Lemma final_cons item rest (s : S) :
  final (item :: rest) s = final rest (snd (access item s)).
Proof. unfold final at 1. now rewrite run_cons. Qed.

Lemma final_app tr1 tr2 (s : S) :
  final (tr1 ++ tr2) s = final tr2 (final tr1 s).
Proof.
  revert s. induction tr1 as [| x tr1 IH]; intros s; [reflexivity |].
  rewrite <- app_comm_cons, !final_cons. apply IH.
Qed.

(** A property kept by every call holds after every trace. *)
Lemma final_invariant (I : S -> Prop) :
  (forall item s, I s -> I (snd (access item s))) ->
  forall trace s, I s -> I (final trace s).
Proof.
  intros Hstep trace. induction trace as [| x trace IH]; intros s Hs.
  - exact Hs.
  - rewrite final_cons. apply IH, Hstep, Hs.
Qed.
End DriverFacts.

(** What a call does to the counters: [time] goes up by one, and so does
    [hits] on a hit and [misses] on a miss. *)
Definition counted (hit : bool) (b : CachePolicy.t) : CachePolicy.t :=
  if hit then CachePolicy.incr_hits (CachePolicy.incr_time b)
  else CachePolicy.incr_misses (CachePolicy.incr_time b).

(** ** Steps of a computation *)

Lemma bind_ret_step {S A B} (m : Py S A) (k : A -> Py S B) s a s1 :
  m s = (Ret a, s1) -> bind m k s = k a s1.
Proof. intros E. unfold bind. now rewrite E. Qed.

Lemma zoom_run {S X A} (proj : S -> X) (upd : X -> S -> S) (m : Py X A) s :
  zoom proj upd m s = (fst (m (proj s)), upd (snd (m (proj s))) s).
Proof. unfold zoom. now destruct (m (proj s)). Qed.

(** ** LRU *)

Module LRUFacts.
Import LRUCache.

Definition Inv (cap : Z) (s : t) : Prop :=
  CachePolicy.capacity (base s) = cap /\ OD.len (cache s) <= cap.

Lemma lru_access_hit item s :
  OD.mem item (cache s) = true ->
  access item s =
  (Ret true, mk (counted true (base s)) (OD.remove item (cache s) ++ [item])).
Proof.
  intros Hin. unfold access, on_base, in_cache. py_unfold. simpl.
  rewrite Hin. unfold OD.move_to_end. simpl. rewrite Hin. reflexivity.
Qed.

Lemma lru_access_miss item s :
  OD.mem item (cache s) = false ->
  access item s =
  if OD.len (cache s) >=? CachePolicy.capacity (base s) then
    match cache s with
    | [] => (Raise KeyError, mk (counted false (base s)) [])
    | _ :: rest => (Ret false, mk (counted false (base s))
                                 (snd (OD.setitem item rest)))
    end
  else (Ret false, mk (counted false (base s))
                      (snd (OD.setitem item (cache s)))).
Proof.
  intros Hout. unfold access, on_base, in_cache. py_unfold. simpl.
  rewrite Hout. simpl.
  destruct (OD.len (cache s) >=? CachePolicy.capacity (base s)); simpl;
    [destruct (cache s); simpl |]; rewrite ?Hout; reflexivity.
Qed.

Lemma lru_inv_init cap : 0 < cap -> Inv cap (__init__ cap).
Proof. intros H. split; [reflexivity |]. change (0 <= cap). lia. Qed.

Lemma lru_access_base item s :
  base (snd (access item s)) = counted (OD.mem item (cache s)) (base s).
Proof.
  destruct (OD.mem item (cache s)) eqn:E.
  - now rewrite lru_access_hit.
  - rewrite lru_access_miss by assumption.
    destruct (_ >=? _); [destruct (cache s) |]; reflexivity.
Qed.

Lemma lru_access_inv cap item s :
  0 < cap -> Inv cap s -> Inv cap (snd (access item s)).
Proof.
  intros Hcap [Hc Hlen]. split.
  - rewrite lru_access_base. now destruct (OD.mem item (cache s)).
  - destruct (OD.mem item (cache s)) eqn:E.
    + rewrite lru_access_hit by assumption. simpl.
      pose proof (ODFacts.od_move_to_end_mem item item (cache s) E). lia.
    + rewrite lru_access_miss by assumption. rewrite Hc.
      destruct (Z.geb_spec (OD.len (cache s)) cap) as [Hfull | Hroom].
      * destruct (cache s) as [| y rest]; simpl.
        -- rewrite ODFacts.od_len_nil. lia.
        -- rewrite ODFacts.od_len_cons in Hlen.
           pose proof (ODFacts.od_setitem_len item rest) as L.
           unfold OD.setitem, modify in L. simpl in L. rewrite L.
           destruct (OD.mem item rest); lia.
      * simpl. pose proof (ODFacts.od_setitem_len item (cache s)) as L.
        unfold OD.setitem, modify in L. simpl in L. rewrite L.
        rewrite E. lia.
Qed.

(** With a positive capacity no call raises. *)
Lemma lru_access_result cap item s :
  0 < cap -> Inv cap s ->
  fst (access item s) = Ret (OD.mem item (cache s)).
Proof.
  intros Hcap [Hc Hlen]. destruct (OD.mem item (cache s)) eqn:E.
  - now rewrite lru_access_hit.
  - rewrite lru_access_miss by assumption. rewrite Hc.
    destruct (Z.geb_spec (OD.len (cache s)) cap) as [Hfull | Hroom];
      [| reflexivity].
    destruct (cache s); [| reflexivity].
    rewrite ODFacts.od_len_nil in Hfull. lia.
Qed.

(** A hit keeps the resident set. *)
Lemma lru_access_hit_resident item s x :
  OD.mem item (cache s) = true ->
  OD.mem x (cache (snd (access item s))) = OD.mem x (cache s).
Proof.
  intros E. rewrite lru_access_hit by assumption. simpl.
  apply (ODFacts.od_move_to_end_mem x item (cache s) E).
Qed.

(** A miss makes the item resident. *)
Lemma lru_access_miss_resident item s :
  OD.mem item (cache s) = false ->
  fst (access item s) = Ret false ->
  OD.mem item (cache (snd (access item s))) = true.
Proof.
  intros E. rewrite lru_access_miss by assumption.
  destruct (_ >=? _); [destruct (cache s) |]; cbn [fst snd cache];
    try discriminate;
    intros _; rewrite ODFacts.od_setitem_mem, Z.eqb_refl; reflexivity.
Qed.

End LRUFacts.

(** ** Time-decayed caching *)

Module TDCFacts.
Import TimeDecayedCache.

(** The two dictionaries go together, and no update lies in the future. *)
Definition Stamped (s : t) : Prop :=
  (forall x, Dict.mem x (cache s) = true ->
             Dict.mem x (last_update_time s) = true) /\
  (forall x u, Dict.get x (last_update_time s) = Some u ->
               u <= CachePolicy.time (base s)).

Definition Inv (cap : Z) (s : t) : Prop :=
  CachePolicy.capacity (base s) = cap /\
  Dict.len (cache s) <= cap /\
  Stamped s.

Lemma tdc_eta (s : t) :
  mk (base s) (decay_rate s) (cache s) (last_update_time s) = s.
Proof. now destruct s. Qed.

Lemma tdc_update_score_present x s :
  Stamped s -> Dict.mem x (cache s) = true ->
  exists score, _update_score x s = (Ret score, s).
Proof.
  intros [Hkeys Hpast] Hin.
  destruct (proj1 (DictFacts.dict_mem_get _ _) Hin) as (sc & Hsc).
  destruct (proj1 (DictFacts.dict_mem_get _ _) (Hkeys x Hin)) as (u & Hu).
  pose proof (Hpast x u Hu) as Hle.
  exists (sc * decay_rate s ^ (CachePolicy.time (base s) - u))%Q.
  unfold _update_score, in_cache, in_last_update_time, Dict.getitem, pow.
  py_unfold. simpl. rewrite Hin. simpl. rewrite Hu. simpl. rewrite Hsc.
  simpl. destruct (Z.ltb_spec (CachePolicy.time (base s) - u) 0); [lia |].
  simpl. unfold set_cache, set_last_update_time. simpl. now rewrite tdc_eta.
Qed.

(** One turn of the eviction scan: the state after the score of
    [cached_item] is brought up to date. *)
Definition rescored (cached_item : Z) (score : Q) (s : t) : t :=
  mk (base s) (decay_rate s)
     (Dict.set cached_item score (cache s))
     (Dict.set cached_item (CachePolicy.time (base s)) (last_update_time s)).

Lemma tdc_rescored_stamped x score s : Stamped s -> Stamped (rescored x score s).
Proof.
  intros [Hkeys Hpast]. split; simpl.
  - intros y. rewrite !DictFacts.dict_mem_set.
    destruct (y =? x); [reflexivity | apply Hkeys].
  - intros y u. rewrite DictFacts.dict_get_set.
    destruct (y =? x); [intros [= <-]; lia | apply Hpast].
Qed.

Lemma tdc_rescored_mem x score s y :
  Dict.mem x (cache s) = true ->
  Dict.mem y (cache (rescored x score s)) = Dict.mem y (cache s).
Proof.
  intros Hin. simpl. rewrite DictFacts.dict_mem_set.
  destruct (Z.eqb_spec y x) as [-> | _]; [now rewrite Hin | reflexivity].
Qed.

Lemma tdc_rescored_len x score s :
  Dict.mem x (cache s) = true ->
  Dict.len (cache (rescored x score s)) = Dict.len (cache s).
Proof. intros Hin. simpl. now rewrite DictFacts.dict_len_set, Hin. Qed.

Lemma tdc_scan_step cached_item rest m min_item s :
  Stamped s -> Dict.mem cached_item (cache s) = true ->
  exists score,
    scan (cached_item :: rest) m min_item s =
    if score_lt score m
    then scan rest (Score score) (Some cached_item)
              (rescored cached_item score s)
    else scan rest m min_item (rescored cached_item score s).
Proof.
  intros Hst Hin. destruct (tdc_update_score_present _ _ Hst Hin) as (score & E).
  exists score. simpl scan. unfold bind at 1. rewrite E.
  unfold in_cache, in_last_update_time, Dict.setitem. py_unfold. simpl.
  unfold rescored, set_cache, set_last_update_time. simpl.
  destruct (score_lt score m); reflexivity.
Qed.

(** The scan returns, keeps the keys, and finds a victim among the
    scanned keys when the running minimum starts at infinity. *)
Lemma tdc_scan_spec items : forall m min_item s,
  Stamped s ->
  (forall x, In x items -> Dict.mem x (cache s) = true) ->
  exists r s',
    scan items m min_item s = (Ret r, s') /\
    base s' = base s /\ decay_rate s' = decay_rate s /\
    (forall y, Dict.mem y (cache s') = Dict.mem y (cache s)) /\
    Dict.len (cache s') = Dict.len (cache s) /\
    Stamped s' /\
    (r = None -> min_item = None /\ (m = ScoreInf -> items = [])) /\
    (forall v, r = Some v -> In v items \/ min_item = Some v).
Proof.
  induction items as [| k rest IH]; intros m min_item s Hst Hall.
  - exists min_item, s. simpl. unfold ret. destruct Hst.
    repeat split; auto.
  - assert (Hk : Dict.mem k (cache s) = true) by (apply Hall; now left).
    destruct (tdc_scan_step k rest m min_item s Hst Hk) as (score & E).
    rewrite E. clear E.
    pose proof (tdc_rescored_stamped k score s Hst) as Hst'.
    assert (Hall' : forall x, In x rest ->
              Dict.mem x (cache (rescored k score s)) = true).
    { intros x Hx. rewrite tdc_rescored_mem by assumption. apply Hall. now right. }
    destruct (score_lt score m) eqn:Hlt.
    + destruct (IH (Score score) (Some k) _ Hst' Hall')
        as (r & s' & -> & Hb & Hd & Hm & Hl & Hs & Hnone & Hsome).
      exists r, s'. split; [reflexivity |].
      split; [exact Hb |]. split; [exact Hd |].
      split; [intros y; rewrite Hm; now apply tdc_rescored_mem |].
      split; [rewrite Hl; now apply tdc_rescored_len |].
      split; [exact Hs |]. split.
      * intros Hr. destruct (Hnone Hr) as [[=] _].
      * intros v Hv. destruct (Hsome v Hv) as [Hin | [= <-]];
          left; [now right | now left].
    + destruct (IH m min_item _ Hst' Hall')
        as (r & s' & -> & Hb & Hd & Hm & Hl & Hs & Hnone & Hsome).
      exists r, s'. split; [reflexivity |].
      split; [exact Hb |]. split; [exact Hd |].
      split; [intros y; rewrite Hm; now apply tdc_rescored_mem |].
      split; [rewrite Hl; now apply tdc_rescored_len |].
      split; [exact Hs |]. split.
      * intros Hr. destruct (Hnone Hr) as [Hmi Hinf]. split; [exact Hmi |].
        intros ->. discriminate.
      * intros v Hv. destruct (Hsome v Hv) as [Hin | Hmi];
          [left; now right | now right].
Qed.

Lemma tdc_keys_nil_len (d : Dict.t Q) : Dict.keys d = [] -> Dict.len d = 0.
Proof. destruct d; [reflexivity | discriminate]. Qed.

(** The eviction block on a non-empty cache: it returns and frees a slot. *)
Lemma tdc_evict_spec s :
  Stamped s -> 0 < Dict.len (cache s) ->
  exists s',
    evict s = (Ret tt, s') /\
    base s' = base s /\ decay_rate s' = decay_rate s /\
    Dict.len (cache s') <= Dict.len (cache s) - 1 /\
    Stamped s' /\
    (forall y, Dict.mem y (cache s') = true -> Dict.mem y (cache s) = true).
Proof.
  intros Hst Hlen.
  destruct (tdc_scan_spec (Dict.keys (cache s)) ScoreInf None s Hst)
    as (r & s1 & E & Hb & Hd & Hm & Hl & [Hkeys Hpast] & Hnone & Hsome).
  { intros x. apply DictFacts.dict_mem_keys. }
  unfold evict. unfold bind at 1, gets at 1. unfold bind at 1. rewrite E.
  destruct r as [victim |].
  - destruct (Hsome victim eq_refl) as [Hin | [=]].
    apply DictFacts.dict_mem_keys in Hin. rewrite <- Hm in Hin.
    pose proof (Hkeys victim Hin) as Hin'.
    exists (mk (base s1) (decay_rate s1) (Dict.remove victim (cache s1))
               (Dict.remove victim (last_update_time s1))).
    split.
    { unfold in_cache, in_last_update_time, Dict.delitem. py_unfold. simpl.
      rewrite Hin. simpl. rewrite Hin'. reflexivity. }
    simpl. split; [exact Hb |]. split; [exact Hd |]. split.
    { pose proof (DictFacts.dict_len_remove victim (cache s1) Hin). lia. }
    split; [split; simpl |].
    + intros x. rewrite !DictFacts.dict_mem_remove.
      destruct (x =? victim); [discriminate | apply Hkeys].
    + intros x u. rewrite DictFacts.dict_get_remove.
      destruct (x =? victim); [discriminate | apply Hpast].
    + intros y. rewrite DictFacts.dict_mem_remove, Hm.
      destruct (y =? victim); [discriminate | auto].
  - destruct (Hnone eq_refl) as [_ Hnil].
    rewrite (tdc_keys_nil_len _ (Hnil eq_refl)) in Hlen. lia.
Qed.

(** The state once [time] is incremented. *)
Definition ticked (s : t) : t :=
  set_base (CachePolicy.incr_time (base s)) s.

Lemma tdc_ticked_stamped s : Stamped s -> Stamped (ticked s).
Proof.
  intros [Hkeys Hpast]. split; simpl; [exact Hkeys |].
  intros x u Hu. specialize (Hpast x u Hu). lia.
Qed.

Lemma tdc_access_hit item s :
  Stamped s -> Dict.mem item (cache s) = true ->
  exists score,
    access item s =
    (Ret true,
     mk (counted true (base s)) (decay_rate s)
        (Dict.set item (score + 1)%Q (cache s))
        (Dict.set item (CachePolicy.time (base s) + 1)
                  (last_update_time s))).
Proof.
  intros Hst Hin.
  destruct (tdc_update_score_present item (ticked s) (tdc_ticked_stamped s Hst) Hin)
    as (score & E).
  exists score. unfold access. unfold bind at 1, on_base at 1, modify at 1.
  fold (ticked s). unfold bind at 1, gets at 1.
  change (cache (ticked s)) with (cache s). rewrite Hin.
  unfold bind at 1. rewrite E.
  unfold in_cache, in_last_update_time, on_base, Dict.setitem. py_unfold.
  reflexivity.
Qed.

Lemma tdc_access_miss cap item s :
  0 < cap -> Inv cap s -> Dict.mem item (cache s) = false ->
  exists s',
    access item s = (Ret false, s') /\
    base s' = counted false (base s) /\
    decay_rate s' = decay_rate s /\
    Dict.len (cache s') <= cap /\
    Stamped s' /\
    Dict.mem item (cache s') = true.
Proof.
  intros Hcap (Hc & Hlen & Hst) Hout.
  pose (s1 := set_base (CachePolicy.incr_misses (base (ticked s))) (ticked s)).
  assert (Hst1 : Stamped s1).
  { destruct (tdc_ticked_stamped s Hst) as [Hk Hp]. split; [exact Hk | exact Hp]. }
  (* the state before the insertion *)
  assert (Hev : exists s2,
    when (Dict.len (cache s1) >=? CachePolicy.capacity (base s1)) evict s1
    = (Ret tt, s2) /\
    base s2 = base s1 /\ decay_rate s2 = decay_rate s1 /\
    Dict.len (cache s2) <= cap - 1 /\ Stamped s2).
  { change (cache s1) with (cache s).
    change (CachePolicy.capacity (base s1)) with (CachePolicy.capacity (base s)).
    rewrite Hc. unfold when.
    destruct (Z.geb_spec (Dict.len (cache s)) cap) as [Hfull | Hroom].
    - destruct (tdc_evict_spec s1 Hst1) as (s2 & E & Hb & Hd & Hl & Hs & _).
      { change (cache s1) with (cache s). lia. }
      exists s2. change (cache s1) with (cache s) in Hl.
      repeat split; try assumption; try apply Hs. lia.
    - exists s1. unfold ret. change (cache s1) with (cache s).
      repeat split; try apply Hst1. lia. }
  destruct Hev as (s2 & E & Hb & Hd & Hl & [Hk Hp]).
  exists (mk (base s2) (decay_rate s2) (Dict.set item 1%Q (cache s2))
             (Dict.set item (CachePolicy.time (base s2))
                       (last_update_time s2))).
  split.
  { unfold access. unfold bind at 1, on_base at 1, modify at 1.
    fold (ticked s). unfold bind at 1, gets at 1.
    change (cache (ticked s)) with (cache s). rewrite Hout.
    unfold bind at 1, on_base at 1, modify at 1. fold s1.
    unfold bind at 1, gets at 1. unfold bind at 1. rewrite E.
    unfold in_cache, in_last_update_time, Dict.setitem. py_unfold.
    reflexivity. }
  simpl. split; [exact Hb |]. split; [exact Hd |]. split.
  { rewrite DictFacts.dict_len_set. destruct (Dict.mem item (cache s2)); lia. }
  split; [split; simpl |].
  - intros x. rewrite !DictFacts.dict_mem_set.
    destruct (x =? item); [reflexivity | apply Hk].
  - intros x u. rewrite DictFacts.dict_get_set.
    destruct (x =? item); [intros [= <-]; lia | apply Hp].
  - rewrite DictFacts.dict_mem_set, Z.eqb_refl. reflexivity.
Qed.

Lemma tdc_inv_init cap d : 0 < cap -> Inv cap (__init__ cap d).
Proof.
  intros H. split; [reflexivity |]. split; [change (0 <= cap); lia |].
  split; simpl; intros x; [discriminate | intros u; discriminate].
Qed.

Lemma tdc_access_result cap item s :
  0 < cap -> Inv cap s ->
  fst (access item s) = Ret (Dict.mem item (cache s)).
Proof.
  intros Hcap Hinv. destruct (Dict.mem item (cache s)) eqn:E.
  - destruct (tdc_access_hit item s (proj2 (proj2 Hinv)) E) as (score & ->).
    reflexivity.
  - destruct (tdc_access_miss cap item s Hcap Hinv E) as (s' & -> & _).
    reflexivity.
Qed.

Lemma tdc_access_base cap item s :
  0 < cap -> Inv cap s ->
  base (snd (access item s)) = counted (Dict.mem item (cache s)) (base s).
Proof.
  intros Hcap Hinv. destruct (Dict.mem item (cache s)) eqn:E.
  - destruct (tdc_access_hit item s (proj2 (proj2 Hinv)) E) as (score & ->).
    reflexivity.
  - destruct (tdc_access_miss cap item s Hcap Hinv E) as (s' & -> & Hb & _).
    exact Hb.
Qed.

Lemma tdc_access_decay_rate cap item s :
  0 < cap -> Inv cap s -> decay_rate (snd (access item s)) = decay_rate s.
Proof.
  intros Hcap Hinv. destruct (Dict.mem item (cache s)) eqn:E.
  - destruct (tdc_access_hit item s (proj2 (proj2 Hinv)) E) as (score & ->).
    reflexivity.
  - destruct (tdc_access_miss cap item s Hcap Hinv E) as (s' & -> & _ & Hd & _).
    exact Hd.
Qed.

Lemma tdc_access_inv cap item s :
  0 < cap -> Inv cap s -> Inv cap (snd (access item s)).
Proof.
  intros Hcap Hinv. pose proof Hinv as (Hc & Hlen & Hst).
  destruct (Dict.mem item (cache s)) eqn:E.
  - destruct (tdc_access_hit item s Hst E) as (score & ->). simpl.
    split; [exact Hc |]. simpl.
    split; [now rewrite DictFacts.dict_len_set, E |].
    destruct Hst as [Hk Hp]. split; simpl.
    + intros x. rewrite !DictFacts.dict_mem_set.
      destruct (x =? item); [reflexivity | apply Hk].
    + intros x u. rewrite DictFacts.dict_get_set.
      destruct (x =? item); [intros [= <-]; lia |].
      intros Hu. specialize (Hp x u Hu). lia.
  - destruct (tdc_access_miss cap item s Hcap Hinv E)
      as (s' & -> & Hb & _ & Hl & Hs & _). simpl.
    split; [now rewrite Hb |]. split; assumption.
Qed.

(** A hit keeps the resident set. *)
Lemma tdc_access_hit_resident item s x :
  Stamped s -> Dict.mem item (cache s) = true ->
  Dict.mem x (cache (snd (access item s))) = Dict.mem x (cache s).
Proof.
  intros Hst E. destruct (tdc_access_hit item s Hst E) as (score & ->). simpl.
  rewrite DictFacts.dict_mem_set.
  destruct (Z.eqb_spec x item) as [-> | _]; [now rewrite E | reflexivity].
Qed.

(** A miss makes the item resident. *)
Lemma tdc_access_miss_resident cap item s :
  0 < cap -> Inv cap s -> Dict.mem item (cache s) = false ->
  Dict.mem item (cache (snd (access item s))) = true.
Proof.
  intros Hcap Hinv Hout.
  destruct (tdc_access_miss cap item s Hcap Hinv Hout)
    as (s' & -> & _ & _ & _ & _ & H).
  exact H.
Qed.

End TDCFacts.

(** ** LFU *)

Module LFUFacts.
Import LFUCache.

(** The items of frequency [f]: the bucket of [f], empty when there is
    none. *)
Definition items_at (f : Z) (d : Dict.t OD.t) : OD.t :=
  match Dict.get f d with Some b => b | None => [] end.

Lemma lfu_bucket_spec {A} f (m : Py OD.t A) d :
  exists d',
    bucket f m d = (fst (m (items_at f d)), d') /\
    Dict.mem f d' = true /\
    forall g, items_at g d' =
              if g =? f then snd (m (items_at f d)) else items_at g d.
Proof.
  unfold bucket, items_at. destruct (Dict.get f d) as [b |] eqn:E.
  - destruct (m b) as [r b']. exists (Dict.set f b' d). simpl.
    split; [reflexivity |]. split.
    + now rewrite DictFacts.dict_mem_set, Z.eqb_refl.
    + intros g. rewrite DictFacts.dict_get_set. now destruct (g =? f).
  - destruct (m OD.empty) as [r b'] eqn:Em.
    exists (Dict.set f b' (Dict.set f OD.empty d)).
    change (m []) with (m OD.empty). rewrite Em. simpl.
    split; [reflexivity |]. split.
    + now rewrite DictFacts.dict_mem_set, Z.eqb_refl.
    + intros g. rewrite !DictFacts.dict_get_set. now destruct (g =? f).
Qed.

(** A method run on the bucket of [f]. *)
Lemma lfu_in_bucket {A} f (m : Py OD.t A) s :
  exists s',
    in_freq_to_items (bucket f m) s =
      (fst (m (items_at f (freq_to_items s))), s') /\
    base s' = base s /\ cache s' = cache s /\ min_freq s' = min_freq s /\
    Dict.mem f (freq_to_items s') = true /\
    forall g, items_at g (freq_to_items s') =
              if g =? f then snd (m (items_at f (freq_to_items s)))
              else items_at g (freq_to_items s).
Proof.
  destruct (lfu_bucket_spec f m (freq_to_items s)) as (d' & E & Hmem & Hat).
  exists (set_freq_to_items d' s). unfold in_freq_to_items.
  rewrite zoom_run, E. simpl. repeat split; assumption.
Qed.

(** [del self.freq_to_items[f]] on a bucket that is there. *)
Lemma lfu_drop_bucket f s :
  Dict.mem f (freq_to_items s) = true ->
  exists s',
    in_freq_to_items (Dict.delitem f) s = (Ret tt, s') /\
    base s' = base s /\ cache s' = cache s /\ min_freq s' = min_freq s /\
    forall g, items_at g (freq_to_items s') =
              if g =? f then [] else items_at g (freq_to_items s).
Proof.
  intros Hmem. exists (set_freq_to_items (Dict.remove f (freq_to_items s)) s).
  unfold in_freq_to_items. rewrite zoom_run. unfold Dict.delitem.
  rewrite Hmem. simpl. repeat split.
  intros g. unfold items_at. rewrite DictFacts.dict_get_remove.
  now destruct (g =? f).
Qed.

(** The statements that take [item] out of the bucket of [f] and test
    whether the bucket is left empty. *)
Lemma lfu_take_out {C} item f s (rest : bool -> Py t C) :
  OD.mem item (items_at f (freq_to_items s)) = true ->
  exists s1,
    (in_freq_to_items (bucket f (OD.delitem item)) ;;
     left <- in_freq_to_items (bucket f (gets OD.nonempty)) ;;
     rest left) s =
    rest (OD.nonempty (OD.remove item (items_at f (freq_to_items s)))) s1 /\
    base s1 = base s /\ cache s1 = cache s /\ min_freq s1 = min_freq s /\
    Dict.mem f (freq_to_items s1) = true /\
    (forall g, items_at g (freq_to_items s1) =
               if g =? f then OD.remove item (items_at f (freq_to_items s))
               else items_at g (freq_to_items s)).
Proof.
  intros Hin.
  destruct (lfu_in_bucket f (OD.delitem item) s)
    as (sa & Ea & Hba & Hca & Hma & Hka & Hat_a).
  rewrite (ODFacts.od_delitem_mem _ _ Hin) in Ea, Hat_a. simpl in Ea, Hat_a.
  destruct (lfu_in_bucket f (gets OD.nonempty) sa)
    as (sb & Eb & Hbb & Hcb & Hmb & Hkb & Hat_b).
  unfold gets in Eb, Hat_b. simpl in Eb, Hat_b.
  exists sb.
  rewrite (bind_ret_step _ _ _ _ _ Ea), (bind_ret_step _ _ _ _ _ Eb).
  rewrite Hat_a, Z.eqb_refl.
  repeat split; try congruence; try assumption.
  intros g. rewrite Hat_b, !Hat_a, Z.eqb_refl. now destruct (g =? f).
Qed.

(** What the object looks like from outside: the counters, the frequency
    of each item, the items of each frequency, and [min_freq]. *)
Record view_is (s : t) (b : CachePolicy.t) (c : Dict.t Z)
       (at_ : Z -> OD.t) (m : Z) : Prop := {
  view_base : base s = b;
  view_cache : cache s = c;
  view_items : forall g, items_at g (freq_to_items s) = at_ g;
  view_min_freq : min_freq s = m
}.

Definition ticked (s : t) : t :=
  set_base (CachePolicy.incr_time (base s)) s.

(** A hit on an item of frequency [f] that its bucket holds. *)
Lemma lfu_access_hit item f s :
  Dict.get item (cache s) = Some f ->
  OD.mem item (items_at f (freq_to_items s)) = true ->
  let old := items_at f (freq_to_items s) in
  exists s',
    access item s = (Ret true, s') /\
    view_is s' (counted true (base s))
      (Dict.set item (f + 1) (cache s))
      (fun g =>
         if g =? f + 1
         then snd (OD.setitem item (items_at (f + 1) (freq_to_items s)))
         else if g =? f then OD.remove item old
         else items_at g (freq_to_items s))
      (if negb (OD.nonempty (OD.remove item old)) && (min_freq s =? f)
       then min_freq s + 1 else min_freq s).
Proof.
  intros Hf Hin old.
  assert (Hmem : Dict.mem item (cache s) = true)
    by (apply DictFacts.dict_mem_get; eauto).
  unfold access. unfold bind at 1, on_base at 1, modify at 1.
  fold (ticked s). unfold bind at 1, gets at 1.
  change (cache (ticked s)) with (cache s). rewrite Hmem.
  (* freq = self.cache[item] *)
  unfold bind at 1, in_cache at 1. rewrite zoom_run. unfold Dict.getitem.
  change (cache (ticked s)) with (cache s). rewrite Hf. simpl fst. simpl snd.
  set (s0 := set_cache (cache s) (ticked s)).
  destruct (lfu_take_out item f s0
              (fun left =>
                 when (negb left)
                   (in_freq_to_items (Dict.delitem f) ;;
                    m <- gets min_freq ;;
                    when (m =? f) (modify (set_min_freq (m + 1)))) ;;
                 in_cache (Dict.setitem item (f + 1)) ;;
                 in_freq_to_items (bucket (f + 1) (OD.setitem item)) ;;
                 on_base CachePolicy.incr_hits ;;
                 ret true) Hin)
    as (s1 & E1 & Hb1 & Hc1 & Hm1 & Hk1 & Hat1).
  rewrite E1. clear E1.
  change (items_at f (freq_to_items s0)) with old in *.
  (* the state once an emptied bucket is dropped *)
  assert (Hdrop : exists s2,
    when (negb (OD.nonempty (OD.remove item old)))
      (in_freq_to_items (Dict.delitem f) ;;
       m <- gets min_freq ;;
       when (m =? f) (modify (set_min_freq (m + 1)))) s1 = (Ret tt, s2) /\
    view_is s2 (base s1) (cache s1)
      (fun g => if g =? f then OD.remove item old
                else items_at g (freq_to_items s))
      (if negb (OD.nonempty (OD.remove item old)) && (min_freq s =? f)
       then min_freq s + 1 else min_freq s)).
  { destruct (OD.nonempty (OD.remove item old)) eqn:Hleft; simpl.
    - exists s1. split; [reflexivity |]. now split.
    - destruct (lfu_drop_bucket f s1 Hk1) as (sd & Ed & Hbd & Hcd & Hmd & Hatd).
      rewrite (bind_ret_step _ _ _ _ _ Ed). unfold bind, gets, when.
      rewrite Hmd, Hm1. change (min_freq s0) with (min_freq s).
      apply ODFacts.od_nonempty_false in Hleft.
      assert (Hv : forall g, items_at g (freq_to_items sd) =
                if g =? f then OD.remove item old
                else items_at g (freq_to_items s)).
      { intros g. rewrite Hatd, Hat1, Hleft. now destruct (g =? f). }
      destruct (min_freq s =? f).
      + exists (set_min_freq (min_freq s + 1) sd).
        split; [reflexivity |]. now split.
      + exists sd. split; [reflexivity |]. split; try assumption.
        rewrite Hmd, Hm1. reflexivity. }
  destruct Hdrop as (s2 & E2 & [Hb2 Hc2 Hat2 Hm2]).
  rewrite (bind_ret_step _ _ _ _ _ E2).
  (* self.cache[item] = freq + 1 *)
  unfold bind at 1, in_cache at 1. rewrite zoom_run. simpl fst. simpl snd.
  set (s3 := set_cache _ s2).
  destruct (lfu_in_bucket (f + 1) (OD.setitem item) s3)
    as (s4 & E4 & Hb4 & Hc4 & Hm4 & _ & Hat4).
  rewrite (bind_ret_step _ _ _ _ _ E4).
  unfold on_base. py_unfold.
  eexists. split; [reflexivity |]. split; simpl.
  - rewrite Hb4. subst s3. simpl. rewrite Hb2, Hb1. reflexivity.
  - rewrite Hc4. subst s3. simpl. rewrite Hc2, Hc1. reflexivity.
  - intros g. rewrite Hat4. subst s3. simpl. rewrite !Hat2.
    destruct (Z.eqb_spec (f + 1) f); [lia |]. reflexivity.
  - rewrite Hm4. subst s3. simpl. exact Hm2.
Qed.

(** The eviction block when the bucket of [min_freq] starts with an item
    of the cache. *)
Lemma lfu_evict_spec s victim rest :
  items_at (min_freq s) (freq_to_items s) = victim :: rest ->
  Dict.mem victim (cache s) = true ->
  exists s',
    evict s = (Ret tt, s') /\
    view_is s' (base s) (Dict.remove victim (cache s))
      (fun g => if g =? min_freq s then OD.remove victim (victim :: rest)
                else items_at g (freq_to_items s))
      (min_freq s).
Proof.
  intros Hhead Hmem. unfold evict. unfold bind at 1, gets at 1.
  destruct (lfu_in_bucket (min_freq s) OD.first s)
    as (sa & Ea & Hba & Hca & Hma & _ & Hata).
  rewrite Hhead in Ea, Hata. simpl in Ea, Hata.
  rewrite (bind_ret_step _ _ _ _ _ Ea).
  assert (Hsame : forall g, items_at g (freq_to_items sa) =
                            items_at g (freq_to_items s)).
  { intros g. rewrite Hata.
    destruct (Z.eqb_spec g (min_freq s)) as [-> | _]; congruence. }
  assert (Hin : OD.mem victim (items_at (min_freq s) (freq_to_items sa)) = true).
  { rewrite Hsame, Hhead, ODFacts.od_mem_cons, Z.eqb_refl. reflexivity. }
  destruct (lfu_take_out victim (min_freq s) sa
              (fun left =>
                 when (negb left)
                   (in_freq_to_items (Dict.delitem (min_freq s))) ;;
                 in_cache (Dict.delitem victim)) Hin)
    as (s1 & E1 & Hb1 & Hc1 & Hm1 & Hk1 & Hat1).
  rewrite E1. clear E1. rewrite Hsame, Hhead in *.
  assert (Hdrop : exists s2,
    when (negb (OD.nonempty (OD.remove victim (victim :: rest))))
      (in_freq_to_items (Dict.delitem (min_freq s))) s1 = (Ret tt, s2) /\
    view_is s2 (base s) (cache s)
      (fun g => if g =? min_freq s then OD.remove victim (victim :: rest)
                else items_at g (freq_to_items s))
      (min_freq s)).
  { destruct (OD.nonempty (OD.remove victim (victim :: rest))) eqn:Hleft;
      simpl.
    - exists s1. split; [reflexivity |].
      split; try congruence.
      intros g. rewrite Hat1, Hsame. reflexivity.
    - destruct (lfu_drop_bucket (min_freq s) s1 Hk1)
        as (sd & Ed & Hbd & Hcd & Hmd & Hatd).
      exists sd. split; [exact Ed |].
      apply ODFacts.od_nonempty_false in Hleft.
      split; try congruence.
      intros g. rewrite Hatd, Hat1, Hsame, Hleft.
      now destruct (g =? min_freq s). }
  destruct Hdrop as (s2 & E2 & [Hb2 Hc2 Hat2 Hm2]).
  rewrite (bind_ret_step _ _ _ _ _ E2).
  unfold in_cache. rewrite zoom_run. unfold Dict.delitem.
  rewrite Hc2, Hmem. simpl.
  eexists. split; [reflexivity |]. split; simpl; trivial.
Qed.

(** The insertion of a new item, at frequency 1. *)
Lemma lfu_insert_spec item s :
  exists s',
    (in_cache (Dict.setitem item 1) ;;
     in_freq_to_items (bucket 1 (OD.setitem item)) ;;
     modify (set_min_freq 1) ;;
     ret false) s = (Ret false, s') /\
    view_is s' (base s) (Dict.set item 1 (cache s))
      (fun g => if g =? 1
                then snd (OD.setitem item (items_at 1 (freq_to_items s)))
                else items_at g (freq_to_items s))
      1.
Proof.
  unfold bind at 1, in_cache at 1. rewrite zoom_run. simpl fst. simpl snd.
  set (s1 := set_cache _ s).
  destruct (lfu_in_bucket 1 (OD.setitem item) s1)
    as (s2 & E2 & Hb2 & Hc2 & Hm2 & _ & Hat2).
  rewrite (bind_ret_step _ _ _ _ _ E2). py_unfold.
  eexists. split; [reflexivity |]. split; simpl; try assumption.
  reflexivity.
Qed.

Definition missed (s : t) : t :=
  set_base (CachePolicy.incr_misses (base (ticked s))) (ticked s).

Lemma lfu_access_miss item s :
  Dict.mem item (cache s) = false ->
  access item s =
  (when (Dict.len (cache s) >=? CachePolicy.capacity (base s)) evict ;;
   in_cache (Dict.setitem item 1) ;;
   in_freq_to_items (bucket 1 (OD.setitem item)) ;;
   modify (set_min_freq 1) ;;
   ret false) (missed s).
Proof.
  intros Hout. unfold access. unfold bind at 1, on_base at 1, modify at 1.
  fold (ticked s). unfold bind at 1, gets at 1.
  change (cache (ticked s)) with (cache s). rewrite Hout.
  unfold bind at 1, on_base at 1, modify at 1. fold (missed s).
  unfold bind at 1, gets at 1. reflexivity.
Qed.

(** A miss with room left. *)
Lemma lfu_access_miss_room item s :
  Dict.mem item (cache s) = false ->
  Dict.len (cache s) < CachePolicy.capacity (base s) ->
  exists s',
    access item s = (Ret false, s') /\
    view_is s' (counted false (base s)) (Dict.set item 1 (cache s))
      (fun g => if g =? 1
                then snd (OD.setitem item (items_at 1 (freq_to_items s)))
                else items_at g (freq_to_items s))
      1.
Proof.
  intros Hout Hroom. rewrite lfu_access_miss by assumption.
  destruct (Z.geb_spec (Dict.len (cache s)) (CachePolicy.capacity (base s)));
    [lia |].
  unfold when. unfold bind at 1, ret at 1.
  apply (lfu_insert_spec item (missed s)).
Qed.

(** A miss on a full cache whose [min_freq] bucket starts with a cached
    item: that item is evicted. *)
Lemma lfu_access_miss_full item s victim rest :
  Dict.mem item (cache s) = false ->
  CachePolicy.capacity (base s) <= Dict.len (cache s) ->
  items_at (min_freq s) (freq_to_items s) = victim :: rest ->
  Dict.mem victim (cache s) = true ->
  let kept := fun g =>
    if g =? min_freq s then OD.remove victim (victim :: rest)
    else items_at g (freq_to_items s) in
  exists s',
    access item s = (Ret false, s') /\
    view_is s' (counted false (base s))
      (Dict.set item 1 (Dict.remove victim (cache s)))
      (fun g => if g =? 1 then snd (OD.setitem item (kept 1)) else kept g)
      1.
Proof.
  intros Hout Hfull Hhead Hmem kept. rewrite lfu_access_miss by assumption.
  destruct (Z.geb_spec (Dict.len (cache s)) (CachePolicy.capacity (base s)));
    [| lia].
  unfold when.
  destruct (lfu_evict_spec (missed s) victim rest Hhead Hmem)
    as (s1 & E1 & [Hb1 Hc1 Hat1 Hm1]).
  rewrite (bind_ret_step _ _ _ _ _ E1).
  destruct (lfu_insert_spec item s1) as (s2 & E2 & [Hb2 Hc2 Hat2 Hm2]).
  exists s2. split; [exact E2 |]. split.
  - now rewrite Hb2, Hb1.
  - now rewrite Hc2, Hc1.
  - intros g. rewrite Hat2, !Hat1. reflexivity.
  - exact Hm2.
Qed.

(** The representation invariant, on the view of the object: every
    item sits in the bucket of its frequency and in no other, frequencies
    are positive, and [min_freq] is the least frequency of a cached item. *)
Record Good (cap : Z) (b : CachePolicy.t) (c : Dict.t Z)
       (at_ : Z -> OD.t) (m : Z) : Prop := {
  good_capacity : CachePolicy.capacity b = cap;
  good_size : Dict.len c <= cap;
  good_linked : forall x f,
    Dict.get x c = Some f <-> OD.mem x (at_ f) = true;
  good_positive : forall x f, Dict.get x c = Some f -> 1 <= f;
  good_least : forall x f, Dict.get x c = Some f -> m <= f;
  good_attained : forall x,
    Dict.mem x c = true -> exists y, Dict.get y c = Some m
}.

Definition Inv (cap : Z) (s : t) : Prop :=
  Good cap (base s) (cache s)
       (fun g => items_at g (freq_to_items s)) (min_freq s).

Lemma lfu_view_good cap s b c at_ m :
  view_is s b c at_ m -> Good cap b c at_ m -> Inv cap s.
Proof.
  intros [Hb Hc Hat Hm] [G1 G2 G3 G4 G5 G6]. unfold Inv.
  rewrite Hb, Hc, Hm. split; try assumption.
  intros x f. rewrite Hat. apply G3.
Qed.

Lemma lfu_inv_init cap : 0 < cap -> Inv cap (__init__ cap).
Proof.
  intros Hcap. split; simpl.
  - reflexivity.
  - change (0 <= cap). lia.
  - intros x f. split; discriminate.
  - discriminate.
  - discriminate.
  - discriminate.
Qed.

Lemma lfu_hit_good cap b c at_ m item f :
  Good cap b c at_ m -> Dict.get item c = Some f ->
  Good cap (counted true b) (Dict.set item (f + 1) c)
    (fun g =>
       if g =? f + 1 then snd (OD.setitem item (at_ (f + 1)))
       else if g =? f then OD.remove item (at_ f)
       else at_ g)
    (if negb (OD.nonempty (OD.remove item (at_ f))) && (m =? f)
     then m + 1 else m).
Proof.
  intros [G1 G2 G3 G4 G5 G6] Hf.
  assert (Hmem : Dict.mem item c = true) by (apply DictFacts.dict_mem_get; eauto).
  split.
  - exact G1.
  - now rewrite DictFacts.dict_len_set, Hmem.
  - intros x g. rewrite DictFacts.dict_get_set.
    destruct (Z.eqb_spec x item) as [-> | Hx].
    + destruct (Z.eqb_spec g (f + 1)) as [-> | Hg].
      * rewrite ODFacts.od_setitem_mem, Z.eqb_refl. now split.
      * destruct (Z.eqb_spec g f) as [-> | Hg'].
        -- rewrite ODFacts.od_mem_remove, Z.eqb_refl. simpl.
           split; [intros [=]; lia | discriminate].
        -- rewrite <- G3, Hf. split; intros [=]; lia.
    + destruct (Z.eqb_spec g (f + 1)) as [-> | Hg].
      * rewrite ODFacts.od_setitem_mem.
        destruct (Z.eqb_spec x item); [contradiction |]. apply G3.
      * destruct (Z.eqb_spec g f) as [-> | Hg'].
        -- rewrite ODFacts.od_mem_remove.
           destruct (Z.eqb_spec x item); [contradiction |]. apply G3.
        -- apply G3.
  - intros x g. rewrite DictFacts.dict_get_set.
    destruct (x =? item); [| apply G4].
    intros [= <-]. specialize (G4 item f Hf). lia.
  - intros x g. rewrite DictFacts.dict_get_set.
    destruct (Z.eqb_spec x item) as [-> | Hx].
    + intros [= <-]. specialize (G5 item f Hf).
      destruct (_ && _); lia.
    + intros Hg. pose proof (G5 x g Hg) as Hle.
      destruct (OD.nonempty (OD.remove item (at_ f))) eqn:Hleft;
        simpl; [exact Hle |].
      destruct (Z.eqb_spec m f) as [-> | _]; [| exact Hle].
      apply ODFacts.od_nonempty_false in Hleft.
      destruct (Z.eq_dec g f) as [-> | Hgf]; [| lia].
      apply G3 in Hg.
      assert (Hx' : OD.mem x (OD.remove item (at_ f)) = true).
      { rewrite ODFacts.od_mem_remove, Hg.
        destruct (Z.eqb_spec x item); [contradiction | reflexivity]. }
      rewrite Hleft in Hx'. discriminate.
  - intros x _.
    destruct (OD.nonempty (OD.remove item (at_ f))) eqn:Hleft; simpl.
    + (* someone else is left in the bucket of [f] *)
      destruct (G6 item Hmem) as (y & Hy).
      destruct (Z.eq_dec y item) as [-> | Hne].
      * assert (m = f) as -> by congruence.
        destruct (OD.remove item (at_ f)) as [| z l] eqn:R;
          [discriminate |].
        assert (Hz : OD.mem z (OD.remove item (at_ f)) = true).
        { rewrite R, ODFacts.od_mem_cons, Z.eqb_refl. reflexivity. }
        rewrite ODFacts.od_mem_remove in Hz.
        apply andb_prop in Hz. destruct Hz as [Hzi Hz].
        exists z. rewrite DictFacts.dict_get_set.
        destruct (z =? item); [discriminate |]. now apply G3.
      * exists y. rewrite DictFacts.dict_get_set.
        destruct (Z.eqb_spec y item); [contradiction | exact Hy].
    + destruct (Z.eqb_spec m f) as [-> | Hmf].
      * exists item. now rewrite DictFacts.dict_get_set, Z.eqb_refl.
      * destruct (G6 item Hmem) as (y & Hy). exists y.
        rewrite DictFacts.dict_get_set.
        destruct (Z.eqb_spec y item) as [-> | _]; [congruence | exact Hy].
Qed.

(** The insertion of a new item where items and buckets are linked. *)
Lemma lfu_insert_good cap b c at_ item :
  CachePolicy.capacity b = cap ->
  Dict.len c <= cap - 1 ->
  (forall x f, Dict.get x c = Some f <-> OD.mem x (at_ f) = true) ->
  (forall x f, Dict.get x c = Some f -> 1 <= f) ->
  Dict.mem item c = false ->
  Good cap b (Dict.set item 1 c)
    (fun g => if g =? 1 then snd (OD.setitem item (at_ 1)) else at_ g) 1.
Proof.
  intros G1 G2 G3 G4 Hout.
  assert (Hnone : forall g, OD.mem item (at_ g) = false).
  { intros g. destruct (OD.mem item (at_ g)) eqn:E; [| reflexivity].
    apply G3 in E. unfold Dict.mem in Hout. now rewrite E in Hout. }
  split.
  - exact G1.
  - rewrite DictFacts.dict_len_set, Hout. lia.
  - intros x g. rewrite DictFacts.dict_get_set.
    destruct (Z.eqb_spec x item) as [-> | Hx].
    + destruct (Z.eqb_spec g 1) as [-> | Hg].
      * rewrite ODFacts.od_setitem_mem, Z.eqb_refl. now split.
      * rewrite Hnone. split; [intros [=]; lia | discriminate].
    + destruct (Z.eqb_spec g 1) as [-> | Hg]; [| apply G3].
      rewrite ODFacts.od_setitem_mem.
      destruct (Z.eqb_spec x item); [contradiction | apply G3].
  - intros x g. rewrite DictFacts.dict_get_set.
    destruct (x =? item); [intros [= <-]; lia | apply G4].
  - intros x g. rewrite DictFacts.dict_get_set.
    destruct (x =? item); [intros [= <-]; lia | apply G4].
  - intros x _. exists item. now rewrite DictFacts.dict_get_set, Z.eqb_refl.
Qed.

(** The eviction of an item of the [min_freq] bucket from a good state;
    [min_freq] is left as it was and is set by the insertion that
    follows, so only the link between items and buckets is kept. *)
Lemma lfu_evict_good cap b c at_ m victim :
  Good cap b c at_ m -> OD.mem victim (at_ m) = true ->
  Dict.len (Dict.remove victim c) <= cap - 1 /\
  (forall x f,
     Dict.get x (Dict.remove victim c) = Some f <->
     OD.mem x (if f =? m then OD.remove victim (at_ m) else at_ f) = true) /\
  (forall x f, Dict.get x (Dict.remove victim c) = Some f -> 1 <= f).
Proof.
  intros [G1 G2 G3 G4 G5 G6] Hin.
  assert (Hv : Dict.get victim c = Some m) by now apply G3.
  assert (Hmem : Dict.mem victim c = true) by (apply DictFacts.dict_mem_get; eauto).
  split; [pose proof (DictFacts.dict_len_remove victim c Hmem); lia |]. split.
  - intros x f. rewrite DictFacts.dict_get_remove.
    destruct (Z.eqb_spec x victim) as [-> | Hx].
    + destruct (Z.eqb_spec f m) as [-> | Hf].
      * rewrite ODFacts.od_mem_remove, Z.eqb_refl. simpl. split; discriminate.
      * rewrite <- G3, Hv. split; [discriminate | intros [=]; congruence].
    + destruct (Z.eqb_spec f m) as [-> | Hf]; [| apply G3].
      rewrite ODFacts.od_mem_remove.
      destruct (Z.eqb_spec x victim); [contradiction | apply G3].
  - intros x f. rewrite DictFacts.dict_get_remove.
    destruct (x =? victim); [discriminate | apply G4].
Qed.

Lemma lfu_nonempty_has_key (c : Dict.t Z) :
  0 < Dict.len c -> exists x, Dict.mem x c = true.
Proof.
  destruct c as [| [k v] c]; [unfold Dict.len; simpl; lia |].
  intros _. exists k. unfold Dict.mem, Dict.get. now rewrite Z.eqb_refl.
Qed.

(** In a good, non-empty state the bucket of [min_freq] starts with a
    cached item of that frequency. *)
Lemma lfu_good_victim cap b c at_ m :
  Good cap b c at_ m -> 0 < Dict.len c ->
  exists victim rest,
    at_ m = victim :: rest /\ Dict.get victim c = Some m.
Proof.
  intros [G1 G2 G3 G4 G5 G6] Hlen.
  destruct (lfu_nonempty_has_key c Hlen) as (x & Hx).
  destruct (G6 x Hx) as (y & Hy). apply G3 in Hy.
  destruct (at_ m) as [| victim rest] eqn:E; [discriminate |].
  exists victim, rest. split; [reflexivity |].
  apply G3. rewrite E, ODFacts.od_mem_cons, Z.eqb_refl. reflexivity.
Qed.

(** What a call does, case by case. *)
Inductive access_case (item : Z) (s s' : t) : outcome bool -> Prop :=
| case_hit f :
    Dict.get item (cache s) = Some f ->
    cache s' = Dict.set item (f + 1) (cache s) ->
    base s' = counted true (base s) ->
    access_case item s s' (Ret true)
| case_room :
    Dict.mem item (cache s) = false ->
    Dict.len (cache s) < CachePolicy.capacity (base s) ->
    cache s' = Dict.set item 1 (cache s) ->
    base s' = counted false (base s) ->
    access_case item s s' (Ret false)
| case_evict victim rest :
    Dict.mem item (cache s) = false ->
    CachePolicy.capacity (base s) <= Dict.len (cache s) ->
    items_at (min_freq s) (freq_to_items s) = victim :: rest ->
    Dict.get victim (cache s) = Some (min_freq s) ->
    cache s' = Dict.set item 1 (Dict.remove victim (cache s)) ->
    base s' = counted false (base s) ->
    access_case item s s' (Ret false).

Lemma lfu_access_spec cap item s :
  0 < cap -> Inv cap s ->
  exists o s',
    access item s = (o, s') /\ access_case item s s' o /\ Inv cap s'.
Proof.
  intros Hcap Hinv. destruct (Dict.get item (cache s)) as [f |] eqn:Hget.
  - (* hit *)
    assert (Hin : OD.mem item (items_at f (freq_to_items s)) = true)
      by now apply (good_linked _ _ _ _ _ Hinv).
    destruct (lfu_access_hit item f s Hget Hin) as (s' & E & Hview).
    exists (Ret true), s'. split; [exact E |]. split.
    + apply (case_hit _ _ _ f); [exact Hget | apply Hview | apply Hview].
    + eapply lfu_view_good; [exact Hview |].
      now apply (lfu_hit_good cap (base s) (cache s)
                   (fun g => items_at g (freq_to_items s)) (min_freq s)).
  - assert (Hout : Dict.mem item (cache s) = false)
      by (unfold Dict.mem; now rewrite Hget).
    pose proof (good_capacity _ _ _ _ _ Hinv) as Hc.
    destruct (Z.lt_ge_cases (Dict.len (cache s)) (CachePolicy.capacity (base s)))
      as [Hroom | Hfull].
    + (* miss, with room *)
      destruct (lfu_access_miss_room item s Hout Hroom) as (s' & E & Hview).
      exists (Ret false), s'. split; [exact E |]. split.
      * apply case_room; try assumption; apply Hview.
      * eapply lfu_view_good; [exact Hview |].
        apply (lfu_insert_good cap (counted false (base s)) (cache s)
                 (fun g => items_at g (freq_to_items s)));
          try assumption; try lia;
          [apply (good_linked _ _ _ _ _ Hinv)
          | apply (good_positive _ _ _ _ _ Hinv)].
    + (* miss, on a full cache *)
      destruct (lfu_good_victim _ _ _ _ _ Hinv) as (victim & rest & Hhead & Hv);
        [lia |].
      assert (Hmem : Dict.mem victim (cache s) = true)
        by (apply DictFacts.dict_mem_get; eauto).
      destruct (lfu_access_miss_full item s victim rest Hout Hfull Hhead Hmem)
        as (s' & E & Hview).
      exists (Ret false), s'. split; [exact E |]. split.
      * apply (case_evict _ _ _ victim rest); try assumption; apply Hview.
      * eapply lfu_view_good; [exact Hview |].
        assert (Hinb : OD.mem victim
                  (items_at (min_freq s) (freq_to_items s)) = true)
          by (rewrite Hhead, ODFacts.od_mem_cons, Z.eqb_refl; reflexivity).
        destruct (lfu_evict_good _ _ _ _ _ victim Hinv Hinb)
          as (Hlen & Hlinked & Hpos).
        rewrite Hhead in Hlinked.
        apply (lfu_insert_good cap (counted false (base s))
                 (Dict.remove victim (cache s))
                 (fun g => if g =? min_freq s
                           then OD.remove victim (victim :: rest)
                           else items_at g (freq_to_items s))).
        -- exact Hc.
        -- exact Hlen.
        -- exact Hlinked.
        -- exact Hpos.
        -- rewrite DictFacts.dict_mem_remove, Hout. apply andb_false_r.
Qed.

Lemma lfu_access_inv cap item s :
  0 < cap -> Inv cap s -> Inv cap (snd (access item s)).
Proof.
  intros Hcap Hinv.
  destruct (lfu_access_spec cap item s Hcap Hinv) as (o & s' & -> & _ & H).
  exact H.
Qed.

Lemma lfu_access_result cap item s :
  0 < cap -> Inv cap s ->
  fst (access item s) = Ret (Dict.mem item (cache s)).
Proof.
  intros Hcap Hinv.
  destruct (lfu_access_spec cap item s Hcap Hinv) as (o & s' & -> & Hcase & _).
  simpl. destruct Hcase as [f Hf _ _ | Hout _ _ _ | v r Hout _ _ _ _ _].
  - unfold Dict.mem. now rewrite Hf.
  - now rewrite Hout.
  - now rewrite Hout.
Qed.

Lemma lfu_access_base cap item s :
  0 < cap -> Inv cap s ->
  base (snd (access item s)) = counted (Dict.mem item (cache s)) (base s).
Proof.
  intros Hcap Hinv.
  destruct (lfu_access_spec cap item s Hcap Hinv) as (o & s' & -> & Hcase & _).
  simpl. destruct Hcase as [f Hf _ Hb | Hout _ _ Hb | v r Hout _ _ _ _ Hb].
  - unfold Dict.mem. now rewrite Hf.
  - now rewrite Hout.
  - now rewrite Hout.
Qed.

(** A hit keeps the resident set. *)
Lemma lfu_access_hit_resident cap item s x :
  0 < cap -> Inv cap s -> Dict.mem item (cache s) = true ->
  Dict.mem x (cache (snd (access item s))) = Dict.mem x (cache s).
Proof.
  intros Hcap Hinv Hin.
  destruct (lfu_access_spec cap item s Hcap Hinv) as (o & s' & -> & Hcase & _).
  simpl. destruct Hcase as [f Hf Hc _ | Hout _ _ _ | v r Hout _ _ _ _ _];
    try congruence.
  rewrite Hc, DictFacts.dict_mem_set.
  destruct (Z.eqb_spec x item) as [-> | _]; [now rewrite Hin | reflexivity].
Qed.

(** A miss makes the item resident. *)
Lemma lfu_access_miss_resident cap item s :
  0 < cap -> Inv cap s -> Dict.mem item (cache s) = false ->
  Dict.mem item (cache (snd (access item s))) = true.
Proof.
  intros Hcap Hinv Hout.
  destruct (lfu_access_spec cap item s Hcap Hinv) as (o & s' & -> & Hcase & _).
  simpl. destruct Hcase as [f Hf _ _ | _ _ Hc _ | v r _ _ _ _ Hc _].
  - unfold Dict.mem in Hout. now rewrite Hf in Hout.
  - now rewrite Hc, DictFacts.dict_mem_set, Z.eqb_refl.
  - now rewrite Hc, DictFacts.dict_mem_set, Z.eqb_refl.
Qed.

End LFUFacts.

(** ** ARC *)

(** Records that every list length in sight is non-negative. *)
Ltac lens :=
  repeat match goal with
  | |- context [OD.len ?l] =>
      lazymatch goal with
      | _ : 0 <= OD.len l |- _ => fail
      | _ => pose proof (ODFacts.od_len_nonneg l)
      end
  | _ : context [OD.len ?l] |- _ =>
      lazymatch goal with
      | _ : 0 <= OD.len l |- _ => fail
      | _ => pose proof (ODFacts.od_len_nonneg l)
      end
  end.

Module ARCFacts.
Import ARCCache.

(** The fields that the moves between lists leave alone. *)
Definition same_frame (s s' : t) : Prop :=
  base s' = base s /\ c s' = c s /\ p s' = p s.

(** The least recent entry of T1 has gone to B1. *)
Definition moved1 (s s' : t) : Prop :=
  same_frame s s' /\ t2 s' = t2 s /\ b2 s' = b2 s /\
  OD.len (t1 s') = OD.len (t1 s) - 1 /\
  OD.len (b1 s') <= OD.len (b1 s) + 1 /\
  OD.len (b1 s') <= Z.max (OD.len (b1 s)) (c s) /\
  (OD.len (b1 s) + 1 <= c s ->
   forall x, OD.mem x (b1 s) = true -> OD.mem x (b1 s') = true).

(** The least recent entry of T2 has gone to B2. *)
Definition moved2 (s s' : t) : Prop :=
  same_frame s s' /\ t1 s' = t1 s /\ b1 s' = b1 s /\
  OD.len (t2 s') = OD.len (t2 s) - 1 /\
  OD.len (b2 s') <= OD.len (b2 s) + 1 /\
  OD.len (b2 s') <= Z.max (OD.len (b2 s)) (c s) /\
  (OD.len (b2 s) + 1 <= c s ->
   forall x, OD.mem x (b2 s) = true -> OD.mem x (b2 s') = true).

(** A ghost list after [b[old] = True] and the cut to [c] entries. *)
Lemma arc_capped old (b : OD.t) (cap : Z) :
  let b' := snd (OD.setitem old b) in
  exists b'',
    (if OD.len b' >? cap then fst (OD.popitem_first b') = Ret (hd 0 b') /\
                               b'' = snd (OD.popitem_first b')
     else b'' = b') /\
    OD.len b'' <= OD.len b + 1 /\ OD.len b'' <= Z.max (OD.len b) cap /\
    (OD.len b + 1 <= cap ->
     forall x, OD.mem x b = true -> OD.mem x b'' = true).
Proof.
  intros b'. pose proof (ODFacts.od_setitem_len old b) as L. fold b' in L.
  assert (Hkeep : forall x, OD.mem x b = true -> OD.mem x b' = true).
  { intros x Hx. unfold b'. rewrite ODFacts.od_setitem_mem, Hx.
    apply orb_true_r. }
  assert (Hne : b' <> []).
  { intros E. assert (Hm : OD.mem old b' = true).
    { unfold b'. now rewrite ODFacts.od_setitem_mem, Z.eqb_refl. }
    rewrite E in Hm. discriminate. }
  destruct (Z.gtb_spec (OD.len b') cap) as [Hover | Hok].
  - destruct b' as [| x r] eqn:E; [contradiction |].
    exists r. simpl. rewrite ODFacts.od_len_cons in L, Hover.
    split; [now split |]. lens.
    split; [| split]; destruct (OD.mem old b); lia.
  - exists b'. split; [reflexivity |].
    split; [| split]; try (destruct (OD.mem old b); lia).
    intros _. exact Hkeep.
Qed.

Lemma arc_t1_to_b1_spec s :
  OD.nonempty (t1 s) = true ->
  exists s', t1_to_b1 s = (Ret tt, s') /\ moved1 s s'.
Proof.
  intros Hne. destruct (t1 s) as [| old r] eqn:E1; [discriminate |].
  destruct (arc_capped old (b1 s) (c s)) as (b'' & Hcut & Hl1 & Hl2 & Hk).
  exists (set_b1 b'' (set_t1 r s)). split.
  - unfold t1_to_b1, in_t1, in_b1. py_unfold. rewrite E1. simpl.
    destruct (OD.len _ >? c s) eqn:Hover.
    + destruct Hcut as [Hpop ->]. simpl in *.
      destruct (OD.popitem_first _) as [o b3]. simpl in *. subst o.
      reflexivity.
    + subst b''. reflexivity.
  - unfold moved1, same_frame. simpl. rewrite E1, ODFacts.od_len_cons.
    repeat split; try assumption; try lia.
Qed.

Lemma arc_t2_to_b2_spec s :
  OD.nonempty (t2 s) = true ->
  exists s', t2_to_b2 s = (Ret tt, s') /\ moved2 s s'.
Proof.
  intros Hne. destruct (t2 s) as [| old r] eqn:E2; [discriminate |].
  destruct (arc_capped old (b2 s) (c s)) as (b'' & Hcut & Hl1 & Hl2 & Hk).
  exists (set_b2 b'' (set_t2 r s)). split.
  - unfold t2_to_b2, in_t2, in_b2. py_unfold. rewrite E2. simpl.
    destruct (OD.len _ >? c s) eqn:Hover.
    + destruct Hcut as [Hpop ->]. simpl in *.
      destruct (OD.popitem_first _) as [o b3]. simpl in *. subst o.
      reflexivity.
    + subst b''. reflexivity.
  - unfold moved2, same_frame. simpl. rewrite E2, ODFacts.od_len_cons.
    repeat split; try assumption; try lia.
Qed.

(** The test of [_replace]: T1 gives way. *)
Definition from_t1 (item_in_b2 : bool) (s : t) : bool :=
  OD.nonempty (t1 s)
  && ((item_in_b2 && (OD.len (t1 s) =? p s)) || (OD.len (t1 s) >? p s)).

Lemma arc_from_t1_false item_in_b2 s :
  from_t1 item_in_b2 s = false ->
  OD.len (t1 s) = 0 \/
  (if item_in_b2 then OD.len (t1 s) < p s else OD.len (t1 s) <= p s).
Proof.
  unfold from_t1. intros H. apply andb_false_iff in H.
  destruct H as [Hne | H].
  - left. apply ODFacts.od_nonempty_false in Hne. now rewrite Hne.
  - right. apply orb_false_iff in H. destruct H as [H1 H2].
    destruct (Z.gtb_spec (OD.len (t1 s)) (p s)); [discriminate |].
    destruct item_in_b2; [| lia]. simpl in H1.
    destruct (Z.eqb_spec (OD.len (t1 s)) (p s)); [discriminate | lia].
Qed.

(** [_replace] returns, and either moves one entry out of T1 or of T2
    or changes nothing. *)
Lemma arc_replace_spec item_in_b2 s :
  exists s',
    _replace item_in_b2 s = (Ret tt, s') /\
    ((from_t1 item_in_b2 s = true /\ moved1 s s') \/
     (from_t1 item_in_b2 s = false /\ 0 < OD.len (t2 s) /\ moved2 s s') \/
     (from_t1 item_in_b2 s = false /\ OD.len (t2 s) = 0 /\ s' = s)).
Proof.
  unfold _replace. unfold bind at 1, gets at 1. fold (from_t1 item_in_b2 s).
  destruct (from_t1 item_in_b2 s) eqn:Hfrom.
  - assert (Hne : OD.nonempty (t1 s) = true).
    { unfold from_t1 in Hfrom. now apply andb_prop in Hfrom. }
    destruct (arc_t1_to_b1_spec s Hne) as (s' & E & Hmv).
    exists s'. split; [exact E |]. left. now split.
  - unfold bind at 1, gets at 1. destruct (OD.nonempty (t2 s)) eqn:Hne2.
    + destruct (arc_t2_to_b2_spec s Hne2) as (s' & E & Hmv).
      exists s'. split; [exact E |]. right. left.
      apply ODFacts.od_nonempty_len in Hne2.
      split; [reflexivity | split; assumption].
    + exists s. split; [reflexivity |]. right. right.
      apply ODFacts.od_nonempty_false in Hne2. rewrite Hne2.
      split; [reflexivity | split; reflexivity].
Qed.

(** The ghost-hit cases of [access] after the adaptation of [p]:
    case 2 with [item_in_b2 = false], case 3 with [item_in_b2 = true]. *)
Definition ghost_hit (item : Z) (item_in_b2 : bool) : Py t bool :=
  _replace item_in_b2 ;;
  (if item_in_b2 then in_b2 (OD.delitem item)
   else in_b1 (OD.delitem item)) ;;
  in_t2 (OD.setitem item) ;;
  ret false.

(** The state a call starts from once the counters are updated. *)
Definition counted_state (hit : bool) (s : t) : t :=
  set_base (counted hit (base s)) s.

Definition delta1 (s : t) : Z :=
  Z.max 1 (OD.len (b2 s) / Z.max 1 (OD.len (b1 s))).
Definition delta2 (s : t) : Z :=
  Z.max 1 (OD.len (b1 s) / Z.max 1 (OD.len (b2 s))).

(** The five cases of [access], in the order the source tests them. *)
Lemma arc_access_cases item s :
  access item s =
  if OD.mem item (t1 s) then
    (Ret true,
     set_t2 (snd (OD.setitem item (t2 s)))
            (set_t1 (OD.remove item (t1 s)) (counted_state true s)))
  else if OD.mem item (t2 s) then
    (Ret true,
     set_t2 (OD.remove item (t2 s) ++ [item]) (counted_state true s))
  else if OD.mem item (b1 s) then
    ghost_hit item false
      (set_p (Z.min (c s) (p s + delta1 s)) (counted_state false s))
  else if OD.mem item (b2 s) then
    ghost_hit item true
      (set_p (Z.max 0 (p s - delta2 s)) (counted_state false s))
  else complete_miss item (counted_state false s).
Proof.
  unfold access, on_base, in_t1, in_t2, OD.delitem, OD.move_to_end.
  py_unfold. simpl.
  destruct (OD.mem item (t1 s)) eqn:H1;
    simpl; rewrite ?H1; simpl; rewrite ?H1; [reflexivity |].
  destruct (OD.mem item (t2 s)) eqn:H2;
    simpl; rewrite ?H2; simpl; rewrite ?H2; [reflexivity |].
  destruct (OD.mem item (b1 s)) eqn:H3;
    simpl; rewrite ?H3; simpl; rewrite ?H3; [reflexivity |].
  destruct (OD.mem item (b2 s)) eqn:H4;
    simpl; rewrite ?H4; simpl; rewrite ?H4; reflexivity.
Qed.

Definition Inv (cap : Z) (s : t) : Prop :=
  CachePolicy.capacity (base s) = cap /\ c s = cap /\
  0 <= p s <= cap /\
  OD.len (t1 s) + OD.len (t2 s) <= cap /\
  OD.len (t1 s) + OD.len (b1 s) <= cap /\
  OD.len (b2 s) <= cap.

Lemma arc_inv_init cap : 0 < cap -> Inv cap (__init__ cap).
Proof.
  intros H. unfold Inv, __init__, OD.len, OD.empty. simpl. lia.
Qed.

Lemma arc_ghost_hit_spec cap item item_in_b2 s :
  0 < cap -> Inv cap s ->
  (item_in_b2 = false -> OD.mem item (b1 s) = true) ->
  let o := fst (ghost_hit item item_in_b2 s) in
  let s' := snd (ghost_hit item item_in_b2 s) in
  Inv cap s' /\
  same_frame s s' /\
  ((o = Ret false /\ OD.mem item (t2 s') = true) \/
   (item_in_b2 = true /\ o = Raise KeyError)).
Proof.
  intros Hcap (Hb & Hc & Hp & Hres & Hl1 & Hb2) Hghost.
  assert (Hm1 : item_in_b2 = false -> 0 < OD.len (b1 s)).
  { intros E. now apply (ODFacts.od_mem_len item), Hghost. }
  unfold ghost_hit.
  destruct (arc_replace_spec item_in_b2 s) as (s1 & E & Hrep).
  rewrite (bind_ret_step _ _ _ _ _ E).
  (* the sizes after [_replace], and the ghost entry of a hit in B1 *)
  assert (H1 : same_frame s s1 /\
               OD.len (t1 s1) + OD.len (t2 s1) <= cap - 1 /\
               OD.len (t1 s1) + OD.len (b1 s1) <= cap /\
               OD.len (b2 s1) <= cap /\
               (item_in_b2 = false -> OD.mem item (b1 s1) = true)).
  { destruct Hrep as [[Hfrom Hmv] | [(Hfrom & Hpos & Hmv) | (Hfrom & Hz & ->)]].
    - destruct Hmv as (Hfr & Ht2 & Hb2' & Hn1 & Hm1a & Hm1b & Hkeep).
      rewrite Ht2, Hb2'. lens. split; [exact Hfr |].
      repeat split; try lia.
      intros Eb. apply Hkeep; [lia | now apply Hghost].
    - destruct Hmv as (Hfr & Ht1 & Hb1' & Hn2 & Hm2a & Hm2b & _).
      rewrite Ht1, Hb1'. lens. split; [exact Hfr |].
      repeat split; try lia. exact Hghost.
    - split; [repeat split |].
      apply arc_from_t1_false in Hfrom. lens.
      repeat split; try exact Hghost;
        (destruct item_in_b2; [lia |]; specialize (Hm1 eq_refl); lia). }
  destruct H1 as ((Hfb & Hfc & Hfp) & Hres1 & Hl11 & Hb21 & Hstill).
  (* the deletion from the ghost list, and the insertion into T2 *)
  pose proof (ODFacts.od_setitem_len item (t2 s1)) as Ls.
  pose proof (ODFacts.od_setitem_mem item item (t2 s1)) as Ms.
  unfold OD.setitem, modify in Ls, Ms. simpl in Ls, Ms.
  rewrite Z.eqb_refl in Ms.
  destruct item_in_b2.
  - unfold in_b2, in_t2, OD.delitem. py_unfold.
    destruct (OD.mem item (b2 s1)) eqn:Hin; simpl.
    + pose proof (ODFacts.od_len_remove_le item (b2 s1)).
      unfold Inv, same_frame. simpl. rewrite Hfb, Hfc, Hfp, Ls.
      split; [| split; [auto | left; split; [reflexivity | exact Ms]]].
      destruct (OD.mem item (t2 s1)); lia.
    + unfold Inv, same_frame. simpl. rewrite Hfb, Hfc, Hfp.
      split; [| split; [auto | right; split; reflexivity]]. lia.
  - unfold in_b1, in_t2, OD.delitem. py_unfold.
    rewrite (Hstill eq_refl). simpl.
    pose proof (ODFacts.od_len_remove_le item (b1 s1)).
    unfold Inv, same_frame. simpl. rewrite Hfb, Hfc, Hfp, Ls.
    split; [| split; [auto | left; split; [reflexivity | exact Ms]]].
    destruct (OD.mem item (t2 s1)); lia.
Qed.

(** The first block of a complete miss leaves room in L1 = T1 + B1. *)
Lemma arc_trim_spec cap s :
  0 < cap -> Inv cap s ->
  exists s',
    trim (OD.len (t1 s) + OD.len (b1 s)) (OD.len (t2 s) + OD.len (b2 s)) s
    = (Ret tt, s') /\
    same_frame s s' /\
    OD.len (t1 s') + OD.len (t2 s') <= cap /\
    OD.len (t1 s') + OD.len (b1 s') <= cap - 1 /\
    OD.len (b2 s') <= cap.
Proof.
  intros Hcap (Hb & Hc & Hp & Hres & Hl1 & Hb2).
  unfold trim. unfold bind at 1, gets at 1. rewrite Hc.
  destruct (Z.eqb_spec (OD.len (t1 s) + OD.len (b1 s)) cap) as [Hfull | Hnot].
  - unfold bind at 1, gets at 1. rewrite Hc.
    destruct (Z.ltb_spec (OD.len (t1 s)) cap) as [Hroom | Hnoroom].
    + (* B1 gives its least recent entry, then [_replace] *)
      destruct (b1 s) as [| g rest] eqn:E1.
      { rewrite ODFacts.od_len_nil in Hfull. lia. }
      rewrite ODFacts.od_len_cons in Hfull, Hl1.
      set (s1 := set_b1 rest s).
      assert (Epop : in_b1 OD.popitem_first s = (Ret g, s1)).
      { unfold in_b1. rewrite zoom_run, E1. reflexivity. }
      rewrite (bind_ret_step _ _ _ _ _ Epop).
      destruct (arc_replace_spec false s1) as (s2 & E & Hrep).
      exists s2. split; [exact E |].
      destruct Hrep as [[_ Hmv] | [(_ & _ & Hmv) | (_ & _ & ->)]].
      * destruct Hmv as (Hfr & Ht2 & Hb2' & Hn1 & Hm1a & _ & _).
        rewrite Ht2, Hb2'. simpl in *. lens. split; [exact Hfr | lia].
      * destruct Hmv as (Hfr & Ht1 & Hb1' & Hn2 & _ & Hm2b & _).
        rewrite Ht1, Hb1'. simpl in *. lens. split; [exact Hfr | lia].
      * simpl. lens. split; [repeat split | lia].
    + (* T1 fills the cache: its least recent entry is dropped *)
      destruct (t1 s) as [| g rest] eqn:E1.
      { rewrite ODFacts.od_len_nil in Hnoroom. lia. }
      rewrite ODFacts.od_len_cons in Hfull, Hl1, Hres, Hnoroom.
      exists (set_t1 rest s). split.
      { unfold in_t1. py_unfold. rewrite E1. reflexivity. }
      simpl. lens. split; [repeat split | lia].
  - destruct ((OD.len (t1 s) + OD.len (b1 s) <? cap)
              && (OD.len (t1 s) + OD.len (b1 s)
                  + (OD.len (t2 s) + OD.len (b2 s)) >=? cap)) eqn:Hmid.
    + (* the ghost history is cut, then [_replace] *)
      assert (Hcut : exists s1,
        when (OD.len (t1 s) + OD.len (b1 s)
              + (OD.len (t2 s) + OD.len (b2 s)) >=? 2 * cap)
          (some_b2 <- gets (fun s => OD.nonempty (b2 s)) ;;
           when some_b2 (in_b2 OD.popitem_first ;; ret tt)) s = (Ret tt, s1) /\
        same_frame s s1 /\ t1 s1 = t1 s /\ t2 s1 = t2 s /\ b1 s1 = b1 s /\
        OD.len (b2 s1) <= OD.len (b2 s)).
      { destruct (_ >=? 2 * cap); simpl.
        - unfold bind, gets. destruct (b2 s) as [| g rest] eqn:E2; simpl.
          + exists s. rewrite E2. repeat split; lia.
          + exists (set_b2 rest s). unfold in_b2. py_unfold. rewrite E2.
            simpl. rewrite ODFacts.od_len_cons. lens. repeat split; lia.
        - exists s. repeat split; lia. }
      destruct Hcut as (s1 & E1 & (Hfb & Hfc & Hfp) & Et1 & Et2 & Eb1 & Hle).
      rewrite (bind_ret_step _ _ _ _ _ E1).
      destruct (arc_replace_spec false s1) as (s2 & E & Hrep).
      exists s2. split; [exact E |].
      assert (Hfr1 : same_frame s s1) by (repeat split; assumption).
      destruct Hrep as [[_ Hmv] | [(_ & _ & Hmv) | (_ & _ & ->)]].
      * destruct Hmv as ((Hgb & Hgc & Hgp) & Ht2 & Hb2' & Hn1 & Hm1a & _ & _).
        rewrite Ht2, Hb2', Et2. rewrite Et1 in Hn1. rewrite Eb1 in Hm1a.
        lens. split; [repeat split; congruence | lia].
      * destruct Hmv as ((Hgb & Hgc & Hgp) & Ht1 & Hb1' & Hn2 & _ & Hm2b & _).
        rewrite Ht1, Hb1', Et1, Eb1. rewrite Et2 in Hn2. rewrite Hfc, Hc in Hm2b.
        lens. split; [repeat split; congruence | lia].
      * rewrite Et1, Et2, Eb1. lens. split; [exact Hfr1 | lia].
    + exists s. split; [reflexivity |]. lens. split; [repeat split | lia].
Qed.

(** The second block of a complete miss frees a resident slot. *)
Lemma arc_make_room_spec cap s :
  0 < cap -> c s = cap ->
  OD.len (t1 s) + OD.len (t2 s) <= cap ->
  OD.len (t1 s) + OD.len (b1 s) <= cap - 1 ->
  OD.len (b2 s) <= cap ->
  exists s',
    make_room s = (Ret tt, s') /\
    same_frame s s' /\
    OD.len (t1 s') + OD.len (t2 s') <= cap - 1 /\
    OD.len (t1 s') + OD.len (b1 s') <= cap - 1 /\
    OD.len (b2 s') <= cap.
Proof.
  intros Hcap Hc Hres Hl1 Hb2.
  unfold make_room. unfold bind at 1, gets at 1. rewrite Hc.
  destruct (Z.geb_spec (OD.len (t1 s) + OD.len (t2 s)) cap) as [Hfull | Hok];
    simpl.
  - unfold bind at 1, gets at 1. destruct (OD.nonempty (t1 s)) eqn:Hne1.
    + destruct (arc_t1_to_b1_spec s Hne1)
        as (s' & E & Hfr & Ht2 & Hb2' & Hn1 & Hm1a & _ & _).
      exists s'. split; [exact E |]. rewrite Ht2, Hb2'. lens.
      split; [exact Hfr | lia].
    + unfold bind at 1, gets at 1. destruct (OD.nonempty (t2 s)) eqn:Hne2.
      * destruct (arc_t2_to_b2_spec s Hne2)
          as (s' & E & Hfr & Ht1 & Hb1' & Hn2 & _ & Hm2b & _).
        exists s'. split; [exact E |]. rewrite Ht1, Hb1'. lens.
        split; [exact Hfr | lia].
      * apply ODFacts.od_nonempty_false in Hne1, Hne2.
        rewrite Hne1, Hne2, ODFacts.od_len_nil in Hfull. lia.
  - exists s. split; [reflexivity |]. split; [repeat split | lia].
Qed.

Lemma arc_complete_miss_spec cap item s :
  0 < cap -> Inv cap s ->
  exists s',
    complete_miss item s = (Ret false, s') /\
    same_frame s s' /\ Inv cap s' /\ OD.mem item (t1 s') = true.
Proof.
  intros Hcap Hinv. pose proof Hinv as (Hb & Hc & Hp & _).
  unfold complete_miss. unfold bind at 1, gets at 1.
  unfold bind at 1, gets at 1.
  destruct (arc_trim_spec cap s Hcap Hinv)
    as (s1 & E1 & (Hb1 & Hc1 & Hp1) & Hres1 & Hl11 & Hb21).
  rewrite (bind_ret_step _ _ _ _ _ E1).
  destruct (arc_make_room_spec cap s1 Hcap (eq_trans Hc1 Hc) Hres1 Hl11 Hb21)
    as (s2 & E2 & (Hb2 & Hc2 & Hp2) & Hres2 & Hl12 & Hb22).
  rewrite (bind_ret_step _ _ _ _ _ E2).
  unfold in_t1. py_unfold.
  pose proof (ODFacts.od_setitem_len item (t1 s2)) as L.
  pose proof (ODFacts.od_setitem_mem item item (t1 s2)) as M.
  destruct (OD.setitem item (t1 s2)) as [o t1'] eqn:Es. simpl in L, M.
  unfold OD.setitem, modify in Es. injection Es as <- <-.
  eexists. split; [reflexivity |]. unfold Inv, same_frame. simpl.
  rewrite Z.eqb_refl in M.
  split; [repeat split; congruence |]. split; [| exact M].
  rewrite Hb2, Hb1, Hc2, Hc1, Hp2, Hp1.
  destruct (OD.mem item (t1 s2)); lia.
Qed.

Definition resident (x : Z) (s : t) : bool :=
  OD.mem x (t1 s) || OD.mem x (t2 s).

(** The adaptation target after a call. *)
Definition adapted (item : Z) (s : t) : Z :=
  if resident item s then p s
  else if OD.mem item (b1 s) then Z.min (c s) (p s + delta1 s)
  else if OD.mem item (b2 s) then Z.max 0 (p s - delta2 s)
  else p s.

Lemma arc_delta1_pos s : 1 <= delta1 s.
Proof. unfold delta1. lia. Qed.

Lemma arc_delta2_pos s : 1 <= delta2 s.
Proof. unfold delta2. lia. Qed.

(** What a call does to a state of the invariant.  A call on an item
    that is not resident returns [False] and makes it resident, but for a
    ghost hit in B2, which may raise [KeyError]. *)
Lemma arc_access_spec cap item s :
  0 < cap -> Inv cap s ->
  let o := fst (access item s) in
  let s' := snd (access item s) in
  Inv cap s' /\
  base s' = counted (resident item s) (base s) /\
  p s' = adapted item s /\
  (o = Ret true <-> resident item s = true) /\
  (resident item s = false ->
   (o = Ret false /\ resident item s' = true) \/
   (OD.mem item (b2 s) = true /\ o = Raise KeyError)).
Proof.
  intros Hcap Hinv. pose proof Hinv as (Hb & Hc & Hp & Hres & Hl1 & Hb2).
  cbv zeta. rewrite arc_access_cases. unfold adapted, resident.
  destruct (OD.mem item (t1 s)) eqn:H1; [| destruct (OD.mem item (t2 s)) eqn:H2].
  - (* hit in T1 *)
    simpl.
    split; [| split; [reflexivity | split; [reflexivity |
             split; [now split | discriminate]]]].
    unfold Inv. simpl.
    pose proof (ODFacts.od_len_remove item (t1 s) H1).
    pose proof (ODFacts.od_setitem_len item (t2 s)) as L.
    unfold OD.setitem, modify in L. simpl in L. rewrite L.
    destruct (OD.mem item (t2 s)); lia.
  - (* hit in T2 *)
    simpl.
    split; [| split; [reflexivity | split; [reflexivity |
             split; [now split | discriminate]]]].
    unfold Inv. simpl.
    pose proof (ODFacts.od_move_to_end_mem item item (t2 s) H2) as (_ & _ & L).
    lia.
  - simpl orb. cbv iota.
    destruct (OD.mem item (b1 s)) eqn:H3; [| destruct (OD.mem item (b2 s)) eqn:H4].
    + (* ghost hit in B1 *)
      set (s0 := set_p _ _).
      assert (Hinv0 : Inv cap s0).
      { unfold Inv, s0. simpl. pose proof (arc_delta1_pos s). lia. }
      destruct (arc_ghost_hit_spec cap item false s0 Hcap Hinv0 (fun _ => H3))
        as (Hi & (Hfb & Hfc & Hfp) & Hr).
      split; [exact Hi |]. split; [exact Hfb |]. split; [exact Hfp |].
      destruct Hr as [[Ho Hin] | [[=] _]]. rewrite Ho, Hin.
      split; [split; discriminate |].
      intros _. left. split; [reflexivity | apply orb_true_r].
    + (* ghost hit in B2 *)
      set (s0 := set_p _ _).
      assert (Hinv0 : Inv cap s0).
      { unfold Inv, s0. simpl. pose proof (arc_delta2_pos s). lia. }
      assert (Hno : true = false -> OD.mem item (b1 s0) = true)
        by discriminate.
      destruct (arc_ghost_hit_spec cap item true s0 Hcap Hinv0 Hno)
        as (Hi & (Hfb & Hfc & Hfp) & Hr).
      split; [exact Hi |]. split; [exact Hfb |]. split; [exact Hfp |].
      destruct Hr as [[Ho Hin] | [_ Ho]]; rewrite Ho.
      * rewrite Hin. split; [split; discriminate |].
        intros _. left. split; [reflexivity | apply orb_true_r].
      * split; [split; discriminate |].
        intros _. right. now split.
    + (* complete miss *)
      assert (Hinv0 : Inv cap (counted_state false s)) by exact Hinv.
      destruct (arc_complete_miss_spec cap item _ Hcap Hinv0)
        as (s' & -> & (Hfb & Hfc & Hfp) & Hi & Hin).
      simpl. split; [exact Hi |]. split; [exact Hfb |]. split; [exact Hfp |].
      split; [split; discriminate |].
      intros _. left. now rewrite Hin.
Qed.

Lemma arc_access_inv cap item s :
  0 < cap -> Inv cap s -> Inv cap (snd (access item s)).
Proof. intros Hcap Hinv. apply (arc_access_spec cap item s Hcap Hinv). Qed.

(** A hit keeps the resident set, the ghost lists and [p]. *)
Lemma arc_access_hit_frame item s :
  resident item s = true ->
  (forall x, resident x (snd (access item s)) = resident x s) /\
  b1 (snd (access item s)) = b1 s /\
  b2 (snd (access item s)) = b2 s /\
  p (snd (access item s)) = p s /\
  c (snd (access item s)) = c s /\
  base (snd (access item s)) = counted true (base s) /\
  fst (access item s) = Ret true.
Proof.
  unfold resident. intros Hres. rewrite arc_access_cases.
  destruct (OD.mem item (t1 s)) eqn:H1.
  - simpl. split; [intros x | repeat split].
    pose proof (ODFacts.od_setitem_mem x item (t2 s)) as M.
    unfold OD.setitem, modify in M. simpl in M.
    rewrite M, ODFacts.od_mem_remove.
    destruct (x =? item) eqn:E; simpl; [| reflexivity].
    apply Z.eqb_eq in E. subst x. now rewrite H1.
  - simpl in Hres. rewrite Hres. simpl. split; [intros x | repeat split].
    destruct (ODFacts.od_move_to_end_mem x item (t2 s) Hres) as (_ & M & _).
    now rewrite M.
Qed.

End ARCFacts.

(** ** All four policies *)

Section AllPolicies.
Variable k : policy.
Variable capacity : Z.
Hypothesis capacity_pos : 0 < capacity.

(** The invariant of the objects of class [k] made with [capacity]. *)
Definition Inv : state k -> Prop :=
  match k return state k -> Prop with
  | LRU => LRUFacts.Inv capacity
  | LFU => LFUFacts.Inv capacity
  | ARC => ARCFacts.Inv capacity
  | TDC d =>
      fun s =>
        TDCFacts.Inv capacity s /\
        TimeDecayedCache.decay_rate s =
        TimeDecayedCache.decay_rate (TimeDecayedCache.__init__ capacity d)
  end.

Lemma inv_new : Inv (new k capacity).
Proof using capacity_pos.
  unfold Inv. destruct k; simpl.
  - now apply LRUFacts.lru_inv_init.
  - now apply LFUFacts.lfu_inv_init.
  - now apply ARCFacts.arc_inv_init.
  - split; [now apply TDCFacts.tdc_inv_init | reflexivity].
Qed.

Lemma inv_access item (s : state k) : Inv s -> Inv (snd (access item s)).
Proof using capacity_pos.
  unfold Inv. destruct k; simpl.
  - now apply LRUFacts.lru_access_inv.
  - now apply LFUFacts.lfu_access_inv.
  - now apply ARCFacts.arc_access_inv.
  - intros [H Hd]. split; [now apply TDCFacts.tdc_access_inv |].
    now rewrite (TDCFacts.tdc_access_decay_rate capacity).
Qed.

Lemma inv_final trace : Inv (final trace (new k capacity)).
Proof using capacity_pos.
  apply final_invariant; [apply inv_access | apply inv_new].
Qed.

Lemma inv_size (s : state k) : Inv s -> size s <= capacity.
Proof.
  unfold Inv. destruct k; simpl.
  - now intros [_ H].
  - intros H. apply (LFUFacts.good_size _ _ _ _ _ H).
  - now intros (_ & _ & _ & H & _).
  - now intros [(_ & H & _) _].
Qed.

Lemma inv_history (s : state k) :
  Inv s -> Forall (fun g => OD.len g <= capacity) (history k s).
Proof.
  unfold Inv. destruct k; simpl; intros H;
    [constructor | constructor | | constructor].
  destruct H as (_ & _ & _ & _ & H1 & H2). lens.
  repeat constructor; lia.
Qed.

(** A call counts as a hit exactly when the item is resident. *)
Lemma access_counted item (s : state k) :
  Inv s -> base (snd (access item s)) = counted (resident item s) (base s).
Proof using capacity_pos.
  unfold Inv. destruct k; simpl.
  - intros _. apply LRUFacts.lru_access_base.
  - now apply LFUFacts.lfu_access_base.
  - intros H. now apply (ARCFacts.arc_access_spec capacity item s capacity_pos H).
  - intros [H _]. now apply (TDCFacts.tdc_access_base capacity).
Qed.

(** A call returns [True] exactly when the item is resident. *)
Lemma hit_iff_resident item (s : state k) :
  Inv s -> fst (access item s) = Ret true <-> resident item s = true.
Proof using capacity_pos.
  unfold Inv. destruct k; simpl.
  - intros H. rewrite (LRUFacts.lru_access_result capacity) by assumption.
    destruct (OD.mem item _); split; congruence.
  - intros H. rewrite (LFUFacts.lfu_access_result capacity) by assumption.
    destruct (Dict.mem item _); split; congruence.
  - intros H. now apply (ARCFacts.arc_access_spec capacity item s capacity_pos H).
  - intros [H _]. rewrite (TDCFacts.tdc_access_result capacity) by assumption.
    destruct (Dict.mem item _); split; congruence.
Qed.

(** A call on an item that is not resident returns [False] and leaves
    the item resident, or, on an item of a ghost list, raises
    [KeyError]. *)
Lemma miss_outcome item (s : state k) :
  Inv s -> resident item s = false ->
  (fst (access item s) = Ret false /\
   resident item (snd (access item s)) = true) \/
  (fst (access item s) = Raise KeyError /\
   exists ghost, In ghost (history k s) /\ OD.mem item ghost = true).
Proof using capacity_pos.
  unfold Inv. destruct k; simpl.
  - intros H Hout. left.
    pose proof (LRUFacts.lru_access_result capacity item s capacity_pos H) as R.
    rewrite Hout in R. split; [exact R |].
    now apply LRUFacts.lru_access_miss_resident.
  - intros H Hout. left.
    pose proof (LFUFacts.lfu_access_result capacity item s capacity_pos H) as R.
    rewrite Hout in R. split; [exact R |].
    now apply (LFUFacts.lfu_access_miss_resident capacity).
  - intros H Hout.
    destruct (ARCFacts.arc_access_spec capacity item s capacity_pos H)
      as (_ & _ & _ & _ & Hmiss).
    destruct (Hmiss Hout) as [Hok | [Hin Ho]]; [now left | right].
    split; [exact Ho |]. exists (ARCCache.b2 s). split; [| exact Hin].
    right. now left.
  - intros [H _] Hout. left.
    pose proof (TDCFacts.tdc_access_result capacity item s capacity_pos H) as R.
    rewrite Hout in R. split; [exact R |].
    now apply (TDCFacts.tdc_access_miss_resident capacity).
Qed.

(** A hit keeps the resident set, the ghost lists and the target. *)
Lemma hit_frame item (s : state k) :
  Inv s -> resident item s = true ->
  (forall x, resident x (snd (access item s)) = resident x s) /\
  history k (snd (access item s)) = history k s /\
  target k (snd (access item s)) = target k s.
Proof using capacity_pos.
  unfold Inv. destruct k; simpl.
  - intros _ Hr. split; [| now split].
    intros x. now apply LRUFacts.lru_access_hit_resident.
  - intros H Hr. split; [| now split].
    intros x. now apply (LFUFacts.lfu_access_hit_resident capacity).
  - intros _ Hr.
    destruct (ARCFacts.arc_access_hit_frame item s Hr)
      as (Hres & Hb1 & Hb2 & Hp & _).
    split; [exact Hres |]. now rewrite Hb1, Hb2, Hp.
  - intros [(_ & _ & Hst) _] Hr. split; [| now split].
    intros x. now apply TDCFacts.tdc_access_hit_resident.
Qed.

(** The counters after a trace. *)
Lemma counters_final trace :
  let b := base (final trace (new k capacity)) in
  CachePolicy.hits b + CachePolicy.misses b = CachePolicy.time b /\
  CachePolicy.time b = Z.of_nat (length trace) /\
  0 <= CachePolicy.hits b /\ 0 <= CachePolicy.misses b.
Proof using capacity_pos.
  induction trace as [| item trace IH] using rev_ind.
  - destruct k; simpl; lia.
  - rewrite final_app, final_cons, final_nil, length_app. simpl length.
    rewrite access_counted by apply inv_final.
    simpl in IH. destruct (resident item _); simpl; lia.
Qed.

(** [reset] gives back the object as constructed. *)
Lemma reset_new (s : state k) : Inv s -> reset s = new k capacity.
Proof.
  unfold Inv. destruct k; simpl.
  - intros [Hc _]. unfold LRUCache.reset, LRUCache.__init__, CachePolicy.clear,
      CachePolicy.__init__. now rewrite Hc.
  - intros H. pose proof (LFUFacts.good_capacity _ _ _ _ _ H) as Hc.
    unfold LFUCache.reset, LFUCache.__init__, CachePolicy.clear,
      CachePolicy.__init__. now rewrite Hc.
  - intros (Hc & Hc' & _). unfold ARCCache.reset, ARCCache.__init__,
      CachePolicy.clear, CachePolicy.__init__. now rewrite Hc, Hc'.
  - intros [(Hc & _) Hd]. unfold TimeDecayedCache.reset, TimeDecayedCache.__init__,
      CachePolicy.clear, CachePolicy.__init__. rewrite Hc, Hd. reflexivity.
Qed.

End AllPolicies.

(** * The properties of the specification *)

(** ** Sizes *)

(** C1. For every policy constructed with a positive capacity, and for a
    [TimeDecayedCache] with a [decay_rate] in the documented range (0, 1),
    and every sequence of [access] calls, the resident set never outgrows
    the capacity: the item map of LRU, LFU and TDC, and [|T1| + |T2|] of
    ARC ([size]), hold at most [capacity] items, and so does each ghost
    list B1 and B2 of ARC ([history]).  The state after a trace is the
    state after its last call, whether the calls returned or raised. *)
Theorem resident_size_never_exceeds_capacity
  (k : policy) (capacity : Z) (trace : list Z) :
  0 < capacity -> in_range k ->
  let s := final trace (new k capacity) in
  size s <= capacity /\
  Forall (fun ghost => OD.len ghost <= capacity) (history k s).
Proof.
  intros Hcap _ s.
  pose proof (inv_final k capacity Hcap trace) as Hinv. fold s in Hinv.
  split.
  - now apply inv_size.
  - now apply inv_history.
Qed.

Lemma resident_size_never_exceeds_capacity_witness :
  let k := TDC (Some (1 # 2)%Q) in
  0 < 2 /\ in_range k /\
  let s := final [1; 1; 2; 2; 3; 3; 4; 4; 1; 5] (new k 2) in
  size s <= 2 /\ Forall (fun ghost => OD.len ghost <= 2) (history k s).
Proof.
  intros k. assert (Hcap : 0 < 2) by lia.
  assert (Hd : in_range k) by (split; reflexivity).
  split; [exact Hcap |]. split; [exact Hd |].
  exact (resident_size_never_exceeds_capacity k 2
           [1; 1; 2; 2; 3; 3; 4; 4; 1; 5] Hcap Hd).
Defined.

(** ** Counters *)

(** C2. For every policy, with a [decay_rate] in the documented range
    (0, 1) where one is passed, and every sequence of [access] calls, after
    each call [hits + misses = time], and [time] is the number of calls
    made so far; a further call, whatever it does, leaves [time]
    incremented by exactly one. *)
Theorem hits_plus_misses_is_time
  (k : policy) (capacity : Z) (trace : list Z) (item : Z) :
  0 < capacity -> in_range k ->
  let s := final trace (new k capacity) in
  CachePolicy.hits (base s) + CachePolicy.misses (base s)
  = CachePolicy.time (base s) /\
  CachePolicy.time (base s) = Z.of_nat (length trace) /\
  CachePolicy.time (base (snd (access item s))) = CachePolicy.time (base s) + 1.
Proof.
  intros Hcap _ s.
  destruct (counters_final k capacity Hcap trace) as (Hsum & Htime & _).
  fold s in Hsum, Htime. split; [exact Hsum |]. split; [exact Htime |].
  rewrite (access_counted k capacity Hcap)
    by apply (inv_final k capacity Hcap).
  unfold counted. now destruct (resident item s).
Qed.

Lemma hits_plus_misses_is_time_witness :
  let k := TDC (Some (3 # 4)%Q) in
  0 < 2 /\ in_range k /\
  let s := final [1; 2; 1; 3] (new k 2) in
  CachePolicy.hits (base s) + CachePolicy.misses (base s)
  = CachePolicy.time (base s) /\
  CachePolicy.time (base s) = Z.of_nat (length [1; 2; 1; 3]) /\
  CachePolicy.time (base (snd (access 1 s))) = CachePolicy.time (base s) + 1.
Proof.
  intros k. assert (Hcap : 0 < 2) by lia.
  assert (Hd : in_range k) by (split; reflexivity).
  split; [exact Hcap |]. split; [exact Hd |].
  exact (hits_plus_misses_is_time k 2 [1; 2; 1; 3] 1 Hcap Hd).
Defined.

(** ** Hits and misses *)

(** C3, at the input where the code departs from it.  An [ARCCache] of
    capacity 1 after the calls 1, 1, 2, 2 holds item 2 in T2 and item 1 in
    B2 only.  The call [access(1)] is a ghost hit in B2: [_replace] moves
    item 2 from T2 to B2, the cut of B2 to [c] entries drops item 1, and
    [del self.b2[item]] raises [KeyError].  The call counts a miss, does
    not return, and leaves item 1 non-resident. *)
Theorem arc_ghost_hit_in_b2_raises :
  let s := final [1; 1; 2; 2] (new ARC 1) in
  let s' := snd (access 1 s) in
  resident 1 s = false /\
  OD.mem 1 (ARCCache.b2 s) = true /\
  fst (access 1 s) = Raise KeyError /\
  CachePolicy.misses (base s') = CachePolicy.misses (base s) + 1 /\
  resident 1 s' = false.
Proof. vm_compute. repeat split. Qed.

(** The same happens at larger capacities, whenever B2 is full, the
    requested item is its least recent entry, and [_replace] takes from
    T2. *)
Example arc_ghost_hit_in_b2_raises_at_capacity_2 :
  run [1; 1; 2; 2; 3; 3; 4; 4; 1] (new ARC 2) =
  ([Ret false; Ret true; Ret false; Ret true; Ret false; Ret true; Ret false;
    Ret true; Raise KeyError],
   ARCCache.mk (CachePolicy.mk 2 4 5 9) 2 0 [] [4] [] [2; 3]).
Proof. vm_compute. reflexivity. Qed.

(** ** Reset *)

(** C4. For every policy and every reachable state, after [reset()] the
    statistics are [hits = 0], [misses = 0], [hit_ratio = 0.0], and every
    later sequence of calls has the outcomes it has on a freshly
    constructed object with the same construction parameters. *)
Theorem reset_behaves_as_fresh
  (k : policy) (capacity : Z) (trace later : list Z) :
  0 < capacity ->
  let s := reset (final trace (new k capacity)) in
  get_stats s = Ret (CachePolicy.mk_stats 0 0 0) /\
  results later s = results later (new k capacity).
Proof.
  intros Hcap s. unfold s.
  rewrite (reset_new k capacity) by apply (inv_final k capacity Hcap).
  split; [| reflexivity].
  destruct k; reflexivity.
Qed.

Lemma reset_behaves_as_fresh_witness :
  0 < 2 /\
  let s := reset (final [1; 2; 1; 3] (new (TDC (Some 0.5%Q)) 2)) in
  get_stats s = Ret (CachePolicy.mk_stats 0 0 0) /\
  results [3; 4; 3] s = results [3; 4; 3] (new (TDC (Some 0.5%Q)) 2).
Proof.
  split; [lia |].
  apply (reset_behaves_as_fresh (TDC (Some 0.5%Q)) 2 [1; 2; 1; 3] [3; 4; 3]).
  lia.
Defined.

(** ** LRU *)

(** C5. On a fresh [LRUCache] of capacity 3 the trace
    [1, 2, 3, 1, 2, 4, 1, 5] gives miss, miss, miss, hit, hit, miss, hit,
    miss. *)
Theorem lru_golden_trace :
  results [1; 2; 3; 1; 2; 4; 1; 5] (new LRU 3) =
  [Ret false; Ret false; Ret false; Ret true; Ret true; Ret false; Ret true;
   Ret false].
Proof. vm_compute. reflexivity. Qed.

(** ** LFU *)

(** *** The order inside the buckets

    Both branches of [LFUCache.access] end by putting the requested item,
    and no other, into a bucket: [self.freq_to_items[freq + 1][item] = True]
    on a hit, [self.freq_to_items[1][item] = True] on a miss.  An item is
    therefore in the bucket that holds it since the last call on it
    ([lfu_call_enters_at_the_end] below), and the time of that call is the
    time at which it was inserted there. *)

(** The time of the last call on [x] in a trace whose first call is made at
    time [i], as [self.time] counts it; 0 when there is no call on [x]. *)
Fixpoint last_call_from (i : Z) (trace : list Z) (x : Z) : Z :=
  match trace with
  | [] => 0
  | y :: rest =>
      let later := last_call_from (i + 1) rest x in
      if later =? 0 then (if y =? x then i else 0) else later
  end.

(** The time of the last call on [x]; the first call is made at time 1. *)
Definition last_call (trace : list Z) (x : Z) : Z := last_call_from 1 trace x.

Module LFUOrder.
Import LFUCache LFUFacts.

(** A bucket lists its items by the time of the last call on them, the
    earliest first. *)
Definition Aged (last : Z -> Z) (l : OD.t) : Prop :=
  StronglySorted (fun a b => last a < last b) l.

Lemma lfu_aged_remove last x l : Aged last l -> Aged last (OD.remove x l).
Proof.
  unfold Aged, OD.remove. induction 1 as [| a l Hl IH Ha]; simpl.
  - constructor.
  - destruct (negb (a =? x)); [| exact IH].
    constructor; [exact IH |].
    apply Forall_forall. intros b Hb. apply filter_In in Hb.
    rewrite Forall_forall in Ha. apply Ha, Hb.
Qed.

Lemma lfu_aged_relabel last last' l :
  (forall x, In x l -> last' x = last x) -> Aged last l -> Aged last' l.
Proof.
  unfold Aged. intros Hsame H. induction H as [| a l Hl IH Ha].
  - constructor.
  - constructor.
    + apply IH. intros x Hx. apply Hsame. now right.
    + rewrite Forall_forall in *. intros b Hb.
      rewrite (Hsame a) by now left. rewrite (Hsame b) by now right.
      now apply Ha.
Qed.

Lemma lfu_aged_append last item l :
  Aged last l -> (forall x, In x l -> last x < last item) ->
  Aged last (l ++ [item]).
Proof.
  unfold Aged. intros H Hlt. induction H as [| a l Hl IH Ha]; simpl.
  - repeat constructor.
  - constructor.
    + apply IH. intros x Hx. apply Hlt. now right.
    + apply Forall_app. split; [exact Ha |].
      constructor; [| constructor]. apply Hlt. now left.
Qed.

(** A call at time [now] on [item], as the buckets see it. *)
Definition called (last : Z -> Z) (item now : Z) : Z -> Z :=
  fun x => if x =? item then now else last x.

Lemma lfu_aged_other last item now l :
  OD.mem item l = false -> Aged last l -> Aged (called last item now) l.
Proof.
  intros Hout. apply lfu_aged_relabel. intros x Hx. unfold called.
  destruct (Z.eqb_spec x item) as [-> | _]; [| reflexivity].
  apply ODFacts.od_mem_In in Hx. congruence.
Qed.

Lemma lfu_aged_enter last item now l :
  (forall x, last x < now) ->
  OD.mem item l = false -> Aged last l ->
  Aged (called last item now) (snd (OD.setitem item l)).
Proof.
  intros Hnow Hout H. unfold OD.setitem, modify. simpl. rewrite Hout.
  apply lfu_aged_append; [now apply lfu_aged_other |].
  intros x Hx. unfold called. rewrite Z.eqb_refl.
  destruct (Z.eqb_spec x item) as [-> | _]; [| apply Hnow].
  apply ODFacts.od_mem_In in Hx. congruence.
Qed.

Lemma lfu_remove_out x y (l : OD.t) :
  OD.mem y l = false -> OD.mem y (OD.remove x l) = false.
Proof. intros H. rewrite ODFacts.od_mem_remove, H. apply andb_false_r. Qed.

(** A call keeps the buckets in the order of the last calls. *)
Lemma lfu_access_aged cap item s last now :
  0 < cap -> Inv cap s ->
  (forall x, last x < now) ->
  (forall g, Aged last (items_at g (freq_to_items s))) ->
  forall g, Aged (called last item now)
                 (items_at g (freq_to_items (snd (access item s)))).
Proof.
  intros Hcap Hinv Hnow Haged.
  pose proof (good_linked _ _ _ _ _ Hinv) as Hlinked.
  destruct (Dict.get item (cache s)) as [f |] eqn:Hget.
  - (* a hit: out of the bucket of [f], to the end of that of [f + 1] *)
    assert (Hin : OD.mem item (items_at f (freq_to_items s)) = true)
      by now apply Hlinked.
    assert (Hnot : forall g, g <> f ->
              OD.mem item (items_at g (freq_to_items s)) = false).
    { intros g Hg.
      destruct (OD.mem item (items_at g (freq_to_items s))) eqn:M;
        [| reflexivity].
      apply Hlinked in M. congruence. }
    destruct (lfu_access_hit item f s Hget Hin) as (s' & -> & [_ _ Hat _]).
    intros g. cbn [snd]. rewrite Hat.
    destruct (Z.eqb_spec g (f + 1)) as [-> | Hg1].
    + apply lfu_aged_enter; [exact Hnow | apply Hnot; lia | apply Haged].
    + destruct (Z.eqb_spec g f) as [-> | Hg].
      * apply lfu_aged_other; [apply ODFacts.od_remove_absent |].
        apply lfu_aged_remove, Haged.
      * apply lfu_aged_other; [now apply Hnot | apply Haged].
  - assert (Hout : Dict.mem item (cache s) = false)
      by (unfold Dict.mem; now rewrite Hget).
    assert (Hnot : forall g,
              OD.mem item (items_at g (freq_to_items s)) = false).
    { intros g.
      destruct (OD.mem item (items_at g (freq_to_items s))) eqn:M;
        [| reflexivity].
      apply Hlinked in M. congruence. }
    destruct (Z.lt_ge_cases (Dict.len (cache s)) (CachePolicy.capacity (base s)))
      as [Hroom | Hfull].
    + (* a miss with room: to the end of the bucket of 1 *)
      destruct (lfu_access_miss_room item s Hout Hroom)
        as (s' & -> & [_ _ Hat _]).
      intros g. cbn [snd]. rewrite Hat.
      destruct (Z.eqb_spec g 1) as [-> | _].
      * apply lfu_aged_enter; [exact Hnow | apply Hnot | apply Haged].
      * apply lfu_aged_other; [apply Hnot | apply Haged].
    + (* a miss on a full cache: the head of a bucket leaves first *)
      pose proof (good_capacity _ _ _ _ _ Hinv) as Hc.
      destruct (lfu_good_victim _ _ _ _ _ Hinv) as (victim & rest & Hhead & Hv);
        [lia |].
      assert (Hmem : Dict.mem victim (cache s) = true)
        by (apply DictFacts.dict_mem_get; eauto).
      destruct (lfu_access_miss_full item s victim rest Hout Hfull Hhead Hmem)
        as (s' & -> & [_ _ Hat _]).
      assert (Hkept : forall g,
        let kept := if g =? min_freq s then OD.remove victim (victim :: rest)
                    else items_at g (freq_to_items s) in
        OD.mem item kept = false /\ Aged last kept).
      { intros g. cbv zeta. destruct (Z.eqb_spec g (min_freq s)) as [-> | _].
        - rewrite <- Hhead. split; [apply lfu_remove_out, Hnot |].
          apply lfu_aged_remove, Haged.
        - split; [apply Hnot | apply Haged]. }
      intros g. cbn [snd]. rewrite Hat.
      destruct (Z.eqb_spec g 1) as [-> | _].
      * apply lfu_aged_enter; [exact Hnow | apply (Hkept 1) | apply (Hkept 1)].
      * apply lfu_aged_other; [apply (Hkept g) | apply (Hkept g)].
Qed.

End LFUOrder.

Lemma last_call_from_end i trace : forall y x,
  0 < i ->
  last_call_from i (trace ++ [y]) x
  = if y =? x then i + Z.of_nat (length trace) else last_call_from i trace x.
Proof.
  revert i. induction trace as [| z rest IH]; intros i y x Hi; simpl app.
  - simpl. destruct (y =? x); [lia | reflexivity].
  - cbn [last_call_from]. rewrite IH by lia.
    destruct (Z.eqb_spec y x) as [-> | _]; [| reflexivity].
    destruct (Z.eqb_spec (i + 1 + Z.of_nat (length rest)) 0); [lia |].
    simpl length. lia.
Qed.

Lemma last_call_from_bound i trace : forall x,
  0 < i -> last_call_from i trace x < i + Z.of_nat (length trace).
Proof.
  revert i. induction trace as [| y rest IH]; intros i x Hi.
  - simpl. lia.
  - cbn [last_call_from]. specialize (IH (i + 1) x).
    simpl length.
    destruct (last_call_from (i + 1) rest x =? 0); [| lia].
    destruct (y =? x); lia.
Qed.

(** In every reachable state of an [LFUCache] each bucket lists its items
    by the time of the last call on them. *)
Lemma lfu_buckets_by_last_call capacity trace :
  0 < capacity ->
  forall g,
    LFUOrder.Aged (last_call trace)
      (LFUFacts.items_at g
         (LFUCache.freq_to_items (final trace (new LFU capacity)))).
Proof.
  intros Hcap. induction trace as [| item trace IH] using rev_ind.
  - intros g. constructor.
  - intros g. rewrite final_app, final_cons, final_nil.
    pose proof (inv_final LFU capacity Hcap trace) as Hinv.
    change (LFUFacts.Inv capacity (final trace (new LFU capacity))) in Hinv.
    apply (LFUOrder.lfu_aged_relabel
             (LFUOrder.called (last_call trace) item
                (1 + Z.of_nat (length trace)))).
    + intros x _. unfold last_call, LFUOrder.called.
      rewrite last_call_from_end by lia. rewrite (Z.eqb_sym item x).
      reflexivity.
    + apply (LFUOrder.lfu_access_aged capacity); try assumption.
      intros x. unfold last_call.
      apply last_call_from_bound. lia.
Qed.

(** A call puts the requested item at the end of the bucket of its new
    frequency, and no other item enters a bucket. *)
Lemma lfu_call_enters_at_the_end capacity item s :
  0 < capacity -> LFUFacts.Inv capacity s ->
  let s' := snd (LFUCache.access item s) in
  (exists f before,
     Dict.get item (LFUCache.cache s') = Some f /\
     LFUFacts.items_at f (LFUCache.freq_to_items s') = before ++ [item]) /\
  (forall g x, x <> item ->
     In x (LFUFacts.items_at g (LFUCache.freq_to_items s')) ->
     In x (LFUFacts.items_at g (LFUCache.freq_to_items s))).
Proof.
  intros Hcap Hinv.
  pose proof (LFUFacts.good_linked _ _ _ _ _ Hinv) as Hlinked.
  assert (Henter : forall l, OD.mem item l = false ->
            snd (OD.setitem item l) = l ++ [item]).
  { intros l Hl. unfold OD.setitem, modify. simpl. now rewrite Hl. }
  assert (Hsame : forall (l : OD.t) x, x <> item ->
            In x (snd (OD.setitem item l)) -> In x l).
  { intros l x Hx Hin. apply ODFacts.od_mem_In in Hin.
    rewrite ODFacts.od_setitem_mem in Hin. apply ODFacts.od_mem_In.
    destruct (Z.eqb_spec x item); [contradiction | exact Hin]. }
  assert (Hless : forall (l : OD.t) x y, In x (OD.remove y l) -> In x l).
  { intros l x y Hin. apply ODFacts.od_mem_In in Hin.
    rewrite ODFacts.od_mem_remove in Hin. apply ODFacts.od_mem_In.
    now apply andb_true_iff in Hin. }
  destruct (Dict.get item (LFUCache.cache s)) as [f |] eqn:Hget.
  - assert (Hin : OD.mem item (LFUFacts.items_at f (LFUCache.freq_to_items s))
                  = true) by now apply Hlinked.
    assert (Hnot : OD.mem item
                     (LFUFacts.items_at (f + 1) (LFUCache.freq_to_items s))
                   = false).
    { destruct (OD.mem item
                  (LFUFacts.items_at (f + 1) (LFUCache.freq_to_items s)))
        eqn:M; [| reflexivity].
      apply Hlinked in M. rewrite Hget in M. injection M. lia. }
    destruct (LFUFacts.lfu_access_hit item f s Hget Hin)
      as (s' & -> & [_ Hcache Hat _]).
    cbn [snd]. split.
    + exists (f + 1), (LFUFacts.items_at (f + 1) (LFUCache.freq_to_items s)).
      rewrite Hcache, DictFacts.dict_get_set, Z.eqb_refl, Hat, Z.eqb_refl.
      split; [reflexivity | now apply Henter].
    + intros g x Hx. rewrite Hat.
      destruct (g =? f + 1) eqn:E1;
        [apply Z.eqb_eq in E1; rewrite E1; now apply Hsame |].
      destruct (g =? f) eqn:E2; [| trivial].
      apply Z.eqb_eq in E2. rewrite E2. apply Hless.
  - assert (Hout : Dict.mem item (LFUCache.cache s) = false)
      by (unfold Dict.mem; now rewrite Hget).
    assert (Hnot : forall g,
              OD.mem item (LFUFacts.items_at g (LFUCache.freq_to_items s))
              = false).
    { intros g.
      destruct (OD.mem item
                  (LFUFacts.items_at g (LFUCache.freq_to_items s)))
        eqn:M; [| reflexivity].
      apply Hlinked in M. congruence. }
    destruct (Z.lt_ge_cases (Dict.len (LFUCache.cache s))
                (CachePolicy.capacity (LFUCache.base s))) as [Hroom | Hfull].
    + destruct (LFUFacts.lfu_access_miss_room item s Hout Hroom)
        as (s' & -> & [_ Hcache Hat _]).
      cbn [snd]. split.
      * exists 1, (LFUFacts.items_at 1 (LFUCache.freq_to_items s)).
        rewrite Hcache, DictFacts.dict_get_set, Z.eqb_refl, Hat, Z.eqb_refl.
        split; [reflexivity | now apply Henter].
      * intros g x Hx. rewrite Hat.
        destruct (g =? 1) eqn:E1; [| trivial].
        apply Z.eqb_eq in E1. rewrite E1. now apply Hsame.
    + pose proof (LFUFacts.good_capacity _ _ _ _ _ Hinv) as Hc.
      destruct (LFUFacts.lfu_good_victim _ _ _ _ _ Hinv)
        as (victim & rest & Hhead & Hv); [lia |].
      assert (Hmem : Dict.mem victim (LFUCache.cache s) = true)
        by (apply DictFacts.dict_mem_get; eauto).
      destruct (LFUFacts.lfu_access_miss_full item s victim rest
                  Hout Hfull Hhead Hmem) as (s' & -> & [_ Hcache Hat _]).
      cbn [snd]. split.
      * exists 1. eexists.
        rewrite Hcache, DictFacts.dict_get_set, Z.eqb_refl, Hat, Z.eqb_refl.
        split; [reflexivity |]. apply Henter.
        destruct (1 =? LFUCache.min_freq s); [| apply Hnot].
        rewrite <- Hhead. apply LFUOrder.lfu_remove_out, Hnot.
      * intros g x Hx. rewrite Hat.
        assert (Hkept : forall h,
          In x (if h =? LFUCache.min_freq s
                then OD.remove victim (victim :: rest)
                else LFUFacts.items_at h (LFUCache.freq_to_items s)) ->
          In x (LFUFacts.items_at h (LFUCache.freq_to_items s))).
        { intros h. destruct (h =? LFUCache.min_freq s) eqn:E; [| trivial].
          apply Z.eqb_eq in E. rewrite E, <- Hhead. apply Hless. }
        destruct (g =? 1) eqn:E1; [| apply Hkept].
        apply Z.eqb_eq in E1. rewrite E1. intros Hin.
        apply Hkept. revert Hin. now apply Hsame.
Qed.

(** Every item held by a bucket has been called. *)
Lemma lfu_bucket_items_called capacity trace :
  0 < capacity ->
  forall g x,
    In x (LFUFacts.items_at g
            (LFUCache.freq_to_items (final trace (new LFU capacity)))) ->
    0 < last_call trace x.
Proof.
  intros Hcap. induction trace as [| item trace IH] using rev_ind.
  - intros g x [].
  - intros g x. rewrite final_app, final_cons, final_nil.
    pose proof (inv_final LFU capacity Hcap trace) as Hinv.
    change (LFUFacts.Inv capacity (final trace (new LFU capacity))) in Hinv.
    destruct (lfu_call_enters_at_the_end capacity item _ Hcap Hinv)
      as [_ Hold].
    unfold last_call. rewrite last_call_from_end by lia.
    destruct (Z.eqb_spec item x) as [_ | Hx]; [lia |].
    intros Hin. apply (IH g). apply Hold; [congruence | exact Hin].
Qed.

(** C6. In an [LFUCache], a miss with at least [capacity] resident items
    evicts the first key of the bucket of [min_freq], where [min_freq] is
    the least frequency of a resident item, and this key is the item that
    was inserted into the bucket first: the call that put it there, the last
    call on it, is earlier than the last call on any other item of that
    frequency.  The new item then enters with frequency 1.  In particular,
    on a fresh [LFUCache] of capacity 2 the calls 1, 1, 2 leave 1 with
    frequency 2 and 2 with frequency 1, and the call 3 evicts item 2; and
    after the calls 1, 2, 2, 1 both items have frequency 2, item 2 having
    reached it first, and the call 3 evicts item 2 although item 1 is the
    older entry of the cache. *)
Theorem lfu_evicts_oldest_of_least_frequency
  (capacity : Z) (trace : list Z) (item : Z) :
  0 < capacity ->
  let s := final trace (new LFU capacity) in
  Dict.mem item (LFUCache.cache s) = false ->
  capacity <= Dict.len (LFUCache.cache s) ->
  (exists victim rest,
     LFUFacts.items_at (LFUCache.min_freq s) (LFUCache.freq_to_items s)
     = victim :: rest /\
     Dict.get victim (LFUCache.cache s) = Some (LFUCache.min_freq s) /\
     (forall x f, Dict.get x (LFUCache.cache s) = Some f ->
                  LFUCache.min_freq s <= f) /\
     (forall y, Dict.get y (LFUCache.cache s) = Some (LFUCache.min_freq s) ->
                y <> victim ->
                0 < last_call trace victim < last_call trace y) /\
     fst (access item s) = Ret false /\
     LFUCache.cache (snd (access item s))
     = Dict.set item 1 (Dict.remove victim (LFUCache.cache s))) /\
  LFUCache.cache (final [1; 1; 2] (new LFU 2)) = [(1, 2); (2, 1)] /\
  LFUCache.cache (final [1; 1; 2; 3] (new LFU 2)) = [(1, 2); (3, 1)] /\
  LFUCache.cache (final [1; 2; 2; 1] (new LFU 2)) = [(1, 2); (2, 2)] /\
  LFUCache.cache (final [1; 2; 2; 1; 3] (new LFU 2)) = [(1, 2); (3, 1)].
Proof.
  intros Hcap s Hout Hfull. split; [| repeat split; reflexivity].
  pose proof (inv_final LFU capacity Hcap trace) as Hinv.
  change (LFUFacts.Inv capacity s) in Hinv.
  pose proof (LFUFacts.good_least _ _ _ _ _ Hinv) as Hleast.
  pose proof (LFUFacts.good_capacity _ _ _ _ _ Hinv) as Hc.
  pose proof (LFUFacts.good_linked _ _ _ _ _ Hinv) as Hlinked.
  pose proof (lfu_buckets_by_last_call capacity trace Hcap
                (LFUCache.min_freq s)) as Haged.
  fold s in Haged.
  destruct (LFUFacts.lfu_access_spec capacity item s Hcap Hinv)
    as (o & s' & E & Hcase & _).
  change (access item s) with (LFUCache.access item s). rewrite E. simpl.
  destruct Hcase as [f Hf _ _ | _ Hroom _ _ | victim rest _ _ Hhead Hv Hcache _].
  - unfold Dict.mem in Hout. now rewrite Hf in Hout.
  - lia.
  - exists victim, rest.
    split; [exact Hhead |]. split; [exact Hv |]. split; [exact Hleast |].
    split; [| split; [reflexivity | exact Hcache]].
    intros y Hy Hne. split.
    + apply (lfu_bucket_items_called capacity trace Hcap
               (LFUCache.min_freq s)).
      fold s. rewrite Hhead. now left.
    + apply Hlinked in Hy. rewrite Hhead in Hy, Haged.
      apply ODFacts.od_mem_In in Hy. destruct Hy as [-> | Hy]; [congruence |].
      apply StronglySorted_inv in Haged. destruct Haged as [_ Hall].
      rewrite Forall_forall in Hall. now apply Hall.
Qed.

Lemma lfu_evicts_oldest_of_least_frequency_witness :
  let trace := [1; 2; 2; 1] in
  let s := final trace (new LFU 2) in
  0 < 2 /\
  Dict.mem 3 (LFUCache.cache s) = false /\
  2 <= Dict.len (LFUCache.cache s) /\
  LFUFacts.items_at (LFUCache.min_freq s) (LFUCache.freq_to_items s) = [2; 1] /\
  last_call trace 2 = 3 /\ last_call trace 1 = 4 /\
  exists victim rest,
    LFUFacts.items_at (LFUCache.min_freq s) (LFUCache.freq_to_items s)
    = victim :: rest /\
    Dict.get victim (LFUCache.cache s) = Some (LFUCache.min_freq s) /\
    (forall x f, Dict.get x (LFUCache.cache s) = Some f ->
                 LFUCache.min_freq s <= f) /\
    (forall y, Dict.get y (LFUCache.cache s) = Some (LFUCache.min_freq s) ->
               y <> victim ->
               0 < last_call trace victim < last_call trace y) /\
    fst (access 3 s) = Ret false /\
    LFUCache.cache (snd (access 3 s))
    = Dict.set 3 1 (Dict.remove victim (LFUCache.cache s)).
Proof.
  intros trace s.
  assert (Hcap : 0 < 2) by lia.
  assert (Hout : Dict.mem 3 (LFUCache.cache s) = false) by reflexivity.
  assert (Hfull : 2 <= Dict.len (LFUCache.cache s))
    by (vm_compute; discriminate).
  split; [exact Hcap |]. split; [exact Hout |]. split; [exact Hfull |].
  split; [reflexivity |]. split; [reflexivity |]. split; [reflexivity |].
  exact (proj1 (lfu_evicts_oldest_of_least_frequency 2 trace 3
                  Hcap Hout Hfull)).
Defined.

(** ** ARC *)

(** The successive values of [p] over a trace, the starting one first. *)
Fixpoint targets (trace : list Z) (s : ARCCache.t) : list Z :=
  ARCCache.p s ::
  match trace with
  | [] => []
  | item :: rest => targets rest (snd (ARCCache.access item s))
  end.

(** Every miss of the trace is a ghost hit in B1: each requested item is
    in T1 or T2 (a hit) or in B1 when it is requested. *)
Fixpoint misses_hit_b1 (trace : list Z) (s : ARCCache.t) : Prop :=
  match trace with
  | [] => True
  | item :: rest =>
      (ARCFacts.resident item s = true \/ OD.mem item (ARCCache.b1 s) = true)
      /\ misses_hit_b1 rest (snd (ARCCache.access item s))
  end.

Lemma targets_sorted capacity (trace : list Z) : forall s,
  0 < capacity -> ARCFacts.Inv capacity s -> misses_hit_b1 trace s ->
  Forall (fun p => 0 <= p <= capacity) (targets trace s) /\
  Sorted Z.le (targets trace s).
Proof.
  induction trace as [| item rest IH]; intros s Hcap Hinv Hb1.
  - pose proof Hinv as (_ & _ & Hp & _). simpl.
    split; repeat constructor; lia.
  - destruct Hb1 as [Hitem Hrest].
    destruct (ARCFacts.arc_access_spec capacity item s Hcap Hinv)
      as (Hinv' & _ & Hp' & _).
    destruct (IH _ Hcap Hinv' Hrest) as [Hbound Hsorted].
    pose proof Hinv as (_ & Hc & Hp & _).
    simpl. split; [constructor; [lia | exact Hbound] |].
    constructor; [exact Hsorted |].
    destruct rest; simpl; constructor; rewrite Hp'; unfold ARCFacts.adapted;
      pose proof (ARCFacts.arc_delta1_pos s);
      (destruct Hitem as [-> | Hin];
       [lia | rewrite Hin; destruct (ARCFacts.resident item s); lia]).
Qed.

(** C7. In an [ARCCache] of positive capacity the adaptation target
    satisfies [0 <= p <= capacity] after every call, and over any sequence
    of calls in which every miss is a ghost hit in B1 the successive
    values of [p] never decrease. *)
Theorem arc_target_bounded_and_monotone
  (capacity : Z) (trace later : list Z) :
  0 < capacity ->
  let s := final trace (new ARC capacity) in
  misses_hit_b1 later s ->
  Forall (fun p => 0 <= p <= capacity) (targets later s) /\
  Sorted Z.le (targets later s).
Proof.
  intros Hcap s Hb1. apply targets_sorted; try assumption.
  apply (inv_final ARC capacity Hcap trace).
Qed.

Lemma arc_target_bounded_and_monotone_witness :
  let s := final [1; 1; 2; 3] (new ARC 2) in
  0 < 2 /\
  misses_hit_b1 [2; 3] s /\
  Forall (fun p => 0 <= p <= 2) (targets [2; 3] s) /\
  Sorted Z.le (targets [2; 3] s).
Proof.
  intros s.
  assert (Hcap : 0 < 2) by lia.
  assert (Hb1 : misses_hit_b1 [2; 3] s).
  { split; [right; reflexivity |]. split; [left; reflexivity | exact I]. }
  split; [exact Hcap |]. split; [exact Hb1 |].
  exact (arc_target_bounded_and_monotone 2 [1; 1; 2; 3] [2; 3] Hcap Hb1).
Defined.

(** In that run [p] goes from 0 to 1 at the ghost hit on item 2. *)
Example arc_targets_trial :
  targets [2; 3] (final [1; 1; 2; 3] (new ARC 2)) = [0; 1; 1].
Proof. reflexivity. Qed.

(** ** Statistics *)

(** C8. For every policy, with a [decay_rate] in the documented range
    (0, 1) where one is passed, and every reachable state, [get_hit_ratio]
    returns [hits / (hits + misses)] once a call has been made, and [0.0]
    before any call; [hits + misses] is the number of calls, so the
    division is never by zero, and on no counters at all does
    [get_hit_ratio] raise [ZeroDivisionError].  The quotient is the exact
    rational one. *)
Theorem hit_ratio_is_hits_over_accesses
  (k : policy) (capacity : Z) (trace : list Z) :
  0 < capacity -> in_range k ->
  let s := final trace (new k capacity) in
  let hits := CachePolicy.hits (base s) in
  let misses := CachePolicy.misses (base s) in
  get_hit_ratio s =
  Ret (match trace with
       | [] => 0
       | _ :: _ => inject_Z hits / inject_Z (hits + misses)
       end)%Q /\
  hits + misses = Z.of_nat (length trace) /\
  forall b, CachePolicy.get_hit_ratio b <> Raise ZeroDivisionError.
Proof.
  intros Hcap _ s hits misses.
  destruct (counters_final k capacity Hcap trace) as (Hsum & Htime & _).
  fold s in Hsum, Htime. fold hits misses in Hsum.
  split; [| split; [congruence |]].
  - unfold get_hit_ratio, CachePolicy.get_hit_ratio, CachePolicy.truediv.
    fold hits misses. rewrite Hsum, Htime.
    destruct trace as [| x trace]; [reflexivity |].
    simpl length.
    destruct (Z.gtb_spec (Z.of_nat (S (length trace))) 0); [| lia].
    destruct (Z.eqb_spec (Z.of_nat (S (length trace))) 0); [lia |].
    reflexivity.
  - intros b. unfold CachePolicy.get_hit_ratio, CachePolicy.truediv.
    destruct (Z.gtb_spec (CachePolicy.hits b + CachePolicy.misses b) 0);
      [| discriminate].
    destruct (Z.eqb_spec (CachePolicy.hits b + CachePolicy.misses b) 0);
      [lia | discriminate].
Qed.

Lemma hit_ratio_is_hits_over_accesses_witness :
  let k := TDC (Some (1 # 2)%Q) in
  let s := final [1; 2; 1; 1] (new k 2) in
  0 < 2 /\ in_range k /\
  get_hit_ratio s = Ret (inject_Z 2 / inject_Z (2 + 2))%Q.
Proof.
  intros k s. assert (Hcap : 0 < 2) by lia.
  assert (Hd : in_range k) by (split; reflexivity).
  split; [exact Hcap |]. split; [exact Hd |].
  exact (proj1 (hit_ratio_is_hits_over_accesses k 2 [1; 2; 1; 1] Hcap Hd)).
Defined.

(** ** Construction *)

(** C9 as the spec has it fails on the code: the default of [decay_rate]
    is not 0.995. *)
Lemma default_decay_rate_is_not_0_995 :
  ~ (TimeDecayedCache.decay_rate (new (TDC None) 3) == 0.995)%Q.
Proof. vm_compute. discriminate. Qed.

(** C9, amended.  [TimeDecayedCache.__init__] takes a [decay_rate]
    parameter whose default value is 0.99, a real in the open interval
    (0, 1); a value that is passed is stored as it is. *)
Theorem decay_rate_parameter_and_default (capacity : Z) :
  TimeDecayedCache.decay_rate (new (TDC None) capacity) = 0.99%Q /\
  (0 < TimeDecayedCache.decay_rate (new (TDC None) capacity) < 1)%Q /\
  forall d : Q, TimeDecayedCache.decay_rate (new (TDC (Some d)) capacity) = d.
Proof.
  split; [reflexivity |]. split; [| reflexivity].
  split; reflexivity.
Qed.

(** ** Frame of a hit *)

(** C10. For every policy and every reachable state, a call that returns
    [True] leaves the resident set as it was (for ARC the union of T1 and
    T2), and with it the ghost lists and the target [p] of ARC, [capacity]
    and [misses]; [hits] and [time] go up by one. *)
Theorem hit_leaves_resident_set_unchanged
  (k : policy) (capacity : Z) (trace : list Z) (item : Z) :
  0 < capacity ->
  let s := final trace (new k capacity) in
  fst (access item s) = Ret true ->
  let s' := snd (access item s) in
  (forall x, resident x s' = resident x s) /\
  history k s' = history k s /\
  target k s' = target k s /\
  CachePolicy.capacity (base s') = CachePolicy.capacity (base s) /\
  CachePolicy.misses (base s') = CachePolicy.misses (base s) /\
  CachePolicy.hits (base s') = CachePolicy.hits (base s) + 1 /\
  CachePolicy.time (base s') = CachePolicy.time (base s) + 1.
Proof.
  intros Hcap s Hhit s'.
  pose proof (inv_final k capacity Hcap trace) as Hinv. fold s in Hinv.
  apply (hit_iff_resident k capacity Hcap item s Hinv) in Hhit.
  destruct (hit_frame k capacity Hcap item s Hinv Hhit) as (Hres & Hh & Ht).
  fold s' in Hres, Hh, Ht.
  split; [exact Hres |]. split; [exact Hh |]. split; [exact Ht |].
  unfold s'. rewrite (access_counted k capacity Hcap item s Hinv), Hhit.
  simpl. repeat split; reflexivity.
Qed.

Lemma hit_leaves_resident_set_unchanged_witness :
  let s := final [1; 1; 2; 3] (new ARC 2) in
  let s' := snd (access 3 s) in
  0 < 2 /\
  fst (access 3 s) = Ret true /\
  (forall x, resident x s' = resident x s) /\
  history ARC s' = history ARC s /\
  target ARC s' = target ARC s.
Proof.
  intros s s'. assert (Hcap : 0 < 2) by lia.
  assert (Hhit : fst (access 3 s) = Ret true) by reflexivity.
  split; [exact Hcap |]. split; [exact Hhit |].
  pose proof (hit_leaves_resident_set_unchanged ARC 2 [1; 1; 2; 3] 3
                Hcap Hhit) as (Hres & Hh & Ht & _).
  split; [exact Hres |]. split; [exact Hh | exact Ht].
Defined.

(** * Further properties of the policies *)

(** ** Calls that return, calls that raise *)

Section Outcomes.
Variable k : policy.
Variable capacity : Z.
Hypothesis capacity_pos : 0 < capacity.

Lemma results_step item rest (s : state k) :
  results (item :: rest) s =
  fst (access item s) :: results rest (snd (access item s)).
Proof. unfold results at 1. now rewrite run_cons. Qed.

(** What holds of the outcome of every call on a state of the invariant
    holds of every outcome of a trace. *)
Lemma results_all (P : outcome bool -> Prop) :
  (forall item (s : state k), Inv k capacity s -> P (fst (access item s))) ->
  forall trace (s : state k),
    Inv k capacity s -> Forall P (results trace s).
Proof using capacity_pos.
  intros HP trace. induction trace as [| item rest IH]; intros s Hinv.
  - constructor.
  - rewrite results_step. constructor; [now apply HP |].
    apply IH. now apply inv_access.
Qed.

Lemma returns_outside_arc item (s : state k) :
  k <> ARC -> Inv k capacity s ->
  fst (access item s) = Ret (resident item s).
Proof using capacity_pos.
  unfold Inv. destruct k; simpl; intros Hk H.
  - now apply (LRUFacts.lru_access_result capacity).
  - now apply (LFUFacts.lfu_access_result capacity).
  - contradiction.
  - destruct H as [H _]. now apply (TDCFacts.tdc_access_result capacity).
Qed.

(** The misses only grow. *)
Lemma misses_grow trace : forall s : state k,
  Inv k capacity s ->
  CachePolicy.misses (base s) <= CachePolicy.misses (base (final trace s)).
Proof using capacity_pos.
  induction trace as [| item rest IH]; intros s Hinv; [reflexivity |].
  rewrite final_cons.
  pose proof (IH _ (inv_access k capacity capacity_pos item s Hinv)) as H.
  rewrite (access_counted k capacity capacity_pos item s Hinv) in H at 1.
  unfold counted in H. destruct (resident item s); simpl in H; lia.
Qed.

End Outcomes.

(** X1. With a positive capacity no call to an [LRUCache], an [LFUCache]
    or a [TimeDecayedCache] whose [decay_rate] is in the documented range
    (0, 1) raises: every call returns, and it returns whether the item was
    resident. *)
Theorem calls_return_outside_arc
  (k : policy) (capacity : Z) (trace : list Z) (item : Z) :
  0 < capacity -> in_range k -> k <> ARC ->
  let s := final trace (new k capacity) in
  fst (access item s) = Ret (resident item s) /\
  Forall (fun o => exists hit, o = Ret hit) (results trace (new k capacity)).
Proof.
  intros Hcap _ Hk s. split.
  - apply (returns_outside_arc k capacity Hcap item s Hk).
    apply (inv_final k capacity Hcap).
  - apply (results_all k capacity Hcap); [| now apply inv_new].
    intros x s0 Hinv.
    rewrite (returns_outside_arc k capacity Hcap x s0 Hk Hinv). eauto.
Qed.

Lemma calls_return_outside_arc_witness :
  let k := TDC (Some (1 # 2)%Q) in
  let s := final [1; 2; 1; 3] (new k 2) in
  0 < 2 /\ in_range k /\ k <> ARC /\
  fst (access 2 s) = Ret (resident 2 s) /\
  Forall (fun o => exists hit, o = Ret hit) (results [1; 2; 1; 3] (new k 2)).
Proof.
  intros k s. assert (Hcap : 0 < 2) by lia.
  assert (Hd : in_range k) by (split; reflexivity).
  assert (Hk : k <> ARC) by discriminate.
  split; [exact Hcap |]. split; [exact Hd |]. split; [exact Hk |].
  exact (calls_return_outside_arc k 2 [1; 2; 1; 3] 2 Hcap Hd Hk).
Defined.

(** X2. A call to an [ARCCache] of positive capacity raises nothing but
    [KeyError], and only on a ghost hit in B2: the item is then neither
    resident nor in B1, and it is in B2.  Hits, ghost hits in B1 and
    complete misses always return. *)
Theorem arc_raises_only_at_ghost_hit_in_b2
  (capacity : Z) (trace : list Z) (item : Z) (e : exn) :
  0 < capacity ->
  let s := final trace (new ARC capacity) in
  fst (access item s) = Raise e ->
  e = KeyError /\
  resident item s = false /\
  OD.mem item (ARCCache.b1 s) = false /\
  OD.mem item (ARCCache.b2 s) = true.
Proof.
  intros Hcap s Hraise.
  pose proof (inv_final ARC capacity Hcap trace) as Hinv. fold s in Hinv.
  change (ARCFacts.Inv capacity s) in Hinv.
  change (fst (ARCCache.access item s) = Raise e) in Hraise.
  change (resident item s) with (ARCFacts.resident item s).
  destruct (ARCFacts.arc_access_spec capacity item s Hcap Hinv)
    as (_ & _ & _ & Hhit & Hmiss).
  assert (Hres : ARCFacts.resident item s = false).
  { destruct (ARCFacts.resident item s); [| reflexivity].
    destruct Hhit as [_ H]. rewrite (H eq_refl) in Hraise. discriminate. }
  destruct (Hmiss Hres) as [[Ho _] | [Hb2 Ho]];
    [rewrite Ho in Hraise; discriminate |].
  rewrite Ho in Hraise. injection Hraise as <-.
  repeat split; try assumption.
  (* a ghost hit in B1 returns *)
  destruct (OD.mem item (ARCCache.b1 s)) eqn:Hb1; [| reflexivity].
  rewrite ARCFacts.arc_access_cases in Ho.
  unfold ARCFacts.resident in Hres.
  apply orb_false_iff in Hres. destruct Hres as [H1 H2].
  rewrite H1, H2, Hb1 in Ho.
  set (s0 := ARCCache.set_p _ _) in Ho.
  assert (Hinv0 : ARCFacts.Inv capacity s0).
  { destruct Hinv as (Hb & Hc & Hp & Hr & Hl1 & Hl2).
    unfold ARCFacts.Inv, s0. simpl. pose proof (ARCFacts.arc_delta1_pos s).
    lia. }
  destruct (ARCFacts.arc_ghost_hit_spec capacity item false s0 Hcap Hinv0
              (fun _ => Hb1)) as (_ & _ & [[Hr _] | [[=] _]]).
  rewrite Hr in Ho. discriminate.
Qed.

Lemma arc_raises_only_at_ghost_hit_in_b2_witness :
  let s := final [1; 1; 2; 2] (new ARC 1) in
  0 < 1 /\ fst (access 1 s) = Raise KeyError /\
  resident 1 s = false /\
  OD.mem 1 (ARCCache.b1 s) = false /\
  OD.mem 1 (ARCCache.b2 s) = true.
Proof.
  intros s. assert (Hcap : 0 < 1) by lia.
  assert (Hraise : fst (access 1 s) = Raise KeyError) by reflexivity.
  split; [exact Hcap |]. split; [exact Hraise |].
  exact (proj2 (arc_raises_only_at_ghost_hit_in_b2 1 [1; 1; 2; 2] 1 KeyError
                  Hcap Hraise)).
Defined.

(** ** The bookkeeping of LFU *)

(** X3. In every reachable state of an [LFUCache] of positive capacity,
    each cached item is in the bucket of its frequency and in no other
    bucket, every frequency is at least 1, and, unless the cache is empty,
    [min_freq] is the least frequency of a cached item. *)
Theorem lfu_buckets_match_frequencies (capacity : Z) (trace : list Z) :
  0 < capacity ->
  let s := final trace (new LFU capacity) in
  (forall x f,
     Dict.get x (LFUCache.cache s) = Some f <->
     OD.mem x (LFUFacts.items_at f (LFUCache.freq_to_items s)) = true) /\
  (forall x f,
     Dict.get x (LFUCache.cache s) = Some f ->
     1 <= f /\ LFUCache.min_freq s <= f) /\
  (forall x,
     Dict.mem x (LFUCache.cache s) = true ->
     exists y, Dict.get y (LFUCache.cache s) = Some (LFUCache.min_freq s)).
Proof.
  intros Hcap s.
  pose proof (inv_final LFU capacity Hcap trace) as Hinv. fold s in Hinv.
  change (LFUFacts.Inv capacity s) in Hinv.
  destruct Hinv as [_ _ Hlinked Hpos Hleast Hatt].
  split; [exact Hlinked |]. split; [| exact Hatt].
  intros x f Hf. split; [now apply (Hpos x) | now apply (Hleast x)].
Qed.

Lemma lfu_buckets_match_frequencies_witness :
  let s := final [1; 1; 2; 3; 3; 3] (new LFU 2) in
  0 < 2 /\
  (forall x f,
     Dict.get x (LFUCache.cache s) = Some f <->
     OD.mem x (LFUFacts.items_at f (LFUCache.freq_to_items s)) = true).
Proof.
  intros s. assert (Hcap : 0 < 2) by lia. split; [exact Hcap |].
  exact (proj1 (lfu_buckets_match_frequencies 2 [1; 1; 2; 3; 3; 3] Hcap)).
Defined.

(** ** The hit ratio *)

Lemma ratio_bounds (h n : Z) :
  0 <= h <= n -> 0 < n ->
  (0 <= inject_Z h / inject_Z n <= 1)%Q /\
  (h < n -> (inject_Z h / inject_Z n < 1)%Q).
Proof.
  intros [H0 Hn] Hpos.
  assert (Hq : (0 < inject_Z n)%Q) by (unfold Qlt; simpl; lia).
  repeat split.
  - apply Qle_shift_div_l; [exact Hq |]. rewrite Qmult_0_l.
    unfold Qle; simpl; lia.
  - apply Qle_shift_div_r; [exact Hq |]. rewrite Qmult_1_l.
    unfold Qle; simpl; lia.
  - intros Hlt. apply Qlt_shift_div_r; [exact Hq |]. rewrite Qmult_1_l.
    unfold Qlt; simpl; lia.
Qed.

(** The hit ratio of counters with at least one call. *)
Lemma hit_ratio_counted (b : CachePolicy.t) :
  0 < CachePolicy.hits b + CachePolicy.misses b ->
  CachePolicy.get_hit_ratio b =
  Ret (inject_Z (CachePolicy.hits b)
       / inject_Z (CachePolicy.hits b + CachePolicy.misses b))%Q.
Proof.
  intros H. unfold CachePolicy.get_hit_ratio, CachePolicy.truediv.
  destruct (Z.gtb_spec (CachePolicy.hits b + CachePolicy.misses b) 0); [| lia].
  destruct (Z.eqb_spec (CachePolicy.hits b + CachePolicy.misses b) 0);
    [lia | reflexivity].
Qed.

(** The first call on a fresh object is a miss. *)
Lemma first_call_misses (k : policy) (capacity : Z) (trace : list Z) :
  0 < capacity -> trace <> [] ->
  1 <= CachePolicy.misses (base (final trace (new k capacity))).
Proof.
  intros Hcap Hne. destruct trace as [| item rest]; [contradiction |].
  rewrite final_cons.
  pose proof (inv_new k capacity Hcap) as Hinv.
  pose proof (misses_grow k capacity Hcap rest _
                (inv_access k capacity Hcap item _ Hinv)) as H.
  rewrite (access_counted k capacity Hcap item _ Hinv) in H at 1.
  assert (Hfresh : resident item (new k capacity) = false)
    by (destruct k; reflexivity).
  rewrite Hfresh in H.
  assert (H0 : CachePolicy.misses (base (new k capacity)) = 0)
    by (destruct k; reflexivity).
  unfold counted in H. simpl in H. lia.
Qed.

(** X4. For every policy of positive capacity and every trace,
    [get_hit_ratio] returns a value between 0 and 1, and a value below 1
    as soon as a call has been made: the first call is always a miss. *)
Theorem hit_ratio_between_0_and_1
  (k : policy) (capacity : Z) (trace : list Z) :
  0 < capacity ->
  exists r,
    get_hit_ratio (final trace (new k capacity)) = Ret r /\
    (0 <= r <= 1)%Q /\
    (trace <> [] -> (r < 1)%Q).
Proof.
  intros Hcap.
  destruct (counters_final k capacity Hcap trace) as (Hsum & Htime & Hh & Hm).
  set (b := base (final trace (new k capacity))) in *.
  destruct trace as [| item rest].
  - exists 0%Q. split; [destruct k; reflexivity |].
    split; [split; discriminate | intros H; contradiction].
  - pose proof (first_call_misses k capacity (item :: rest) Hcap) as Hfirst.
    fold b in Hfirst. specialize (Hfirst ltac:(discriminate)).
    assert (Hpos : 0 < CachePolicy.hits b + CachePolicy.misses b) by lia.
    exists (inject_Z (CachePolicy.hits b)
            / inject_Z (CachePolicy.hits b + CachePolicy.misses b))%Q.
    split; [now apply hit_ratio_counted |].
    destruct (ratio_bounds (CachePolicy.hits b)
                (CachePolicy.hits b + CachePolicy.misses b)) as [Hb Hlt];
      [lia | lia |].
    split; [exact Hb |]. intros _. apply Hlt. lia.
Qed.

Lemma hit_ratio_between_0_and_1_witness :
  0 < 2 /\
  exists r,
    get_hit_ratio (final [1; 2; 1; 3] (new ARC 2)) = Ret r /\
    (0 <= r <= 1)%Q /\
    ([1; 2; 1; 3] <> [] -> (r < 1)%Q).
Proof.
  assert (Hcap : 0 < 2) by lia. split; [exact Hcap |].
  exact (hit_ratio_between_0_and_1 ARC 2 [1; 2; 1; 3] Hcap).
Defined.

(** * [experiment.py] *)

Module Experiment.

(** [ExperimentRunner.__init__]: [self.algorithms], from the name of an
    algorithm to the policy that its constructor makes of a capacity. *)
Definition algorithms : list (string * policy) :=
  [("Proposed"%string, TDC (Some 0.995%Q));
   ("LRU"%string, LRU);
   ("LFU"%string, LFU);
   ("ARC"%string, ARC)].

(** [d[name]] on a dictionary with string keys *)
Fixpoint lookup (name : string) (d : list (string * policy)) : outcome policy :=
  match d with
  | [] => Raise KeyError
  | (n, k) :: rest => if String.eqb n name then Ret k else lookup name rest
  end.

(** [for item in trace: cache.access(int(item))]; the loop ends at the
    first call that raises. *)
Fixpoint access_each {S : Type} `{Policy S} (trace : list Z) : Py S unit :=
  match trace with
  | [] => ret tt
  | item :: rest => access item ;; access_each rest
  end.

(** [ExperimentRunner.run_single_experiment] *)
Definition run_single_experiment
  (trace : list Z) (cache_size : Z) (algorithm_name : string)
  : outcome CachePolicy.stats :=
  match lookup algorithm_name algorithms with
  | Raise e => Raise e
  | Ret k =>
      let (o, cache) := access_each trace (new k cache_size) in
      match o with
      | Ret _ => get_stats cache
      | Raise e => Raise e
      end
  end.

(** [a / b] on integers *)
Definition truediv (a b : Z) : outcome Q :=
  if b =? 0 then Raise ZeroDivisionError
  else Ret (inject_Z a / inject_Z b)%Q.

(** [l[start:]]; a negative [start] counts from the end. *)
Definition slice_from (start : Z) (l : list Z) : list Z :=
  let n := Z.of_nat (length l) in
  let first := if start <? 0 then Z.max 0 (n + start) else Z.min start n in
  skipn (Z.to_nat first) l.

(** [sum(l)] *)
Definition sum (l : list Z) : Z := fold_left Z.add l 0.

(** What [run_sliding_window_experiment] holds for one algorithm: its
    entries in the dictionaries [caches], [window_hits] and [results],
    which share their keys and their order. *)
Record tracker : Type := mk_tracker {
  name : string;
  kind : policy;
  cache : state kind;
  window_hits : list Z;
  results : list Q
}.

(** The body of the inner loop for one algorithm, at index [i]. *)
Definition observe (window_size i item : Z) (t : tracker) : outcome tracker :=
  match access item (cache t) with
  | (Raise e, _) => Raise e
  | (Ret hit, cache') =>
      let window_hits' := window_hits t ++ [if hit then 1 else 0] in
      if i >=? window_size then
        (* the sliding window hit ratio *)
        let window := slice_from (- window_size) window_hits' in
        match truediv (sum window) window_size with
        | Raise e => Raise e
        | Ret hit_ratio =>
            Ret (mk_tracker (name t) (kind t) cache' window_hits'
                            (results t ++ [hit_ratio]))
        end
      else Ret (mk_tracker (name t) (kind t) cache' window_hits' (results t))
  end.

(** [for name, cache in caches.items(): ...] *)
Fixpoint observe_all (window_size i item : Z) (ts : list tracker)
  : outcome (list tracker) :=
  match ts with
  | [] => Ret []
  | t :: rest =>
      match observe window_size i item t with
      | Raise e => Raise e
      | Ret t' =>
          match observe_all window_size i item rest with
          | Raise e => Raise e
          | Ret rest' => Ret (t' :: rest')
          end
      end
  end.

(** [for i, item in enumerate(trace): ...], from the index [i] on *)
Fixpoint observe_trace (window_size i : Z) (trace : list Z) (ts : list tracker)
  : outcome (list tracker) :=
  match trace with
  | [] => Ret ts
  | item :: rest =>
      match observe_all window_size i item ts with
      | Raise e => Raise e
      | Ret ts' => observe_trace window_size (i + 1) rest ts'
      end
  end.

(** [ExperimentRunner.run_sliding_window_experiment] *)
Definition run_sliding_window_experiment
  (trace : list Z) (cache_size window_size : Z)
  : outcome (list (string * list Q)) :=
  let ts := map (fun a => mk_tracker (fst a) (snd a)
                                     (new (snd a) cache_size) [] [])
                algorithms in
  match observe_trace window_size 0 trace ts with
  | Raise e => Raise e
  | Ret ts' => Ret (map (fun t => (name t, results t)) ts')
  end.

(** [calculate_delta] *)
Definition calculate_delta (hit_ratio_proposed hit_ratio_baseline : Q) : Q :=
  if Qeq_bool hit_ratio_proposed 0 then 0%Q
  else ((hit_ratio_proposed - hit_ratio_baseline) / hit_ratio_proposed * 100)%Q.

End Experiment.

(** ** One algorithm on one trace *)

Section SingleExperiment.
Variable k : policy.
Variable capacity : Z.
Hypothesis capacity_pos : 0 < capacity.

(** A call that raises is a call to an [ARCCache], and raises
    [KeyError]. *)
Lemma raise_is_arc_keyerror item (s : state k) e :
  Inv k capacity s -> fst (access item s) = Raise e ->
  k = ARC /\ e = KeyError.
Proof using capacity_pos.
  intros Hinv Hraise. destruct (resident item s) eqn:Hres.
  - apply (hit_iff_resident k capacity capacity_pos item s Hinv) in Hres.
    rewrite Hres in Hraise. discriminate.
  - destruct (miss_outcome k capacity capacity_pos item s Hinv Hres)
      as [[Ho _] | [Ho (ghost & Hin & _)]]; rewrite Ho in Hraise;
      [discriminate |].
    injection Hraise as <-. split; [| reflexivity].
    destruct k; simpl in Hin; try contradiction. reflexivity.
Qed.

(** The loop over a trace either makes all the calls, or stops at a call
    to an [ARCCache] that raises [KeyError]. *)
Lemma access_each_spec trace : forall s : state k,
  Inv k capacity s ->
  Experiment.access_each trace s = (Ret tt, final trace s) \/
  (k = ARC /\ fst (Experiment.access_each trace s) = Raise KeyError).
Proof using capacity_pos.
  induction trace as [| item rest IH]; intros s Hinv.
  - left. reflexivity.
  - simpl Experiment.access_each. unfold bind. rewrite final_cons.
    destruct (access item s) as [o s1] eqn:E.
    pose proof (inv_access k capacity capacity_pos item s Hinv) as Hinv1.
    rewrite E in Hinv1. simpl in Hinv1. simpl snd.
    destruct o as [hit | e].
    + apply IH, Hinv1.
    + right. simpl.
      destruct (raise_is_arc_keyerror item s e Hinv) as [Hk ->];
        [now rewrite E |].
      now split.
Qed.

End SingleExperiment.

(** The names of [self.algorithms]. *)
Lemma lookup_algorithms (name : string) :
  match Experiment.lookup name Experiment.algorithms with
  | Ret k => In (name, k) Experiment.algorithms
  | Raise e => e = KeyError /\ forall k, ~ In (name, k) Experiment.algorithms
  end.
Proof.
  unfold Experiment.algorithms, Experiment.lookup.
  destruct (String.eqb_spec "Proposed" name) as [<- | H1]; [now left |].
  destruct (String.eqb_spec "LRU" name) as [<- | H2]; [right; now left |].
  destruct (String.eqb_spec "LFU" name) as [<- | H3];
    [right; right; now left |].
  destruct (String.eqb_spec "ARC" name) as [<- | H4];
    [right; right; right; now left |].
  split; [reflexivity |].
  intros k [[= E _] | [[= E _] | [[= E _] | [[= E _] | []]]]]; congruence.
Qed.

(** X5. [run_single_experiment] with a positive cache size: when it
    returns, the statistics count one hit or miss per trace element and
    the hit ratio is [hits] over the length of the trace (0.0 on an empty
    trace); when it raises, it raises [KeyError], and either the name is
    none of [self.algorithms] or the algorithm is ARC. *)
Theorem run_single_experiment_counts_the_trace
  (trace : list Z) (cache_size : Z) (algorithm_name : string) :
  0 < cache_size ->
  match Experiment.run_single_experiment trace cache_size algorithm_name with
  | Ret st =>
      CachePolicy.stats_hits st + CachePolicy.stats_misses st
      = Z.of_nat (length trace) /\
      0 <= CachePolicy.stats_hits st /\
      0 <= CachePolicy.stats_misses st /\
      CachePolicy.stats_hit_ratio st =
      match trace with
      | [] => 0%Q
      | _ :: _ => (inject_Z (CachePolicy.stats_hits st)
                   / inject_Z (CachePolicy.stats_hits st
                               + CachePolicy.stats_misses st))%Q
      end
  | Raise e =>
      e = KeyError /\
      (algorithm_name = "ARC"%string \/
       forall k, ~ In (algorithm_name, k) Experiment.algorithms)
  end.
Proof.
  intros Hcap. unfold Experiment.run_single_experiment.
  pose proof (lookup_algorithms algorithm_name) as Hlook.
  destruct (Experiment.lookup algorithm_name Experiment.algorithms)
    as [k | e]; [| destruct Hlook as [-> Hno]; split; [reflexivity | now right]].
  destruct (access_each_spec k cache_size Hcap trace _
              (inv_new k cache_size Hcap)) as [E | [Hk E]].
  - rewrite E.
    destruct (counters_final k cache_size Hcap trace) as (Hsum & Htime & Hh & Hm).
    set (b := base (final trace (new k cache_size))) in *.
    unfold get_stats, CachePolicy.get_stats. fold b.
    destruct trace as [| item rest].
    + assert (Hr : CachePolicy.get_hit_ratio b = Ret 0%Q)
        by (destruct k; reflexivity).
      rewrite Hr. simpl. simpl length in Htime. repeat split; try lia.
    + rewrite hit_ratio_counted by (simpl length in Htime; lia).
      cbn [CachePolicy.stats_hits CachePolicy.stats_misses
           CachePolicy.stats_hit_ratio].
      repeat split; try lia.
  - destruct (Experiment.access_each trace (new k cache_size)) as [o s].
    simpl in E. subst o. split; [reflexivity |]. left. subst k.
    unfold Experiment.algorithms in Hlook.
    destruct Hlook as [[= _ _] | [[= _ _] | [[= _ _] | [[= <- ] | []]]]].
    reflexivity.
Qed.

Lemma run_single_experiment_counts_the_trace_witness :
  0 < 2 /\
  match Experiment.run_single_experiment [1; 2; 1; 3] 2 "Proposed" with
  | Ret st =>
      CachePolicy.stats_hits st + CachePolicy.stats_misses st = 4
  | Raise e => e = KeyError
  end.
Proof.
  assert (Hcap : 0 < 2) by lia. split; [exact Hcap |].
  pose proof (run_single_experiment_counts_the_trace [1; 2; 1; 3] 2
                "Proposed" Hcap) as H.
  destruct (Experiment.run_single_experiment [1; 2; 1; 3] 2 "Proposed").
  - exact (proj1 H).
  - exact (proj1 H).
Defined.

(** ** The delta metric *)

Lemma scaled_sign (c y : Q) :
  (0 < c)%Q ->
  ((0 < c * y <-> 0 < y) /\ (c * y < 0 <-> y < 0) /\
   (c * y == 0 <-> y == 0))%Q.
Proof.
  destruct c as [cn cd], y as [yn yd].
  unfold Qlt, Qeq, Qmult. simpl. intros Hc. nia.
Qed.

Lemma delta_formula (p b : Q) :
  (0 < p)%Q -> (Experiment.calculate_delta p b == (100 / p) * (p - b))%Q.
Proof.
  intros Hp. unfold Experiment.calculate_delta.
  destruct (Qeq_bool p 0) eqn:E.
  - apply Qeq_bool_eq in E. rewrite E in Hp. discriminate.
  - field. intros H. rewrite H in Hp. discriminate.
Qed.

(** X6. [calculate_delta] on a positive hit ratio of the proposed policy:
    the result is positive exactly when the baseline is below the proposed
    policy, negative exactly when it is above, zero exactly when the two
    are equal, and it is at most 100 for a non-negative baseline. *)
Theorem calculate_delta_sign (p b : Q) :
  (0 < p)%Q ->
  ((0 < Experiment.calculate_delta p b <-> b < p) /\
   (Experiment.calculate_delta p b < 0 <-> p < b) /\
   (Experiment.calculate_delta p b == 0 <-> b == p) /\
   (0 <= b -> Experiment.calculate_delta p b <= 100))%Q.
Proof.
  intros Hp.
  assert (Hc : (0 < 100 / p)%Q).
  { apply Qlt_shift_div_l; [exact Hp |]. rewrite Qmult_0_l. reflexivity. }
  destruct (scaled_sign (100 / p) (p - b) Hc) as (Hpos & Hneg & Hzero).
  rewrite delta_formula by assumption.
  split; [| split; [| split]].
  - rewrite Hpos. destruct p, b. unfold Qlt, Qminus, Qplus, Qopp. simpl. lia.
  - rewrite Hneg. destruct p, b. unfold Qlt, Qminus, Qplus, Qopp. simpl. lia.
  - rewrite Hzero. destruct p, b. unfold Qeq, Qminus, Qplus, Qopp. simpl. lia.
  - intros Hb.
    assert (E : (100 / p * (p - b) == 100 - (100 / p) * b)%Q).
    { field. intros H. rewrite H in Hp. discriminate. }
    rewrite E.
    assert (H : (0 <= 100 / p * b)%Q).
    { apply Qmult_le_0_compat; [now apply Qlt_le_weak | exact Hb]. }
    apply (Qplus_le_l _ _ (100 / p * b)).
    assert (E2 : (100 - 100 / p * b + 100 / p * b == 100 + 0)%Q) by ring.
    rewrite E2. apply Qplus_le_r. exact H.
Qed.

Lemma calculate_delta_sign_witness :
  (0 < 0.5)%Q /\
  ((0 < Experiment.calculate_delta 0.5 0.4 <-> 0.4 < 0.5) /\
   (Experiment.calculate_delta 0.5 0.4 < 0 <-> 0.5 < 0.4) /\
   (Experiment.calculate_delta 0.5 0.4 == 0 <-> 0.4 == 0.5) /\
   (0 <= 0.4 -> Experiment.calculate_delta 0.5 0.4 <= 100))%Q.
Proof.
  assert (Hp : (0 < 0.5)%Q) by reflexivity. split; [exact Hp |].
  exact (calculate_delta_sign 0.5 0.4 Hp).
Defined.

(** * Capacities that are not positive *)

(** The constructors take any integer as [capacity]. *)

Section DriverSteps.
Context {S : Type} `{Policy S}.

Lemma results_next item rest (s : S) :
  results (item :: rest) s =
  fst (access item s) :: results rest (snd (access item s)).
Proof. unfold results at 1. now rewrite run_cons. Qed.

End DriverSteps.

(** ** LRU *)

Lemma lru_access_without_capacity item (s : LRUCache.t) :
  LRUCache.cache s = [] ->
  CachePolicy.capacity (LRUCache.base s) <= 0 ->
  LRUCache.access item s =
  (Raise KeyError, LRUCache.mk (counted false (LRUCache.base s)) []).
Proof.
  intros Hempty Hcap.
  rewrite LRUFacts.lru_access_miss by (now rewrite Hempty).
  rewrite Hempty.
  destruct (Z.geb_spec (OD.len []) (CachePolicy.capacity (LRUCache.base s)))
    as [_ | H]; [reflexivity |].
  rewrite ODFacts.od_len_nil in H. lia.
Qed.

Lemma lru_trace_without_capacity trace : forall s : LRUCache.t,
  LRUCache.cache s = [] ->
  CachePolicy.capacity (LRUCache.base s) <= 0 ->
  results trace s = map (fun _ => Raise KeyError) trace /\
  LRUCache.cache (final trace s) = [] /\
  CachePolicy.hits (LRUCache.base (final trace s))
  = CachePolicy.hits (LRUCache.base s) /\
  CachePolicy.misses (LRUCache.base (final trace s))
  = CachePolicy.misses (LRUCache.base s) + Z.of_nat (length trace).
Proof.
  induction trace as [| item rest IH]; intros s Hempty Hcap.
  - unfold results, final. simpl. repeat split; try assumption; lia.
  - rewrite results_next, final_cons.
    change (access item s) with (LRUCache.access item s).
    rewrite (lru_access_without_capacity item s Hempty Hcap).
    cbn [fst snd].
    destruct (IH (LRUCache.mk (counted false (LRUCache.base s)) []))
      as (Hr & Hc & Hh & Hm); [reflexivity | exact Hcap |].
    rewrite Hr, Hc, Hh, Hm. simpl length. simpl.
    repeat split; lia.
Qed.

(** X7. An [LRUCache] constructed with a capacity of 0 or less never
    caches anything: every call counts a miss and raises [KeyError], from
    [popitem] on the empty [OrderedDict]. *)
Theorem lru_without_capacity_always_raises (capacity : Z) (trace : list Z) :
  capacity <= 0 ->
  let s := final trace (new LRU capacity) in
  results trace (new LRU capacity) = map (fun _ => Raise KeyError) trace /\
  LRUCache.cache s = [] /\
  CachePolicy.hits (base s) = 0 /\
  CachePolicy.misses (base s) = Z.of_nat (length trace).
Proof.
  intros Hcap s.
  destruct (lru_trace_without_capacity trace (new LRU capacity))
    as (Hr & Hc & Hh & Hm); [reflexivity | exact Hcap |].
  repeat split; assumption.
Qed.

Lemma lru_without_capacity_always_raises_witness :
  0 <= 0 /\
  results [5; 5; 7] (new LRU 0) = [Raise KeyError; Raise KeyError;
                                   Raise KeyError].
Proof.
  assert (H : 0 <= 0) by lia. split; [exact H |].
  exact (proj1 (lru_without_capacity_always_raises 0 [5; 5; 7] H)).
Defined.

(** ** LFU *)

Lemma lfu_access_without_capacity item (s : LFUCache.t) :
  LFUCache.cache s = [] ->
  LFUFacts.items_at (LFUCache.min_freq s) (LFUCache.freq_to_items s) = [] ->
  CachePolicy.capacity (LFUCache.base s) <= 0 ->
  exists s',
    LFUCache.access item s = (Raise StopIteration, s') /\
    LFUCache.cache s' = [] /\
    LFUCache.min_freq s' = LFUCache.min_freq s /\
    LFUFacts.items_at (LFUCache.min_freq s) (LFUCache.freq_to_items s') = [] /\
    LFUCache.base s' = counted false (LFUCache.base s).
Proof.
  intros Hempty Hbucket Hcap.
  rewrite LFUFacts.lfu_access_miss by (now rewrite Hempty).
  rewrite Hempty.
  destruct (Z.geb_spec (Dict.len (@nil (Z * Z)))
              (CachePolicy.capacity (LFUCache.base s))) as [_ | H];
    [| unfold Dict.len in H; simpl in H; lia].
  unfold when, LFUCache.evict.
  unfold bind at 1. unfold bind at 1, gets at 1.
  change (LFUCache.min_freq (LFUFacts.missed s)) with (LFUCache.min_freq s).
  destruct (LFUFacts.lfu_in_bucket (LFUCache.min_freq s) OD.first
              (LFUFacts.missed s)) as (s' & E & Hb & Hc & Hm & _ & Hat).
  change (LFUCache.freq_to_items (LFUFacts.missed s))
    with (LFUCache.freq_to_items s) in E, Hat.
  rewrite Hbucket in E, Hat. simpl in E, Hat.
  unfold bind at 1. rewrite E.
  exists s'. split; [reflexivity |]. split; [now rewrite Hc |].
  split; [exact Hm |]. split; [| exact Hb].
  now rewrite Hat, Z.eqb_refl.
Qed.

Lemma lfu_trace_without_capacity trace : forall s : LFUCache.t,
  LFUCache.cache s = [] ->
  LFUFacts.items_at (LFUCache.min_freq s) (LFUCache.freq_to_items s) = [] ->
  CachePolicy.capacity (LFUCache.base s) <= 0 ->
  results trace s = map (fun _ => Raise StopIteration) trace /\
  LFUCache.cache (final trace s) = [] /\
  CachePolicy.hits (LFUCache.base (final trace s))
  = CachePolicy.hits (LFUCache.base s) /\
  CachePolicy.misses (LFUCache.base (final trace s))
  = CachePolicy.misses (LFUCache.base s) + Z.of_nat (length trace).
Proof.
  induction trace as [| item rest IH]; intros s Hempty Hbucket Hcap.
  - unfold results, final. simpl. repeat split; try assumption; lia.
  - rewrite results_next, final_cons.
    change (access item s) with (LFUCache.access item s).
    destruct (lfu_access_without_capacity item s Hempty Hbucket Hcap)
      as (s' & -> & Hc' & Hm' & Hb' & Hbase).
    cbn [fst snd].
    destruct (IH s') as (Hr & Hc & Hh & Hm);
      [exact Hc' | now rewrite Hm' | now rewrite Hbase |].
    rewrite Hr, Hc, Hh, Hm, Hbase. simpl length. simpl.
    repeat split; lia.
Qed.

(** X8. An [LFUCache] constructed with a capacity of 0 or less never
    caches anything: every call counts a miss and raises
    [StopIteration], from [next(iter(...))] on an empty bucket. *)
Theorem lfu_without_capacity_always_raises (capacity : Z) (trace : list Z) :
  capacity <= 0 ->
  let s := final trace (new LFU capacity) in
  results trace (new LFU capacity) = map (fun _ => Raise StopIteration) trace /\
  LFUCache.cache s = [] /\
  CachePolicy.hits (base s) = 0 /\
  CachePolicy.misses (base s) = Z.of_nat (length trace).
Proof.
  intros Hcap s.
  destruct (lfu_trace_without_capacity trace (new LFU capacity))
    as (Hr & Hc & Hh & Hm); [reflexivity | reflexivity | exact Hcap |].
  repeat split; assumption.
Qed.

Lemma lfu_without_capacity_always_raises_witness :
  -1 <= 0 /\
  results [5; 5; 7] (new LFU (-1)) = [Raise StopIteration; Raise StopIteration;
                                      Raise StopIteration].
Proof.
  assert (H : -1 <= 0) by lia. split; [exact H |].
  exact (proj1 (lfu_without_capacity_always_raises (-1) [5; 5; 7] H)).
Defined.

(** ** ARC *)

Lemma arc_access_without_capacity item (s : ARCCache.t) :
  ARCCache.c s = 0 ->
  ARCCache.t1 s = [] -> ARCCache.t2 s = [] ->
  ARCCache.b1 s = [] -> ARCCache.b2 s = [] ->
  ARCCache.access item s =
  (Raise KeyError, ARCFacts.counted_state false s).
Proof.
  intros Hc H1 H2 H3 H4. rewrite ARCFacts.arc_access_cases.
  rewrite H1, H2, H3, H4. cbn [OD.mem existsb].
  destruct s as [b c p t1 t2 b1 b2]. simpl in *. subst. reflexivity.
Qed.

Lemma arc_trace_without_capacity trace : forall s : ARCCache.t,
  ARCCache.c s = 0 ->
  ARCCache.t1 s = [] -> ARCCache.t2 s = [] ->
  ARCCache.b1 s = [] -> ARCCache.b2 s = [] ->
  results trace s = map (fun _ => Raise KeyError) trace /\
  size (final trace s) = 0 /\
  CachePolicy.hits (ARCCache.base (final trace s))
  = CachePolicy.hits (ARCCache.base s) /\
  CachePolicy.misses (ARCCache.base (final trace s))
  = CachePolicy.misses (ARCCache.base s) + Z.of_nat (length trace).
Proof.
  induction trace as [| item rest IH]; intros s Hc H1 H2 H3 H4.
  - unfold results, final. simpl. rewrite H1, H2. repeat split; lia.
  - rewrite results_next, final_cons.
    change (access item s) with (ARCCache.access item s).
    rewrite (arc_access_without_capacity item s Hc H1 H2 H3 H4).
    cbn [fst snd].
    destruct (IH (ARCFacts.counted_state false s))
      as (Hr & Hs & Hh & Hm); try assumption.
    rewrite Hr, Hs, Hh, Hm. simpl length. simpl.
    repeat split; lia.
Qed.

(** X9. An [ARCCache] constructed with capacity 0 never caches anything:
    every call counts a miss and raises [KeyError], from [popitem] on the
    empty T1. *)
Theorem arc_without_capacity_always_raises (trace : list Z) :
  let s := final trace (new ARC 0) in
  results trace (new ARC 0) = map (fun _ => Raise KeyError) trace /\
  size s = 0 /\
  CachePolicy.hits (base s) = 0 /\
  CachePolicy.misses (base s) = Z.of_nat (length trace).
Proof.
  intros s.
  destruct (arc_trace_without_capacity trace (new ARC 0))
    as (Hr & Hs & Hh & Hm); try reflexivity.
  repeat split; assumption.
Qed.

(** * What an LRU cache holds *)

(** The last [n] elements of a list, all of it when it is shorter. *)
Definition lastn {A} (n : nat) (l : list A) : list A :=
  skipn (length l - n) l.

(** The order of last access after a call on [x]: [x] becomes the most
    recent item. *)
Definition touch (r : list Z) (x : Z) : list Z := OD.remove x r ++ [x].

(** The distinct items of a trace in the order of their last access, the
    least recent first. *)
Definition recency (trace : list Z) : list Z := fold_left touch trace [].

Lemma lastn_all {A} n (l : list A) : (length l <= n)%nat -> lastn n l = l.
Proof.
  intros H. unfold lastn. replace (length l - n)%nat with 0%nat by lia.
  reflexivity.
Qed.

Lemma lastn_app_exact {A} n (p m : list A) :
  length m = n -> lastn n (p ++ m) = m.
Proof.
  intros H. unfold lastn. rewrite length_app.
  replace (length p + length m - n)%nat with (length p) by lia.
  rewrite skipn_app, skipn_all, Nat.sub_diag. reflexivity.
Qed.

Lemma lastn_split {A} n (l : list A) :
  exists p, l = p ++ lastn n l /\
            length (lastn n l) = Nat.min n (length l) /\
            ((length l <= n)%nat -> p = []).
Proof.
  exists (firstn (length l - n) l). unfold lastn. split; [| split].
  - now rewrite firstn_skipn.
  - rewrite length_skipn. lia.
  - intros H. replace (length l - n)%nat with 0%nat by lia. reflexivity.
Qed.

Lemma remove_notin x l : ~ In x l -> OD.remove x l = l.
Proof.
  intros H. unfold OD.remove. apply forallb_filter_id, forallb_forall.
  intros y Hy. destruct (Z.eqb_spec y x) as [-> | _]; [contradiction | reflexivity].
Qed.

Lemma remove_app x l m : OD.remove x (l ++ m) = OD.remove x l ++ OD.remove x m.
Proof. apply filter_app. Qed.

Lemma remove_length_in x l :
  NoDup l -> In x l -> S (length (OD.remove x l)) = length l.
Proof.
  induction l as [| y l IH]; [contradiction |].
  intros Hd Hin. inversion Hd as [| ? ? Hy Hd']; subst.
  unfold OD.remove in *. simpl.
  destruct (Z.eqb_spec y x) as [-> | Hne]; simpl.
  - fold (OD.remove x l). now rewrite remove_notin.
  - destruct Hin as [E | Hin]; [contradiction |].
    now rewrite IH.
Qed.

Lemma lastn_touch_hit c r x :
  NoDup r -> In x (lastn c r) ->
  lastn c (touch r x) = touch (lastn c r) x.
Proof.
  intros Hd Hin. destruct (lastn_split c r) as (p & E & Hlen & Hshort).
  set (L := lastn c r) in *.
  assert (Hp : ~ In x p).
  { rewrite E in Hd. intros Hx.
    apply NoDup_app_remove_l in Hd as Hd2.
    clear - Hd Hx Hin. induction p as [| a p IH]; [contradiction |].
    simpl in Hd. inversion Hd; subst. destruct Hx as [-> | Hx].
    - apply H1. apply in_or_app. now right.
    - now apply IH. }
  assert (HdL : NoDup L) by (rewrite E in Hd; now apply NoDup_app_remove_l in Hd).
  unfold touch. rewrite E at 1. rewrite remove_app, (remove_notin x p Hp).
  rewrite <- app_assoc.
  pose proof (remove_length_in x L HdL Hin) as HlenL.
  destruct (Nat.le_gt_cases (length r) c) as [Hs | Hl].
  - rewrite (Hshort Hs). simpl. apply lastn_all.
    rewrite length_app. simpl. lia.
  - apply lastn_app_exact. rewrite length_app. simpl. lia.
Qed.

Lemma lastn_touch_full c r x a rest :
  (0 < c)%nat -> lastn c r = a :: rest -> ~ In x (lastn c r) ->
  (c <= length r)%nat ->
  lastn c (touch r x) = rest ++ [x].
Proof.
  intros Hc EL Hout Hfull. destruct (lastn_split c r) as (p & E & Hlen & _).
  rewrite EL in *. unfold touch. rewrite E at 1.
  rewrite remove_app, (remove_notin x (a :: rest) Hout).
  replace ((OD.remove x p ++ a :: rest) ++ [x])
    with ((OD.remove x p ++ [a]) ++ (rest ++ [x]))
    by (rewrite <- !app_assoc; reflexivity).
  apply lastn_app_exact. rewrite length_app. simpl in *. lia.
Qed.

Lemma lastn_touch_room c r x :
  ~ In x (lastn c r) -> (length r < c)%nat ->
  lastn c (touch r x) = lastn c r ++ [x].
Proof.
  intros Hout Hroom. rewrite (lastn_all c r) in * by lia.
  unfold touch. rewrite remove_notin by assumption.
  apply lastn_all. rewrite length_app. simpl. lia.
Qed.

Lemma touch_nodup r x : NoDup r -> NoDup (touch r x).
Proof.
  intros Hd. unfold touch. apply NoDup_app.
  - now apply NoDup_filter.
  - repeat constructor. intros [].
  - intros a Ha [<- | []]. unfold OD.remove in Ha. apply filter_In in Ha.
    destruct Ha as [_ Ha]. rewrite Z.eqb_refl in Ha. discriminate.
Qed.

Lemma recency_items trace : forall r x,
  In x (fold_left touch trace r) <-> In x r \/ In x trace.
Proof.
  induction trace as [| y trace IH]; intros r x; simpl.
  - tauto.
  - rewrite IH. unfold touch. rewrite in_app_iff. unfold OD.remove.
    rewrite filter_In. simpl.
    destruct (Z.eqb_spec x y) as [-> | Hne]; simpl; [tauto |].
    assert (y <> x) by congruence. tauto.
Qed.

Lemma recency_nodup trace : forall r,
  NoDup r -> NoDup (fold_left touch trace r).
Proof.
  induction trace as [| y trace IH]; intros r Hd; simpl; [exact Hd |].
  apply IH, touch_nodup, Hd.
Qed.

Lemma lru_cache_follows_recency (c : nat) trace : forall (s : LRUCache.t) r,
  (0 < c)%nat -> NoDup r ->
  CachePolicy.capacity (LRUCache.base s) = Z.of_nat c ->
  LRUCache.cache s = lastn c r ->
  LRUCache.cache (final trace s) = lastn c (fold_left touch trace r).
Proof.
  induction trace as [| x trace IH]; intros s r Hc Hd Hcap Hcache;
    [exact Hcache |].
  rewrite final_cons. simpl fold_left.
  apply IH; [exact Hc | now apply touch_nodup | |].
  - change (access x s) with (LRUCache.access x s).
    rewrite LRUFacts.lru_access_base.
    now destruct (OD.mem x (LRUCache.cache s)).
  - change (access x s) with (LRUCache.access x s).
    destruct (OD.mem x (LRUCache.cache s)) eqn:Hin.
    + rewrite LRUFacts.lru_access_hit by assumption. simpl.
      rewrite Hcache. symmetry. apply lastn_touch_hit; [exact Hd |].
      apply ODFacts.od_mem_In. now rewrite <- Hcache.
    + assert (Hout : ~ In x (lastn c r)).
      { rewrite <- Hcache. intros H. apply ODFacts.od_mem_In in H. congruence. }
      destruct (lastn_split c r) as (p & _ & Hlen & _).
      rewrite LRUFacts.lru_access_miss by assumption. rewrite Hcap.
      unfold OD.len. rewrite Hcache.
      destruct (Z.geb_spec (Z.of_nat (length (lastn c r))) (Z.of_nat c))
        as [Hfull | Hroom].
      * destruct (lastn c r) as [| a rest] eqn:EL; [simpl in Hfull; lia |].
        simpl snd. cbn [LRUCache.cache].
        assert (Hrest : OD.mem x rest = false).
        { destruct (OD.mem x rest) eqn:M; [| reflexivity].
          exfalso. apply Hout. right. now apply ODFacts.od_mem_In. }
        unfold OD.setitem, modify. simpl. rewrite Hrest.
        symmetry. apply (lastn_touch_full c r x a rest); try assumption;
          [now rewrite EL | lia].
      * simpl snd. cbn [LRUCache.cache].
        unfold OD.setitem, modify. simpl. rewrite <- Hcache, Hin, Hcache.
        symmetry. apply lastn_touch_room; [exact Hout | lia].
Qed.

(** X10. An [LRUCache] of positive capacity holds, after any trace, the
    [capacity] most recently used distinct items, in the order of their
    last access (all the distinct items of the trace when there are fewer).
    [recency] lists each item of the trace once. *)
Theorem lru_holds_the_most_recent_items (capacity : Z) (trace : list Z) :
  0 < capacity ->
  LRUCache.cache (final trace (new LRU capacity))
  = lastn (Z.to_nat capacity) (recency trace) /\
  NoDup (recency trace) /\
  (forall x, In x (recency trace) <-> In x trace).
Proof.
  intros Hcap. split; [| split].
  - apply lru_cache_follows_recency.
    + lia.
    + constructor.
    + simpl. lia.
    + reflexivity.
  - apply recency_nodup. constructor.
  - intros x. unfold recency. rewrite recency_items. simpl. tauto.
Qed.

Lemma lru_holds_the_most_recent_items_witness :
  0 < 3 /\
  LRUCache.cache (final [1; 2; 3; 1; 2; 4; 1; 5] (new LRU 3))
  = lastn 3 (recency [1; 2; 3; 1; 2; 4; 1; 5]).
Proof.
  assert (Hcap : 0 < 3) by lia. split; [exact Hcap |].
  exact (proj1 (lru_holds_the_most_recent_items 3 [1; 2; 3; 1; 2; 4; 1; 5]
                  Hcap)).
Defined.

(** * What a [TimeDecayedCache] evicts

    The lemmas of [TDCScores] follow the eviction scan on the scores of the
    model, which are exact; the theorems after them keep what does not
    depend on the value of a score. *)

Module TDCScores.
Import TimeDecayedCache TDCFacts.

(** The score of a cached item once decayed to the time [now]: the value
    [self.cache[item] * self.decay_rate ** (now - last)] of
    [_update_score]. *)
Definition decayed (s : t) (now : Z) (item : Z) : option Q :=
  match Dict.get item (cache s), Dict.get item (last_update_time s) with
  | Some score, Some last => Some (score * decay_rate s ^ (now - last))%Q
  | _, _ => None
  end.

Definition score_at (s : t) (now : Z) (item : Z) : Q :=
  match decayed s now item with Some score => score | None => 0%Q end.

(** The choice of the eviction loop over items already scored: the
    running minimum only moves on a strictly lower score. *)
Fixpoint lowest (scored : list (Z * Q)) (m : min_score) (min_item : option Z)
  : option Z :=
  match scored with
  | [] => min_item
  | (cached_item, score) :: rest =>
      if score_lt score m then lowest rest (Score score) (Some cached_item)
      else lowest rest m min_item
  end.

Definition scores (s : t) (items : list Z) : list (Z * Q) :=
  map (fun x => (x, score_at s (CachePolicy.time (base s)) x)) items.

Lemma tdc_decayed_present x now s :
  Stamped s -> Dict.mem x (cache s) = true ->
  decayed s now x = Some (score_at s now x).
Proof.
  intros [Hkeys _] Hin. unfold score_at, decayed.
  destruct (proj1 (DictFacts.dict_mem_get _ _) Hin) as (sc & ->).
  destruct (proj1 (DictFacts.dict_mem_get _ _) (Hkeys x Hin)) as (u & ->).
  reflexivity.
Qed.

Lemma tdc_update_score_value x s :
  Stamped s -> Dict.mem x (cache s) = true ->
  _update_score x s = (Ret (score_at s (CachePolicy.time (base s)) x), s).
Proof.
  intros [Hkeys Hpast] Hin. unfold score_at, decayed.
  destruct (proj1 (DictFacts.dict_mem_get _ _) Hin) as (sc & Hsc).
  destruct (proj1 (DictFacts.dict_mem_get _ _) (Hkeys x Hin)) as (u & Hu).
  pose proof (Hpast x u Hu) as Hle.
  unfold _update_score, in_cache, in_last_update_time, Dict.getitem, pow.
  py_unfold. simpl. rewrite Hin. simpl. rewrite Hu. simpl. rewrite Hsc.
  simpl. destruct (Z.ltb_spec (CachePolicy.time (base s) - u) 0); [lia |].
  simpl. unfold set_cache, set_last_update_time. simpl. now rewrite tdc_eta.
Qed.

Lemma tdc_scan_turn cached_item rest m min_item s :
  Stamped s -> Dict.mem cached_item (cache s) = true ->
  scan (cached_item :: rest) m min_item s =
  let score := score_at s (CachePolicy.time (base s)) cached_item in
  if score_lt score m
  then scan rest (Score score) (Some cached_item) (rescored cached_item score s)
  else scan rest m min_item (rescored cached_item score s).
Proof.
  intros Hst Hin. pose proof (tdc_update_score_value _ _ Hst Hin) as E.
  simpl scan. unfold bind at 1. rewrite E.
  unfold in_cache, in_last_update_time, Dict.setitem. py_unfold. simpl.
  unfold rescored, set_cache, set_last_update_time. simpl.
  destruct (score_lt _ m); reflexivity.
Qed.

Lemma tdc_rescored_score k score s x :
  x <> k ->
  score_at (rescored k score s) (CachePolicy.time (base s)) x
  = score_at s (CachePolicy.time (base s)) x.
Proof.
  intros Hx. unfold score_at, decayed. simpl.
  rewrite !DictFacts.dict_get_set.
  destruct (Z.eqb_spec x k); [contradiction | reflexivity].
Qed.

(** The scan in full: its choice is [lowest] on the decayed scores, and
    it leaves every scanned item with its decayed score, stamped with the
    current time. *)
Lemma tdc_scan_lowest items : forall m min_item s,
  Stamped s -> NoDup items ->
  (forall x, In x items -> Dict.mem x (cache s) = true) ->
  exists s',
    scan items m min_item s = (Ret (lowest (scores s items) m min_item), s') /\
    base s' = base s /\ decay_rate s' = decay_rate s /\
    Dict.keys (cache s') = Dict.keys (cache s) /\
    (forall x, Dict.get x (cache s') =
       if OD.mem x items
       then Some (score_at s (CachePolicy.time (base s)) x)
       else Dict.get x (cache s)) /\
    (forall x, Dict.get x (last_update_time s') =
       if OD.mem x items then Some (CachePolicy.time (base s))
       else Dict.get x (last_update_time s)).
Proof.
  induction items as [| k rest IH]; intros m min_item s Hst Hnd Hall.
  - exists s. simpl. unfold ret. repeat split; reflexivity.
  - assert (Hk : Dict.mem k (cache s) = true) by (apply Hall; now left).
    rewrite (tdc_scan_turn k rest m min_item s Hst Hk). cbv zeta.
    set (score := score_at s (CachePolicy.time (base s)) k).
    pose proof (tdc_rescored_stamped k score s Hst) as Hst'.
    inversion Hnd as [| ? ? Hout Hnd']; subst.
    assert (Hall' : forall x, In x rest ->
              Dict.mem x (cache (rescored k score s)) = true).
    { intros x Hx. rewrite tdc_rescored_mem by assumption. apply Hall. now right. }
    assert (Hsc : scores (rescored k score s) rest = scores s rest).
    { unfold scores. apply map_ext_in. intros x Hx. f_equal.
      change (CachePolicy.time (base (rescored k score s)))
        with (CachePolicy.time (base s)).
      apply tdc_rescored_score. intros ->. contradiction. }
    assert (Hstate : forall m' mi',
      exists s',
        scan rest m' mi' (rescored k score s)
        = (Ret (lowest (scores s rest) m' mi'), s') /\
        base s' = base s /\ decay_rate s' = decay_rate s /\
        Dict.keys (cache s') = Dict.keys (cache s) /\
        (forall x, Dict.get x (cache s') =
           if OD.mem x (k :: rest)
           then Some (score_at s (CachePolicy.time (base s)) x)
           else Dict.get x (cache s)) /\
        (forall x, Dict.get x (last_update_time s') =
           if OD.mem x (k :: rest) then Some (CachePolicy.time (base s))
           else Dict.get x (last_update_time s))).
    { intros m' mi'.
      destruct (IH m' mi' _ Hst' Hnd' Hall')
        as (s' & E & Hb & Hd & Hkeys & Hc & Hu).
      exists s'. rewrite Hsc in E. split; [exact E |].
      split; [exact Hb |]. split; [exact Hd |]. split.
      { rewrite Hkeys. simpl. now rewrite DictFacts.dict_keys_set, Hk. }
      split.
      - intros x. rewrite Hc, ODFacts.od_mem_cons.
        change (CachePolicy.time (base (rescored k score s)))
          with (CachePolicy.time (base s)).
        destruct (OD.mem x rest) eqn:Hx.
        + rewrite orb_true_r. f_equal. apply tdc_rescored_score.
          intros ->. apply Hout. now apply ODFacts.od_mem_In.
        + rewrite orb_false_r. simpl. rewrite DictFacts.dict_get_set.
          destruct (Z.eqb_spec x k) as [-> | _]; reflexivity.
      - intros x. rewrite Hu, ODFacts.od_mem_cons.
        change (CachePolicy.time (base (rescored k score s)))
          with (CachePolicy.time (base s)).
        destruct (OD.mem x rest) eqn:Hx.
        + now rewrite orb_true_r.
        + rewrite orb_false_r. simpl. rewrite DictFacts.dict_get_set.
          destruct (Z.eqb_spec x k) as [-> | _]; reflexivity. }
    unfold scores. simpl map. fold (scores s rest). fold score. simpl lowest.
    destruct (score_lt score m); apply Hstate.
Qed.

Lemma tdc_score_lt_spec score q :
  score_lt score (Score q) = true <-> (score < q)%Q.
Proof.
  simpl. rewrite negb_true_iff. split.
  - intros H. apply Qnot_le_lt. intros Hle.
    apply Qle_bool_iff in Hle. congruence.
  - intros H. destruct (Qle_bool q score) eqn:E; [| reflexivity].
    apply Qle_bool_iff in E. exfalso. now apply (Qlt_not_le _ _ H).
Qed.

Lemma tdc_score_lt_false score q :
  score_lt score (Score q) = false <-> (q <= score)%Q.
Proof.
  simpl. rewrite negb_false_iff. apply Qle_bool_iff.
Qed.

Lemma tdc_lowest_spec scored : forall m min_item,
  (lowest scored m min_item = min_item /\
   forall y q, In (y, q) scored -> score_lt q m = false) \/
  (exists before victim score after,
     scored = before ++ (victim, score) :: after /\
     lowest scored m min_item = Some victim /\
     score_lt score m = true /\
     (forall y q, In (y, q) before -> (score < q)%Q) /\
     (forall y q, In (y, q) after -> (score <= q)%Q)).
Proof.
  induction scored as [| [k sc] rest IH]; intros m min_item.
  - left. split; [reflexivity | intros y q []].
  - simpl lowest. destruct (score_lt sc m) eqn:Hlt.
    + right. destruct (IH (Score sc) (Some k))
        as [[E Hall] | (before & v & sv & after & -> & E & Hsv & Hb & Ha)].
      * exists [], k, sc, rest. split; [reflexivity |]. split; [exact E |].
        split; [exact Hlt |]. split; [intros y q [] |].
        intros y q Hy. apply tdc_score_lt_false. exact (Hall y q Hy).
      * exists ((k, sc) :: before), v, sv, after.
        split; [reflexivity |]. split; [exact E |].
        apply tdc_score_lt_spec in Hsv. split.
        { destruct m as [| q0]; [reflexivity |].
          apply tdc_score_lt_spec. apply tdc_score_lt_spec in Hlt.
          now apply Qlt_trans with sc. }
        split; [| exact Ha].
        intros y q [[= <- <-] | Hy]; [exact Hsv | exact (Hb y q Hy)].
    + destruct m as [| q0]; [discriminate |].
      apply tdc_score_lt_false in Hlt.
      destruct (IH (Score q0) min_item)
        as [[E Hall] | (before & v & sv & after & -> & E & Hsv & Hb & Ha)].
      * left. split; [exact E |].
        intros y q [[= <- <-] | Hy];
          [now apply tdc_score_lt_false | exact (Hall y q Hy)].
      * right. exists ((k, sc) :: before), v, sv, after.
        split; [reflexivity |]. split; [exact E |]. split; [exact Hsv |].
        split; [| exact Ha].
        apply tdc_score_lt_spec in Hsv.
        intros y q [[= <- <-] | Hy];
          [now apply Qlt_le_trans with q0 | exact (Hb y q Hy)].
Qed.

Lemma tdc_scores_In s items y q :
  In (y, q) (scores s items) ->
  In y items /\ q = score_at s (CachePolicy.time (base s)) y.
Proof.
  unfold scores. rewrite in_map_iff. intros (x & [= <- <-] & Hx). now split.
Qed.

Lemma tdc_scores_split s items before v sv after :
  scores s items = before ++ (v, sv) :: after ->
  items = map fst before ++ v :: map fst after.
Proof.
  intros E. apply (f_equal (map fst)) in E. unfold scores in E.
  rewrite map_map, map_app in E. simpl in E. now rewrite map_id in E.
Qed.

(** The eviction block on a cache that holds something: it removes the
    first key, in the order of the dictionary, whose decayed score is the
    lowest, and leaves the others with their decayed scores. *)
Lemma tdc_evict_lowest s :
  Stamped s -> NoDup (Dict.keys (cache s)) -> 0 < Dict.len (cache s) ->
  let now := CachePolicy.time (base s) in
  exists before victim after s',
    Dict.keys (cache s) = before ++ victim :: after /\
    (forall y, In y before -> (score_at s now victim < score_at s now y)%Q) /\
    (forall y, In y after -> (score_at s now victim <= score_at s now y)%Q) /\
    evict s = (Ret tt, s') /\
    base s' = base s /\ decay_rate s' = decay_rate s /\
    Dict.keys (cache s') = before ++ after /\
    (forall y, In y (before ++ after) ->
       Dict.get y (cache s') = Some (score_at s now y) /\
       Dict.get y (last_update_time s') = Some now).
Proof.
  intros Hst Hnd Hlen now.
  destruct (tdc_scan_lowest (Dict.keys (cache s)) ScoreInf None s Hst Hnd)
    as (s1 & E & Hb & Hd & Hkeys & Hc & Hu).
  { intros x. apply DictFacts.dict_mem_keys. }
  destruct (tdc_lowest_spec (scores s (Dict.keys (cache s))) ScoreInf None)
    as [[_ Hall] | (before & v & sv & after & Hsplit & Hlow & _ & Hbefore & Hafter)].
  { (* the dictionary is not empty *)
    exfalso. destruct (cache s) as [| [k sc] rest] eqn:Ecache;
      [unfold Dict.len in Hlen; simpl in Hlen; lia |].
    specialize (Hall k (score_at s now k)).
    unfold scores, Dict.keys in Hall. simpl in Hall.
    discriminate Hall. now left. }
  assert (Hitems := tdc_scores_split _ _ _ _ _ _ Hsplit).
  assert (Hsv : sv = score_at s now v).
  { apply (tdc_scores_In s (Dict.keys (cache s)) v sv).
    rewrite Hsplit. apply in_or_app. right. now left. }
  subst sv.
  assert (Hv : In v (Dict.keys (cache s))).
  { rewrite Hitems. apply in_or_app. right. now left. }
  assert (Hin : Dict.mem v (cache s1) = true).
  { apply DictFacts.dict_mem_keys. now rewrite Hkeys. }
  assert (Hin' : Dict.mem v (last_update_time s1) = true).
  { apply DictFacts.dict_mem_get. exists now. rewrite Hu.
    now rewrite (proj2 (ODFacts.od_mem_In _ _) Hv). }
  exists (map fst before), v, (map fst after),
         (mk (base s1) (decay_rate s1) (Dict.remove v (cache s1))
             (Dict.remove v (last_update_time s1))).
  split; [exact Hitems |].
  split.
  { intros y Hy. apply in_map_iff in Hy. destruct Hy as ([y' q] & <- & Hy).
    simpl. pose proof (Hbefore y' q Hy) as Hlt.
    assert (Hq : q = score_at s now y').
    { apply (tdc_scores_In s (Dict.keys (cache s))). rewrite Hsplit.
      apply in_or_app. now left. }
    now subst q. }
  split.
  { intros y Hy. apply in_map_iff in Hy. destruct Hy as ([y' q] & <- & Hy).
    simpl. pose proof (Hafter y' q Hy) as Hle.
    assert (Hq : q = score_at s now y').
    { apply (tdc_scores_In s (Dict.keys (cache s))). rewrite Hsplit.
      apply in_or_app. right. now right. }
    now subst q. }
  split.
  { unfold evict. unfold bind at 1, gets at 1. unfold bind at 1.
    rewrite E, Hlow.
    unfold in_cache, in_last_update_time, Dict.delitem. py_unfold. simpl.
    rewrite Hin. simpl. rewrite Hin'. reflexivity. }
  simpl. split; [exact Hb |]. split; [exact Hd |].
  rewrite Hitems in Hnd.
  pose proof (NoDup_remove_2 _ _ _ Hnd) as Hout.
  split.
  { rewrite DictFacts.dict_keys_remove, Hkeys, Hitems, remove_app.
    rewrite remove_notin by (intros H; apply Hout, in_or_app; now left).
    f_equal. unfold OD.remove. simpl. rewrite Z.eqb_refl. simpl.
    apply remove_notin. intros H. apply Hout, in_or_app. now right. }
  intros y Hy.
  assert (Hne : y <> v) by (intros ->; contradiction).
  assert (Hy' : OD.mem y (Dict.keys (cache s)) = true).
  { apply ODFacts.od_mem_In. rewrite Hitems.
    apply in_app_or in Hy. apply in_or_app.
    destruct Hy; [now left | right; now right]. }
  rewrite !DictFacts.dict_get_remove.
  destruct (Z.eqb_spec y v); [contradiction |].
  now rewrite Hc, Hu, Hy'.
Qed.

(** A miss, given what the eviction block does. *)
Lemma tdc_access_miss_then item s s2 :
  Dict.mem item (cache s) = false ->
  when (Dict.len (cache s) >=? CachePolicy.capacity (base s)) evict
       (set_base (counted false (base s)) s) = (Ret tt, s2) ->
  access item s =
  (Ret false,
   mk (base s2) (decay_rate s2) (Dict.set item 1%Q (cache s2))
      (Dict.set item (CachePolicy.time (base s2)) (last_update_time s2))).
Proof.
  intros Hout E.
  unfold access. unfold bind at 1, on_base at 1, modify at 1.
  fold (ticked s). unfold bind at 1, gets at 1.
  change (cache (ticked s)) with (cache s). rewrite Hout.
  unfold bind at 1, on_base at 1, modify at 1.
  unfold bind at 1, gets at 1. unfold bind at 1.
  change (set_base (CachePolicy.incr_misses (base (ticked s))) (ticked s))
    with (set_base (counted false (base s)) s).
  change (cache (set_base (counted false (base s)) s)) with (cache s).
  change (CachePolicy.capacity (base (set_base (counted false (base s)) s)))
    with (CachePolicy.capacity (base s)).
  rewrite E.
  unfold in_cache, in_last_update_time, Dict.setitem. py_unfold.
  reflexivity.
Qed.

(** A miss on a cache with room appends the item with score 1. *)
Lemma tdc_access_miss_room item s :
  Dict.mem item (cache s) = false ->
  Dict.len (cache s) < CachePolicy.capacity (base s) ->
  access item s =
  (Ret false,
   mk (counted false (base s)) (decay_rate s) (Dict.set item 1%Q (cache s))
      (Dict.set item (CachePolicy.time (base s) + 1) (last_update_time s))).
Proof.
  intros Hout Hroom.
  rewrite (tdc_access_miss_then item s (set_base (counted false (base s)) s) Hout).
  - reflexivity.
  - unfold when.
    destruct (Z.geb_spec (Dict.len (cache s)) (CachePolicy.capacity (base s)));
      [lia | reflexivity].
Qed.

(** A miss on a full cache. *)
Lemma tdc_access_miss_full item s :
  Stamped s -> NoDup (Dict.keys (cache s)) ->
  Dict.mem item (cache s) = false ->
  0 < Dict.len (cache s) ->
  CachePolicy.capacity (base s) <= Dict.len (cache s) ->
  let now := CachePolicy.time (base s) + 1 in
  exists before victim after s',
    Dict.keys (cache s) = before ++ victim :: after /\
    (forall y, In y before -> (score_at s now victim < score_at s now y)%Q) /\
    (forall y, In y after -> (score_at s now victim <= score_at s now y)%Q) /\
    access item s = (Ret false, s') /\
    Dict.keys (cache s') = before ++ after ++ [item] /\
    (forall y, In y (before ++ after) ->
       Dict.get y (cache s') = Some (score_at s now y) /\
       Dict.get y (last_update_time s') = Some now) /\
    Dict.get item (cache s') = Some 1%Q /\
    Dict.get item (last_update_time s') = Some now.
Proof.
  intros Hst Hnd Hout Hlen Hfull now.
  pose (s1 := set_base (counted false (base s)) s).
  assert (Hst1 : Stamped s1).
  { destruct (tdc_ticked_stamped s Hst) as [Hk Hp]. split; [exact Hk | exact Hp]. }
  destruct (tdc_evict_lowest s1 Hst1 Hnd Hlen)
    as (before & v & after & s2 & Hkeys & Hbefore & Hafter & E & Hb & Hd
        & Hkeys2 & Hrest).
  change (CachePolicy.time (base s1)) with now in *.
  change (score_at s1 now) with (score_at s now) in *.
  change (cache s1) with (cache s) in *.
  assert (Hitem : ~ In item (before ++ after)).
  { intros H. assert (Hin : In item (Dict.keys (cache s))).
    { rewrite Hkeys. apply in_app_or in H. apply in_or_app.
      destruct H; [now left | right; now right]. }
    apply DictFacts.dict_mem_keys in Hin. congruence. }
  assert (Hout2 : Dict.mem item (cache s2) = false).
  { destruct (Dict.mem item (cache s2)) eqn:M; [| reflexivity].
    exfalso. apply Hitem. rewrite <- Hkeys2.
    now apply DictFacts.dict_mem_keys. }
  exists before, v, after,
    (mk (base s2) (decay_rate s2) (Dict.set item 1%Q (cache s2))
        (Dict.set item (CachePolicy.time (base s2)) (last_update_time s2))).
  split; [exact Hkeys |]. split; [exact Hbefore |]. split; [exact Hafter |].
  split.
  { apply tdc_access_miss_then; [exact Hout |]. fold s1. unfold when.
    destruct (Z.geb_spec (Dict.len (cache s)) (CachePolicy.capacity (base s)));
      [exact E | lia]. }
  simpl. rewrite Hb. change (CachePolicy.time (base s1)) with now.
  split.
  { now rewrite DictFacts.dict_keys_set, Hout2, Hkeys2, app_assoc. }
  split.
  { intros y Hy. rewrite !DictFacts.dict_get_set.
    destruct (Z.eqb_spec y item) as [-> | _]; [contradiction |].
    now apply Hrest. }
  rewrite !DictFacts.dict_get_set, Z.eqb_refl. now split.
Qed.

(** The keys of the score dictionary stay distinct. *)
Lemma tdc_access_distinct cap item s :
  0 < cap -> Inv cap s -> NoDup (Dict.keys (cache s)) ->
  NoDup (Dict.keys (cache (snd (access item s)))).
Proof.
  intros Hcap (Hc & Hlen & Hst) Hnd.
  destruct (Dict.mem item (cache s)) eqn:E.
  - destruct (tdc_access_hit item s Hst E) as (score & ->). simpl.
    now apply DictFacts.dict_set_distinct.
  - destruct (Z.lt_ge_cases (Dict.len (cache s)) (CachePolicy.capacity (base s)))
      as [Hroom | Hfull].
    + rewrite (tdc_access_miss_room item s E Hroom). simpl.
      now apply DictFacts.dict_set_distinct.
    + destruct (tdc_access_miss_full item s Hst Hnd E)
        as (before & v & after & s' & Hkeys & _ & _ & -> & Hkeys' & _);
        [lia | exact Hfull |].
      simpl. rewrite Hkeys', app_assoc.
      rewrite Hkeys in Hnd. apply NoDup_remove_1 in Hnd.
      apply ODFacts.od_append_distinct; [exact Hnd |].
      destruct (OD.mem item (before ++ after)) eqn:M; [| reflexivity].
      exfalso. apply ODFacts.od_mem_In in M.
      assert (Hin : In item (Dict.keys (cache s))).
      { rewrite Hkeys. apply in_app_or in M. apply in_or_app.
        destruct M; [now left | right; now right]. }
      apply DictFacts.dict_mem_keys in Hin. congruence.
Qed.

(** A hit, with the score it writes. *)
Lemma tdc_access_hit_value item s :
  Stamped s -> Dict.mem item (cache s) = true ->
  let now := CachePolicy.time (base s) + 1 in
  access item s =
  (Ret true,
   mk (counted true (base s)) (decay_rate s)
      (Dict.set item (score_at s now item + 1)%Q (cache s))
      (Dict.set item now (last_update_time s))).
Proof.
  intros Hst Hin now.
  pose proof (tdc_update_score_value item (ticked s) (tdc_ticked_stamped s Hst) Hin)
    as E.
  unfold access. unfold bind at 1, on_base at 1, modify at 1.
  fold (ticked s). unfold bind at 1, gets at 1.
  change (cache (ticked s)) with (cache s). rewrite Hin.
  unfold bind at 1. rewrite E.
  unfold in_cache, in_last_update_time, on_base, Dict.setitem. py_unfold.
  reflexivity.
Qed.

End TDCScores.

(** The states a [TimeDecayedCache] reaches. *)
Lemma tdc_reachable d capacity trace :
  0 < capacity ->
  let s := final trace (new (TDC d) capacity) in
  TDCFacts.Inv capacity s /\ NoDup (Dict.keys (TimeDecayedCache.cache s)).
Proof.
  intros Hcap.
  apply (@final_invariant _ (policy_ops (TDC d))
           (fun s => TDCFacts.Inv capacity s /\
                     NoDup (Dict.keys (TimeDecayedCache.cache s)))).
  - intros item s [Hinv Hnd]. split.
    + now apply TDCFacts.tdc_access_inv.
    + now apply (TDCScores.tdc_access_distinct capacity).
  - split; [now apply TDCFacts.tdc_inv_init | constructor].
Qed.

(** X11. A miss on a full [TimeDecayedCache] with a [decay_rate] in the
    documented range (0, 1) returns False and evicts exactly one of the
    cached items; the remaining items keep their order in the score
    dictionary and are stamped with the time of the call, and the requested
    item is appended with score 1 and the same stamp. *)
Theorem tdc_miss_on_full_cache_evicts_one_item
  (d : option Q) (capacity : Z) (trace : list Z) (item : Z) :
  0 < capacity ->
  in_range (TDC d) ->
  let s := final trace (new (TDC d) capacity) in
  let s' := snd (access item s) in
  let now := CachePolicy.time (TimeDecayedCache.base s) + 1 in
  Dict.mem item (TimeDecayedCache.cache s) = false ->
  capacity <= Dict.len (TimeDecayedCache.cache s) ->
  exists before victim after,
    Dict.keys (TimeDecayedCache.cache s) = before ++ victim :: after /\
    fst (access item s) = Ret false /\
    Dict.keys (TimeDecayedCache.cache s') = before ++ after ++ [item] /\
    Dict.mem victim (TimeDecayedCache.cache s') = false /\
    (forall y, In y (before ++ after) ->
       Dict.get y (TimeDecayedCache.last_update_time s') = Some now) /\
    Dict.get item (TimeDecayedCache.cache s') = Some 1%Q /\
    Dict.get item (TimeDecayedCache.last_update_time s') = Some now.
Proof.
  intros Hcap _ s s' now Hout Hfull.
  destruct (tdc_reachable d capacity trace Hcap) as [(Hc & Hlen & Hst) Hnd].
  fold s in Hc, Hlen, Hst, Hnd.
  destruct (TDCScores.tdc_access_miss_full item s Hst Hnd Hout)
    as (before & v & after & s2 & Hkeys & _ & _ & E & Hkeys'
        & Hrest & Hitem); [lia | rewrite Hc; exact Hfull |].
  fold now in Hrest, Hitem.
  assert (Hs' : s' = s2).
  { unfold s'. change (access item s) with (TimeDecayedCache.access item s).
    now rewrite E. }
  exists before, v, after.
  split; [exact Hkeys |].
  split.
  { change (access item s) with (TimeDecayedCache.access item s).
    now rewrite E. }
  rewrite Hs'. split; [exact Hkeys' |]. split; [| split; [| exact Hitem]].
  - destruct (Dict.mem v (TimeDecayedCache.cache s2)) eqn:M; [| reflexivity].
    exfalso. apply DictFacts.dict_mem_keys in M.
    rewrite Hkeys', app_assoc in M. rewrite Hkeys in Hnd.
    apply in_app_or in M. destruct M as [M | [M | []]].
    + exact (NoDup_remove_2 _ _ _ Hnd M).
    + assert (Hv : Dict.mem v (TimeDecayedCache.cache s) = true).
      { apply DictFacts.dict_mem_keys. rewrite Hkeys.
        apply in_or_app. right. now left. }
      congruence.
  - intros y Hy. now apply Hrest.
Qed.

Lemma tdc_miss_on_full_cache_evicts_one_item_witness :
  let d := Some (1 # 2)%Q in
  let s := final [1; 2; 1] (new (TDC d) 2) in
  0 < 2 /\
  in_range (TDC d) /\
  Dict.mem 3 (TimeDecayedCache.cache s) = false /\
  2 <= Dict.len (TimeDecayedCache.cache s) /\
  exists before victim after,
    Dict.keys (TimeDecayedCache.cache s) = before ++ victim :: after /\
    fst (access 3 s) = Ret false /\
    Dict.keys (TimeDecayedCache.cache (snd (access 3 s)))
    = before ++ after ++ [3] /\
    Dict.mem victim (TimeDecayedCache.cache (snd (access 3 s))) = false.
Proof.
  intros d s. assert (Hcap : 0 < 2) by lia.
  assert (Hd : in_range (TDC d)) by (split; reflexivity).
  assert (Hout : Dict.mem 3 (TimeDecayedCache.cache s) = false) by reflexivity.
  assert (Hfull : 2 <= Dict.len (TimeDecayedCache.cache s))
    by (vm_compute; discriminate).
  split; [exact Hcap |]. split; [exact Hd |]. split; [exact Hout |].
  split; [exact Hfull |].
  destruct (tdc_miss_on_full_cache_evicts_one_item d 2 [1; 2; 1] 3
              Hcap Hd Hout Hfull)
    as (before & victim & after & Hkeys & Hret & Hkeys' & Hgone & _).
  exists before, victim, after.
  split; [exact Hkeys |]. split; [exact Hret |]. split; [exact Hkeys' |].
  exact Hgone.
Defined.

(** X12. A hit on a [TimeDecayedCache] with a [decay_rate] in the
    documented range (0, 1) returns True and touches the entry of the
    requested item only: the item is stamped with the time of the call, the
    order of the keys is kept, and the stored score and the stamp of every
    other item are as they were, so that no other score is decayed before
    it is needed. *)
Theorem tdc_hit_touches_only_its_item
  (d : option Q) (capacity : Z) (trace : list Z) (item : Z) :
  0 < capacity ->
  in_range (TDC d) ->
  let s := final trace (new (TDC d) capacity) in
  let s' := snd (access item s) in
  let now := CachePolicy.time (TimeDecayedCache.base s) + 1 in
  Dict.mem item (TimeDecayedCache.cache s) = true ->
  fst (access item s) = Ret true /\
  Dict.mem item (TimeDecayedCache.cache s') = true /\
  Dict.get item (TimeDecayedCache.last_update_time s') = Some now /\
  Dict.keys (TimeDecayedCache.cache s') = Dict.keys (TimeDecayedCache.cache s) /\
  (forall y, y <> item ->
     Dict.get y (TimeDecayedCache.cache s')
     = Dict.get y (TimeDecayedCache.cache s) /\
     Dict.get y (TimeDecayedCache.last_update_time s')
     = Dict.get y (TimeDecayedCache.last_update_time s)).
Proof.
  intros Hcap _ s s' now Hin.
  destruct (tdc_reachable d capacity trace Hcap) as [(_ & _ & Hst) _].
  fold s in Hst.
  pose proof (TDCScores.tdc_access_hit_value item s Hst Hin) as E.
  cbv zeta in E. fold now in E.
  unfold s'. change (access item s) with (TimeDecayedCache.access item s).
  rewrite E. cbn [fst snd TimeDecayedCache.cache TimeDecayedCache.last_update_time].
  split; [reflexivity |].
  rewrite DictFacts.dict_mem_set, Z.eqb_refl.
  rewrite !DictFacts.dict_get_set, Z.eqb_refl, DictFacts.dict_keys_set, Hin.
  split; [reflexivity |]. split; [reflexivity |]. split; [reflexivity |].
  intros y Hy. rewrite !DictFacts.dict_get_set.
  destruct (Z.eqb_spec y item); [contradiction | now split].
Qed.

Lemma tdc_hit_touches_only_its_item_witness :
  let d := Some (1 # 2)%Q in
  let s := final [1; 2] (new (TDC d) 2) in
  0 < 2 /\
  in_range (TDC d) /\
  Dict.mem 1 (TimeDecayedCache.cache s) = true /\
  fst (access 1 s) = Ret true /\
  Dict.get 1 (TimeDecayedCache.last_update_time (snd (access 1 s))) = Some 3 /\
  Dict.get 2 (TimeDecayedCache.last_update_time (snd (access 1 s))) = Some 2.
Proof.
  intros d s. assert (Hcap : 0 < 2) by lia.
  assert (Hd : in_range (TDC d)) by (split; reflexivity).
  assert (Hin : Dict.mem 1 (TimeDecayedCache.cache s) = true) by reflexivity.
  split; [exact Hcap |]. split; [exact Hd |]. split; [exact Hin |].
  destruct (tdc_hit_touches_only_its_item d 2 [1; 2] 1 Hcap Hd Hin)
    as (Hret & _ & Hstamp & _ & Hrest).
  split; [exact Hret |]. split; [exact Hstamp |].
  destruct (Hrest 2) as [_ Hother]; [discriminate |].
  exact (eq_trans Hother eq_refl).
Defined.

(** ** A [TimeDecayedCache] without capacity *)

Lemma tdc_stamped_after_set (b : CachePolicy.t) d item score (s : TimeDecayedCache.t) :
  CachePolicy.time (TimeDecayedCache.base s) <= CachePolicy.time b ->
  TDCFacts.Stamped s ->
  TDCFacts.Stamped
    (TimeDecayedCache.mk b d
       (Dict.set item score (TimeDecayedCache.cache s))
       (Dict.set item (CachePolicy.time b)
                 (TimeDecayedCache.last_update_time s))).
Proof.
  intros Hb [Hk Hp]. split; simpl.
  - intros x. rewrite !DictFacts.dict_mem_set.
    destruct (x =? item); [reflexivity | apply Hk].
  - intros x u. rewrite DictFacts.dict_get_set.
    destruct (x =? item); [intros [= <-]; lia |].
    intros Hu. specialize (Hp x u Hu). lia.
Qed.

Lemma tdc_access_without_capacity item (s : TimeDecayedCache.t) :
  CachePolicy.capacity (TimeDecayedCache.base s) <= 0 ->
  TDCFacts.Stamped s ->
  (length (TimeDecayedCache.cache s) <= 1)%nat ->
  exists s',
    TimeDecayedCache.access item s
    = (Ret (Dict.mem item (TimeDecayedCache.cache s)), s') /\
    CachePolicy.capacity (TimeDecayedCache.base s')
    = CachePolicy.capacity (TimeDecayedCache.base s) /\
    TDCFacts.Stamped s' /\
    Dict.keys (TimeDecayedCache.cache s') = [item].
Proof.
  intros Hcap Hst Hone.
  destruct (Dict.mem item (TimeDecayedCache.cache s)) eqn:E.
  - (* a hit *)
    eexists. split; [now apply TDCScores.tdc_access_hit_value |].
    split; [reflexivity |]. split.
    + apply (tdc_stamped_after_set (counted true (TimeDecayedCache.base s)));
        [simpl; lia | exact Hst].
    + simpl. rewrite DictFacts.dict_keys_set, E.
      destruct (TimeDecayedCache.cache s) as [| [k v] [| e rest]];
        [discriminate E | | simpl in Hone; lia].
      unfold Dict.mem, Dict.get in E.
      destruct (Z.eqb_spec k item) as [-> | _]; [reflexivity | discriminate].
  - (* a miss: the cache is full, whatever it holds *)
    pose (s1 := TimeDecayedCache.set_base
                  (counted false (TimeDecayedCache.base s)) s).
    assert (Hst1 : TDCFacts.Stamped s1).
    { destruct (TDCFacts.tdc_ticked_stamped s Hst) as [Hk Hp].
      split; [exact Hk | exact Hp]. }
    assert (Hev : exists s2,
      TimeDecayedCache.evict s1 = (Ret tt, s2) /\
      TimeDecayedCache.base s2 = TimeDecayedCache.base s1 /\
      TDCFacts.Stamped s2 /\ TimeDecayedCache.cache s2 = []).
    { destruct (TimeDecayedCache.cache s) as [| [k v] [| e rest]] eqn:Ecache;
        [| | simpl in Hone; lia].
      - exists s1. unfold TimeDecayedCache.evict. py_unfold.
        change (TimeDecayedCache.cache s1) with (TimeDecayedCache.cache s).
        rewrite Ecache. split; [reflexivity |]. split; [reflexivity |].
        split; [exact Hst1 | reflexivity].
      - assert (Hnd : NoDup (Dict.keys (TimeDecayedCache.cache s1))).
        { change (TimeDecayedCache.cache s1) with (TimeDecayedCache.cache s).
          rewrite Ecache. repeat constructor. intros []. }
        assert (Hlen : 0 < Dict.len (TimeDecayedCache.cache s1)).
        { change (TimeDecayedCache.cache s1) with (TimeDecayedCache.cache s).
          rewrite Ecache. reflexivity. }
        destruct (TDCScores.tdc_evict_lowest s1 Hst1 Hnd Hlen)
          as (before & victim & after & s2 & Hkeys & _ & _ & Eev & Hb & _
              & Hkeys2 & _).
        destruct (TDCFacts.tdc_evict_spec s1 Hst1 Hlen)
          as (s2' & Eev' & _ & _ & _ & Hst2 & _).
        rewrite Eev in Eev'. injection Eev' as <-.
        exists s2. split; [exact Eev |]. split; [exact Hb |].
        split; [exact Hst2 |].
        change (TimeDecayedCache.cache s1) with (TimeDecayedCache.cache s)
          in Hkeys.
        rewrite Ecache in Hkeys.
        destruct before as [| b0 [| b1 before]]; try discriminate Hkeys.
        destruct after; [| discriminate Hkeys].
        destruct (TimeDecayedCache.cache s2); [reflexivity | discriminate]. }
    destruct Hev as (s2 & Eev & Hb & Hst2 & Hempty).
    eexists. split.
    { apply TDCScores.tdc_access_miss_then; [exact E |]. fold s1.
      unfold when.
      destruct (Z.geb_spec (Dict.len (TimeDecayedCache.cache s))
                  (CachePolicy.capacity (TimeDecayedCache.base s)))
        as [_ | Hroom]; [exact Eev |].
      unfold Dict.len in Hroom. lia. }
    split; [simpl; now rewrite Hb |]. split.
    + apply tdc_stamped_after_set; [lia | exact Hst2].
    + simpl. now rewrite Hempty.
Qed.




(** * The four lists of an [ARCCache] *)

Module ARCLists.
Import ARCCache.

(** In how many of T1, T2, B1 and B2 an item is. *)
Definition places (x : Z) (s : t) : Z :=
  Z.b2z (OD.mem x (t1 s)) + Z.b2z (OD.mem x (t2 s)) +
  Z.b2z (OD.mem x (b1 s)) + Z.b2z (OD.mem x (b2 s)).

(** No list repeats a key and no key is in two lists. *)
Definition Apart (s : t) : Prop :=
  NoDup (t1 s) /\ NoDup (t2 s) /\ NoDup (b1 s) /\ NoDup (b2 s) /\
  forall x, places x s <= 1.

(** Keys only leave the lists, or go from T1 to B1 and from T2 to B2. *)
Definition demoted (s s' : t) : Prop :=
  forall x,
    (OD.mem x (t1 s') = true -> OD.mem x (t1 s) = true) /\
    (OD.mem x (t2 s') = true -> OD.mem x (t2 s) = true) /\
    (OD.mem x (b1 s') = true ->
     OD.mem x (b1 s) = true \/ OD.mem x (t1 s) = true) /\
    (OD.mem x (b2 s') = true ->
     OD.mem x (b2 s) = true \/ OD.mem x (t2 s) = true).

(** Keys only leave the lists. *)
Definition within (s s' : t) : Prop :=
  forall x,
    (OD.mem x (t1 s') = true -> OD.mem x (t1 s) = true) /\
    (OD.mem x (t2 s') = true -> OD.mem x (t2 s) = true) /\
    (OD.mem x (b1 s') = true -> OD.mem x (b1 s) = true) /\
    (OD.mem x (b2 s') = true -> OD.mem x (b2 s) = true).

(** What the moves between the lists keep, whether they return or raise. *)
Definition keeps {A} (m : Py t A) : Prop :=
  forall s, Apart s -> Apart (snd (m s)) /\ demoted s (snd (m s)).

Ltac fields :=
  cbn [t1 t2 b1 b2 c p base set_t1 set_t2 set_b1 set_b2 set_p set_base
       fst snd] in *.

Ltac mems :=
  repeat match goal with
  | H : true = true -> _ |- _ => specialize (H eq_refl)
  | H : _ \/ _ |- _ => destruct H
  end;
  try discriminate; try congruence.

Lemma arc_demoted_refl s : demoted s s.
Proof. intros x. repeat split; auto. Qed.

Lemma arc_demoted_trans s1 s2 s3 :
  demoted s1 s2 -> demoted s2 s3 -> demoted s1 s3.
Proof.
  intros H12 H23 x.
  destruct (H12 x) as (A1 & A2 & A3 & A4).
  destruct (H23 x) as (B1 & B2 & B3 & B4).
  repeat split; intros H.
  - auto.
  - auto.
  - destruct (B3 H) as [H' | H']; auto.
  - destruct (B4 H) as [H' | H']; auto.
Qed.

Lemma arc_within_demoted s s' : within s s' -> demoted s s'.
Proof.
  intros H x. destruct (H x) as (A1 & A2 & A3 & A4). repeat split; auto.
Qed.

Lemma arc_within_places s s' x : within s s' -> places x s' <= places x s.
Proof.
  intros H. destruct (H x) as (A1 & A2 & A3 & A4). unfold places.
  destruct (OD.mem x (t1 s')), (OD.mem x (t2 s')),
           (OD.mem x (b1 s')), (OD.mem x (b2 s')); mems;
    repeat match goal with H : _ = true |- _ => rewrite H end;
    simpl;
    destruct (OD.mem x (t1 s)), (OD.mem x (t2 s)),
             (OD.mem x (b1 s)), (OD.mem x (b2 s)); simpl; lia.
Qed.

Lemma arc_apart_within s s' :
  Apart s ->
  NoDup (t1 s') -> NoDup (t2 s') -> NoDup (b1 s') -> NoDup (b2 s') ->
  within s s' ->
  Apart s' /\ demoted s s'.
Proof.
  intros (_ & _ & _ & _ & Hp) N1 N2 N3 N4 Hw.
  split; [| now apply arc_within_demoted].
  repeat split; try assumption.
  intros x. pose proof (arc_within_places s s' x Hw). specialize (Hp x). lia.
Qed.

Lemma arc_tail_mem x y (r : OD.t) : OD.mem x r = true -> OD.mem x (y :: r) = true.
Proof. intros H. rewrite ODFacts.od_mem_cons, H. apply orb_true_r. Qed.

(** ** The rules *)

Lemma arc_keeps_ret {A} (a : A) : keeps (ret a).
Proof. intros s H. split; [exact H | apply arc_demoted_refl]. Qed.

Lemma arc_keeps_gets {A} (f : t -> A) : keeps (gets f).
Proof. intros s H. split; [exact H | apply arc_demoted_refl]. Qed.

Lemma arc_keeps_bind {A B} (m : Py t A) (k : A -> Py t B) :
  keeps m -> (forall a, keeps (k a)) -> keeps (bind m k).
Proof.
  intros Hm Hk s HA. destruct (Hm s HA) as [HA1 Hd1]. unfold bind.
  destruct (m s) as [[a | e] s1]; simpl in *.
  - destruct (Hk a s1 HA1) as [HA2 Hd2].
    split; [exact HA2 | now apply arc_demoted_trans with s1].
  - now split.
Qed.

Lemma arc_keeps_when (b : bool) (m : Py t unit) : keeps m -> keeps (when b m).
Proof. intros Hm. destruct b; [exact Hm | apply arc_keeps_ret]. Qed.

Lemma arc_keeps_pop_t1 : keeps (in_t1 OD.popitem_first).
Proof.
  intros s HA. pose proof HA as (N1 & N2 & N3 & N4 & _).
  unfold in_t1. rewrite zoom_run.
  destruct (t1 s) as [| old r] eqn:E; simpl.
  - apply arc_apart_within; simpl; try assumption.
    intros x. simpl. rewrite E. repeat split; auto.
  - apply arc_apart_within; simpl; try assumption;
      [now inversion N1 |].
    intros x. simpl. rewrite E. repeat split; auto. apply arc_tail_mem.
Qed.

Lemma arc_keeps_pop_b1 : keeps (in_b1 OD.popitem_first).
Proof.
  intros s HA. pose proof HA as (N1 & N2 & N3 & N4 & _).
  unfold in_b1. rewrite zoom_run.
  destruct (b1 s) as [| old r] eqn:E; simpl.
  - apply arc_apart_within; simpl; try assumption.
    intros x. simpl. rewrite E. repeat split; auto.
  - apply arc_apart_within; simpl; try assumption;
      [now inversion N3 |].
    intros x. simpl. rewrite E. repeat split; auto. apply arc_tail_mem.
Qed.

Lemma arc_keeps_pop_b2 : keeps (in_b2 OD.popitem_first).
Proof.
  intros s HA. pose proof HA as (N1 & N2 & N3 & N4 & _).
  unfold in_b2. rewrite zoom_run.
  destruct (b2 s) as [| old r] eqn:E; simpl.
  - apply arc_apart_within; simpl; try assumption.
    intros x. simpl. rewrite E. repeat split; auto.
  - apply arc_apart_within; simpl; try assumption;
      [now inversion N4 |].
    intros x. simpl. rewrite E. repeat split; auto. apply arc_tail_mem.
Qed.

(** The two demotions. *)
Lemma arc_keeps_t1_to_b1 : keeps t1_to_b1.
Proof.
  intros s HA. pose proof HA as (N1 & N2 & N3 & N4 & Hp).
  destruct (t1 s) as [| old r] eqn:E1.
  - assert (E : t1_to_b1 s = (Raise KeyError, set_t1 [] s)).
    { unfold t1_to_b1, in_t1. py_unfold. now rewrite E1. }
    rewrite E. simpl. apply arc_apart_within; simpl; try assumption.
    intros x. simpl. rewrite E1. repeat split; auto.
  - pose (s2 := set_b1 (snd (OD.setitem old (b1 s))) (set_t1 r s)).
    assert (E : t1_to_b1 s =
                when (OD.len (b1 s2) >? c s2)
                     (in_b1 OD.popitem_first ;; ret tt) s2).
    { unfold t1_to_b1, in_t1, in_b1. py_unfold. now rewrite E1. }
    assert (Hold : OD.mem old r = false).
    { destruct (OD.mem old r) eqn:M; [| reflexivity].
      apply ODFacts.od_mem_In in M. now inversion N1. }
    assert (H2 : Apart s2 /\ demoted s s2).
    { split.
      - unfold Apart, s2. fields.
        split; [now inversion N1 |]. split; [exact N2 |].
        split; [now apply ODFacts.od_setitem_distinct |].
        split; [exact N4 |].
        intros x. specialize (Hp x). unfold places in *. fields.
        rewrite ODFacts.od_setitem_mem. rewrite E1, ODFacts.od_mem_cons in Hp.
        destruct (Z.eqb_spec x old) as [Hx | _].
        + subst x. rewrite Hold. simpl in *.
          destruct (OD.mem old (t2 s)), (OD.mem old (b1 s)),
                   (OD.mem old (b2 s)); simpl in *; lia.
        + exact Hp.
      - intros x. unfold s2. fields. rewrite ODFacts.od_setitem_mem, E1.
        repeat split; auto.
        + apply arc_tail_mem.
        + rewrite ODFacts.od_mem_cons.
          destruct (x =? old); simpl; auto. }
    rewrite E. destruct H2 as [HA2 Hd2].
    destruct (arc_keeps_when (OD.len (b1 s2) >? c s2)
                (in_b1 OD.popitem_first ;; ret tt)
                (arc_keeps_bind _ _ arc_keeps_pop_b1
                   (fun _ => arc_keeps_ret tt)) s2 HA2) as [HA3 Hd3].
    split; [exact HA3 | now apply arc_demoted_trans with s2].
Qed.

Lemma arc_keeps_t2_to_b2 : keeps t2_to_b2.
Proof.
  intros s HA. pose proof HA as (N1 & N2 & N3 & N4 & Hp).
  destruct (t2 s) as [| old r] eqn:E2.
  - assert (E : t2_to_b2 s = (Raise KeyError, set_t2 [] s)).
    { unfold t2_to_b2, in_t2. py_unfold. now rewrite E2. }
    rewrite E. simpl. apply arc_apart_within; simpl; try assumption.
    intros x. simpl. rewrite E2. repeat split; auto.
  - pose (s2 := set_b2 (snd (OD.setitem old (b2 s))) (set_t2 r s)).
    assert (E : t2_to_b2 s =
                when (OD.len (b2 s2) >? c s2)
                     (in_b2 OD.popitem_first ;; ret tt) s2).
    { unfold t2_to_b2, in_t2, in_b2. py_unfold. now rewrite E2. }
    assert (Hold : OD.mem old r = false).
    { destruct (OD.mem old r) eqn:M; [| reflexivity].
      apply ODFacts.od_mem_In in M. now inversion N2. }
    assert (H2 : Apart s2 /\ demoted s s2).
    { split.
      - unfold Apart, s2. fields.
        split; [exact N1 |]. split; [now inversion N2 |].
        split; [exact N3 |].
        split; [now apply ODFacts.od_setitem_distinct |].
        intros x. specialize (Hp x). unfold places in *. fields.
        rewrite ODFacts.od_setitem_mem. rewrite E2, ODFacts.od_mem_cons in Hp.
        destruct (Z.eqb_spec x old) as [Hx | _].
        + subst x. rewrite Hold. simpl in *.
          destruct (OD.mem old (t1 s)), (OD.mem old (b1 s)),
                   (OD.mem old (b2 s)); simpl in *; lia.
        + exact Hp.
      - intros x. unfold s2. fields. rewrite ODFacts.od_setitem_mem, E2.
        repeat split; auto.
        + apply arc_tail_mem.
        + rewrite ODFacts.od_mem_cons.
          destruct (x =? old); simpl; auto. }
    rewrite E. destruct H2 as [HA2 Hd2].
    destruct (arc_keeps_when (OD.len (b2 s2) >? c s2)
                (in_b2 OD.popitem_first ;; ret tt)
                (arc_keeps_bind _ _ arc_keeps_pop_b2
                   (fun _ => arc_keeps_ret tt)) s2 HA2) as [HA3 Hd3].
    split; [exact HA3 | now apply arc_demoted_trans with s2].
Qed.

Lemma arc_keeps_replace item_in_b2 : keeps (_replace item_in_b2).
Proof.
  unfold _replace. apply arc_keeps_bind; [apply arc_keeps_gets |].
  intros [|]; [apply arc_keeps_t1_to_b1 |].
  apply arc_keeps_bind; [apply arc_keeps_gets |].
  intros b. apply arc_keeps_when, arc_keeps_t2_to_b2.
Qed.

Lemma arc_keeps_trim l1 l2 : keeps (trim l1 l2).
Proof.
  unfold trim. apply arc_keeps_bind; [apply arc_keeps_gets |]. intros cap.
  destruct (l1 =? cap).
  - apply arc_keeps_bind; [apply arc_keeps_gets |]. intros [|].
    + apply arc_keeps_bind; [apply arc_keeps_pop_b1 |].
      intros _. apply arc_keeps_replace.
    + apply arc_keeps_bind; [apply arc_keeps_pop_t1 |].
      intros _. apply arc_keeps_ret.
  - destruct ((l1 <? cap) && (l1 + l2 >=? cap)); [| apply arc_keeps_ret].
    apply arc_keeps_bind; [| intros _; apply arc_keeps_replace].
    apply arc_keeps_when.
    apply arc_keeps_bind; [apply arc_keeps_gets |]. intros b.
    apply arc_keeps_when.
    apply arc_keeps_bind; [apply arc_keeps_pop_b2 |].
    intros _. apply arc_keeps_ret.
Qed.

Lemma arc_keeps_make_room : keeps make_room.
Proof.
  unfold make_room. apply arc_keeps_bind; [apply arc_keeps_gets |].
  intros full. apply arc_keeps_when.
  apply arc_keeps_bind; [apply arc_keeps_gets |].
  intros [|]; [apply arc_keeps_t1_to_b1 |].
  apply arc_keeps_bind; [apply arc_keeps_gets |].
  intros b. apply arc_keeps_when, arc_keeps_t2_to_b2.
Qed.

(** ** The calls *)

(** A key that is in no list goes to the recent end of T1 or of T2. *)
Lemma arc_apart_enter_t1 item s :
  Apart s -> places item s = 0 ->
  Apart (set_t1 (snd (OD.setitem item (t1 s))) s).
Proof.
  intros (N1 & N2 & N3 & N4 & Hp) H0. unfold Apart. fields.
  split; [now apply ODFacts.od_setitem_distinct |].
  repeat (split; [assumption |]).
  intros x. specialize (Hp x). unfold places in *. fields.
  rewrite ODFacts.od_setitem_mem.
  destruct (Z.eqb_spec x item) as [Hx | _]; [subst x | exact Hp].
  destruct (OD.mem item (t1 s)), (OD.mem item (t2 s)),
           (OD.mem item (b1 s)), (OD.mem item (b2 s)); simpl in *; lia.
Qed.

Lemma arc_apart_enter_t2 item s :
  Apart s -> places item s = 0 ->
  Apart (set_t2 (snd (OD.setitem item (t2 s))) s).
Proof.
  intros (N1 & N2 & N3 & N4 & Hp) H0. unfold Apart. fields.
  split; [assumption |].
  split; [now apply ODFacts.od_setitem_distinct |].
  repeat (split; [assumption |]).
  intros x. specialize (Hp x). unfold places in *. fields.
  rewrite ODFacts.od_setitem_mem.
  destruct (Z.eqb_spec x item) as [Hx | _]; [subst x | exact Hp].
  destruct (OD.mem item (t1 s)), (OD.mem item (t2 s)),
           (OD.mem item (b1 s)), (OD.mem item (b2 s)); simpl in *; lia.
Qed.

(** A key that leaves its list is in no list. *)
Lemma arc_apart_leave item s (l1 l2 l3 l4 : OD.t) :
  Apart s ->
  (l1 = OD.remove item (t1 s) \/ l1 = t1 s) ->
  (l2 = OD.remove item (t2 s) \/ l2 = t2 s) ->
  (l3 = OD.remove item (b1 s) \/ l3 = b1 s) ->
  (l4 = OD.remove item (b2 s) \/ l4 = b2 s) ->
  Apart (mk (base s) (c s) (p s) l1 l2 l3 l4) /\
  (forall x, places x (mk (base s) (c s) (p s) l1 l2 l3 l4) <= places x s).
Proof.
  intros HA H1 H2 H3 H4.
  assert (Hw : within s (mk (base s) (c s) (p s) l1 l2 l3 l4)).
  { intros x. fields. simpl.
    repeat split; intros H;
      [destruct H1 as [-> | ->] | destruct H2 as [-> | ->]
       | destruct H3 as [-> | ->] | destruct H4 as [-> | ->]];
      try exact H;
      rewrite ODFacts.od_mem_remove in H;
      now apply andb_prop in H. }
  pose proof HA as (N1 & N2 & N3 & N4 & _).
  split.
  - apply (arc_apart_within s); try assumption; simpl;
      [destruct H1 as [-> | ->] | destruct H2 as [-> | ->]
       | destruct H3 as [-> | ->] | destruct H4 as [-> | ->]];
      try assumption; now apply ODFacts.od_remove_distinct.
  - intros x. now apply arc_within_places.
Qed.

Lemma arc_places_nil x s :
  OD.mem x (t1 s) = false -> OD.mem x (t2 s) = false ->
  OD.mem x (b1 s) = false -> OD.mem x (b2 s) = false ->
  places x s = 0.
Proof. intros H1 H2 H3 H4. unfold places. now rewrite H1, H2, H3, H4. Qed.

Lemma arc_places_one x s :
  Apart s ->
  (OD.mem x (t1 s) = true ->
   OD.mem x (t2 s) = false /\ OD.mem x (b1 s) = false /\
   OD.mem x (b2 s) = false) /\
  (OD.mem x (t2 s) = true ->
   OD.mem x (t1 s) = false /\ OD.mem x (b1 s) = false /\
   OD.mem x (b2 s) = false) /\
  (OD.mem x (b1 s) = true ->
   OD.mem x (t1 s) = false /\ OD.mem x (t2 s) = false /\
   OD.mem x (b2 s) = false) /\
  (OD.mem x (b2 s) = true ->
   OD.mem x (t1 s) = false /\ OD.mem x (t2 s) = false /\
   OD.mem x (b1 s) = false).
Proof.
  intros (_ & _ & _ & _ & Hp). specialize (Hp x). unfold places in Hp.
  destruct (OD.mem x (t1 s)), (OD.mem x (t2 s)),
           (OD.mem x (b1 s)), (OD.mem x (b2 s)); simpl in Hp;
    repeat split; intros; try reflexivity; try discriminate; lia.
Qed.

Lemma arc_hit_t1_apart item s :
  Apart s -> OD.mem item (t1 s) = true ->
  Apart (set_t2 (snd (OD.setitem item (t2 s)))
           (set_t1 (OD.remove item (t1 s)) s)).
Proof.
  intros HA M1.
  destruct (proj1 (arc_places_one item s HA) M1) as (M2 & M3 & M4).
  destruct (arc_apart_leave item s (OD.remove item (t1 s)) (t2 s) (b1 s) (b2 s)
              HA) as [HA1 _]; auto.
  apply (arc_apart_enter_t2 item _ HA1).
  apply arc_places_nil; simpl; try assumption.
  apply ODFacts.od_remove_absent.
Qed.

Lemma arc_hit_t2_apart item s :
  Apart s -> OD.mem item (t2 s) = true ->
  Apart (set_t2 (OD.remove item (t2 s) ++ [item]) s).
Proof.
  intros HA M2.
  destruct (proj1 (proj2 (arc_places_one item s HA)) M2) as (M1 & M3 & M4).
  destruct (arc_apart_leave item s (t1 s) (OD.remove item (t2 s)) (b1 s) (b2 s)
              HA) as [HA1 _]; auto.
  assert (H0 : places item
                 (mk (base s) (c s) (p s) (t1 s) (OD.remove item (t2 s))
                     (b1 s) (b2 s)) = 0).
  { apply arc_places_nil; simpl; try assumption.
    apply ODFacts.od_remove_absent. }
  pose proof (arc_apart_enter_t2 item _ HA1 H0) as HA2.
  unfold set_t2, OD.setitem, modify in HA2. simpl in HA2.
  rewrite ODFacts.od_remove_absent in HA2. exact HA2.
Qed.

(** The ghost hits, after the adaptation of [p]. *)
Lemma arc_ghost_hit_apart item (item_in_b2 : bool) s :
  Apart s ->
  OD.mem item (t1 s) = false -> OD.mem item (t2 s) = false ->
  OD.mem item (if item_in_b2 then b1 s else b2 s) = false ->
  Apart (snd (ARCFacts.ghost_hit item item_in_b2 s)).
Proof.
  intros HA M1 M2 Mb.
  destruct (arc_keeps_replace item_in_b2 s HA) as [HA1 Hd].
  unfold ARCFacts.ghost_hit. unfold bind at 1.
  destruct (_replace item_in_b2 s) as [[[] | e] s1]; cbn [snd] in *;
    [| exact HA1].
  destruct (Hd item) as (D1 & D2 & D3 & D4).
  assert (M1' : OD.mem item (t1 s1) = false).
  { destruct (OD.mem item (t1 s1)); [| reflexivity].
    specialize (D1 eq_refl). congruence. }
  assert (M2' : OD.mem item (t2 s1) = false).
  { destruct (OD.mem item (t2 s1)); [| reflexivity].
    specialize (D2 eq_refl). congruence. }
  destruct item_in_b2.
  - assert (M3' : OD.mem item (b1 s1) = false).
    { destruct (OD.mem item (b1 s1)); [| reflexivity].
      destruct (D3 eq_refl); congruence. }
    unfold in_b2, in_t2, OD.delitem. py_unfold.
    destruct (OD.mem item (b2 s1)) eqn:M4; cbn [snd fst].
    + destruct (arc_apart_leave item s1 (t1 s1) (t2 s1) (b1 s1)
                  (OD.remove item (b2 s1)) HA1) as [HA2 _]; auto.
      apply (arc_apart_enter_t2 item _ HA2).
      apply arc_places_nil; simpl; try assumption.
      apply ODFacts.od_remove_absent.
    + destruct (arc_apart_leave item s1 (t1 s1) (t2 s1) (b1 s1) (b2 s1) HA1)
        as [HA2 _]; auto.
  - assert (M4' : OD.mem item (b2 s1) = false).
    { destruct (OD.mem item (b2 s1)); [| reflexivity].
      destruct (D4 eq_refl); congruence. }
    unfold in_b1, in_t2, OD.delitem. py_unfold.
    destruct (OD.mem item (b1 s1)) eqn:M3; cbn [snd fst].
    + destruct (arc_apart_leave item s1 (t1 s1) (t2 s1)
                  (OD.remove item (b1 s1)) (b2 s1) HA1) as [HA2 _]; auto.
      apply (arc_apart_enter_t2 item _ HA2).
      apply arc_places_nil; simpl; try assumption.
      apply ODFacts.od_remove_absent.
    + destruct (arc_apart_leave item s1 (t1 s1) (t2 s1) (b1 s1) (b2 s1) HA1)
        as [HA2 _]; auto.
Qed.

Lemma arc_demoted_absent item s s' :
  demoted s s' -> places item s = 0 -> places item s' = 0.
Proof.
  intros Hd H0. destruct (Hd item) as (D1 & D2 & D3 & D4).
  unfold places in *.
  destruct (OD.mem item (t1 s)), (OD.mem item (t2 s)),
           (OD.mem item (b1 s)), (OD.mem item (b2 s)); simpl in H0; try lia.
  destruct (OD.mem item (t1 s')), (OD.mem item (t2 s')),
           (OD.mem item (b1 s')), (OD.mem item (b2 s')); mems; reflexivity.
Qed.

Lemma arc_complete_miss_apart item s :
  Apart s -> places item s = 0 ->
  Apart (snd (complete_miss item s)).
Proof.
  intros HA H0. unfold complete_miss.
  unfold bind at 1, gets at 1. unfold bind at 1, gets at 1.
  set (l1 := OD.len (t1 s) + OD.len (b1 s)).
  set (l2 := OD.len (t2 s) + OD.len (b2 s)).
  destruct (arc_keeps_trim l1 l2 s HA) as [HA1 Hd1].
  unfold bind at 1.
  destruct (trim l1 l2 s) as [[[] | e] s1]; cbn [snd] in *; [| exact HA1].
  destruct (arc_keeps_make_room s1 HA1) as [HA2 Hd2].
  unfold bind at 1.
  destruct (make_room s1) as [[[] | e] s2]; cbn [snd] in *; [| exact HA2].
  unfold in_t1. py_unfold. cbn [snd].
  apply (arc_apart_enter_t1 item s2 HA2).
  apply (arc_demoted_absent item s1 s2 Hd2).
  now apply (arc_demoted_absent item s s1 Hd1).
Qed.

Lemma arc_access_apart item s : Apart s -> Apart (snd (access item s)).
Proof.
  intros HA. rewrite ARCFacts.arc_access_cases.
  destruct (OD.mem item (t1 s)) eqn:M1.
  { cbn [snd].
    apply (arc_hit_t1_apart item (ARCFacts.counted_state true s));
      [exact HA | exact M1]. }
  destruct (OD.mem item (t2 s)) eqn:M2.
  { cbn [snd].
    apply (arc_hit_t2_apart item (ARCFacts.counted_state true s));
      [exact HA | exact M2]. }
  destruct (OD.mem item (b1 s)) eqn:M3.
  { apply arc_ghost_hit_apart; try assumption.
    exact (proj2 (proj2 (proj1 (proj2 (proj2 (arc_places_one item s HA)))
                           M3))). }
  destruct (OD.mem item (b2 s)) eqn:M4.
  { apply arc_ghost_hit_apart; assumption. }
  apply arc_complete_miss_apart; [exact HA |].
  now apply arc_places_nil.
Qed.

Lemma arc_apart_init cap : Apart (__init__ cap).
Proof.
  unfold Apart. simpl. repeat split; try constructor.
  intros x. unfold places. simpl. lia.
Qed.

(** Lists that are apart make one list without repetition. *)
Lemma arc_apart_distinct s :
  Apart s -> NoDup (t1 s ++ t2 s ++ b1 s ++ b2 s).
Proof.
  intros HA. pose proof HA as (N1 & N2 & N3 & N4 & _).
  assert (Hone := fun x => arc_places_one x s HA).
  apply NoDup_app; [exact N1 | |].
  - apply NoDup_app; [exact N2 | |].
    + apply NoDup_app; [exact N3 | exact N4 |].
      intros x H3 H4. apply ODFacts.od_mem_In in H3, H4.
      destruct (Hone x) as (_ & _ & H & _). destruct (H H3) as (_ & _ & E).
      congruence.
    + intros x H2 H. apply ODFacts.od_mem_In in H2.
      destruct (Hone x) as (_ & Hx & _). destruct (Hx H2) as (_ & E3 & E4).
      apply in_app_or in H. destruct H as [H | H];
        apply ODFacts.od_mem_In in H; congruence.
  - intros x H1 H. apply ODFacts.od_mem_In in H1.
    destruct (Hone x) as (Hx & _). destruct (Hx H1) as (E2 & E3 & E4).
    apply in_app_or in H. destruct H as [H | H];
      [apply ODFacts.od_mem_In in H; congruence |].
    apply in_app_or in H. destruct H as [H | H];
      apply ODFacts.od_mem_In in H; congruence.
Qed.

(** ** The ghost hit that loses its ghost *)

(** [_replace(True)] moves the least recent entry of T2 to B2 and B2,
    then over its limit, drops the ghost entry of [item]. *)
Definition drops_ghost (item : Z) (s : t) : bool :=
  match b2 s with h :: _ => h =? item | [] => false end
  && (c s <=? OD.len (b2 s))
  && OD.nonempty (t2 s)
  && negb (ARCFacts.from_t1 true s).

(** The same test before [access] adapts [p]. *)
Definition raises (item : Z) (s : t) : bool :=
  drops_ghost item (set_p (Z.max 0 (p s - ARCFacts.delta2 s)) s).

Lemma arc_ghost_tail_returns item s1 :
  OD.mem item (b2 s1) = true ->
  fst ((in_b2 (OD.delitem item) ;; in_t2 (OD.setitem item) ;; ret false) s1)
  = Ret false.
Proof.
  intros M. unfold in_b2, in_t2, OD.delitem. py_unfold. now rewrite M.
Qed.

Lemma arc_ghost_tail_raises item s1 :
  OD.mem item (b2 s1) = false ->
  fst ((in_b2 (OD.delitem item) ;; in_t2 (OD.setitem item) ;; ret false) s1)
  = Raise KeyError.
Proof.
  intros M. unfold in_b2, in_t2, OD.delitem. py_unfold. now rewrite M.
Qed.

Lemma arc_ghost_hit_in_b2_outcome item s :
  Apart s -> OD.mem item (b2 s) = true ->
  fst (ARCFacts.ghost_hit item true s)
  = if drops_ghost item s then Raise KeyError else Ret false.
Proof.
  intros HA M4. pose proof HA as (N1 & N2 & N3 & N4 & _).
  destruct (proj2 (proj2 (proj2 (arc_places_one item s HA))) M4)
    as (M1 & M2 & M3).
  unfold ARCFacts.ghost_hit, _replace, drops_ghost.
  unfold bind at 1. unfold bind at 1, gets at 1.
  fold (ARCFacts.from_t1 true s).
  destruct (ARCFacts.from_t1 true s) eqn:Hfrom.
  - (* T1 gives way: B2 stays *)
    rewrite andb_false_r.
    assert (Hne : OD.nonempty (t1 s) = true).
    { unfold ARCFacts.from_t1 in Hfrom. now apply andb_prop in Hfrom. }
    destruct (ARCFacts.arc_t1_to_b1_spec s Hne) as (s1 & E & _ & _ & Hb2 & _).
    rewrite E. apply arc_ghost_tail_returns. now rewrite Hb2.
  - rewrite andb_true_r. unfold bind at 1, gets at 1.
    destruct (t2 s) as [| old r] eqn:E2.
    + (* nothing to move *)
      rewrite andb_false_r. simpl. now apply arc_ghost_tail_returns.
    + rewrite andb_true_r.
      change (OD.nonempty (old :: r)) with true. unfold when.
      assert (Hold : OD.mem old (b2 s) = false).
      { apply (proj1 (proj2 (arc_places_one old s HA))).
        rewrite E2, ODFacts.od_mem_cons, Z.eqb_refl. reflexivity. }
      assert (Hne : (item =? old) = false).
      { destruct (Z.eqb_spec item old) as [-> | _]; [| reflexivity].
        rewrite ODFacts.od_mem_cons, Z.eqb_refl in M2. discriminate. }
      destruct (b2 s) as [| h rest] eqn:Eb2; [discriminate M4 |].
      assert (Hrest : OD.mem item rest = negb (h =? item)).
      { rewrite ODFacts.od_mem_cons in M4.
        destruct (Z.eqb_spec h item) as [-> | Hh].
        - simpl. destruct (OD.mem item rest) eqn:Mr; [| reflexivity].
          apply ODFacts.od_mem_In in Mr. now inversion N4.
        - destruct (Z.eqb_spec item h) as [-> | _]; [contradiction |].
          exact M4. }
      assert (E : t2_to_b2 s =
                  if c s <=? OD.len (h :: rest)
                  then (Ret tt, set_b2 (rest ++ [old]) (set_t2 r s))
                  else (Ret tt, set_b2 ((h :: rest) ++ [old]) (set_t2 r s))).
      { unfold t2_to_b2, in_t2, in_b2, OD.setitem. py_unfold.
        rewrite E2. cbn [OD.popitem_first fst snd b2 set_b2 set_t2 c].
        rewrite Eb2, Hold. cbn [fst snd b2 set_b2 set_t2 c].
        rewrite ODFacts.od_len_app, !ODFacts.od_len_cons, ODFacts.od_len_nil.
        destruct (Z.gtb_spec (OD.len rest + 1 + (0 + 1)) (c s)),
                 (Z.leb_spec (c s) (OD.len rest + 1)); try lia; reflexivity. }
      rewrite E.
      destruct (c s <=? OD.len (h :: rest)).
      * rewrite andb_true_r.
        destruct (h =? item) eqn:Eh.
        -- apply arc_ghost_tail_raises. cbn [b2 set_b2].
           rewrite ODFacts.od_mem_app, Hrest, ODFacts.od_mem_cons, Hne.
           reflexivity.
        -- apply arc_ghost_tail_returns. cbn [b2 set_b2].
           rewrite ODFacts.od_mem_app, Hrest. reflexivity.
      * rewrite andb_false_r. apply arc_ghost_tail_returns. cbn [b2 set_b2].
        rewrite ODFacts.od_mem_app, M4. reflexivity.
Qed.

Lemma arc_access_outcome cap item s :
  0 < cap -> ARCFacts.Inv cap s -> Apart s ->
  fst (access item s)
  = if raises item s then Raise KeyError
    else Ret (ARCFacts.resident item s).
Proof.
  intros Hcap Hinv HA.
  destruct (ARCFacts.arc_access_spec cap item s Hcap Hinv)
    as (_ & _ & _ & Hhit & Hmiss).
  assert (Hhead : raises item s = true -> OD.mem item (b2 s) = true).
  { unfold raises, drops_ghost. cbn [b2 set_p].
    destruct (b2 s) as [| h rest]; [discriminate |].
    intros H. rewrite ODFacts.od_mem_cons, Z.eqb_sym.
    destruct (h =? item); [reflexivity | discriminate]. }
  destruct (OD.mem item (b2 s)) eqn:M4.
  - destruct (proj2 (proj2 (proj2 (arc_places_one item s HA))) M4)
      as (M1 & M2 & M3).
    unfold ARCFacts.resident. rewrite ARCFacts.arc_access_cases, M1, M2, M3, M4.
    simpl orb.
    apply (arc_ghost_hit_in_b2_outcome item
             (set_p (Z.max 0 (p s - ARCFacts.delta2 s))
                    (ARCFacts.counted_state false s)));
      [exact HA | exact M4].
  - destruct (raises item s); [now specialize (Hhead eq_refl) |].
    destruct (ARCFacts.resident item s) eqn:R.
    + now apply Hhit.
    + destruct (Hmiss eq_refl) as [[Ho _] | [Hb2 _]];
        [exact Ho | congruence].
Qed.

End ARCLists.

(** X15. In every state an [ARCCache] reaches, whatever its capacity and
    whether or not a call raised on the way, no list among T1, T2, B1 and
    B2 repeats a key and no key is in two of them. *)
Theorem arc_lists_are_disjoint (capacity : Z) (trace : list Z) :
  let s := final trace (new ARC capacity) in
  NoDup (ARCCache.t1 s ++ ARCCache.t2 s ++ ARCCache.b1 s ++ ARCCache.b2 s).
Proof.
  intros s. apply ARCLists.arc_apart_distinct.
  apply (@final_invariant _ (policy_ops ARC) ARCLists.Apart).
  - intros item s0. apply ARCLists.arc_access_apart.
  - apply ARCLists.arc_apart_init.
Qed.

(** X16. A call to an [ARCCache] of positive capacity raises [KeyError]
    exactly when the item heads a full B2 and [_replace] demotes an entry
    of T2 (T2 is not empty, and T1 is empty or shorter than the adapted
    [p]): the ghost entry of the item is then dropped before
    [del self.b2[item]].  Every other call returns whether the item was
    resident. *)
Theorem arc_call_raises_exactly_when_its_ghost_is_dropped
  (capacity : Z) (trace : list Z) (item : Z) :
  0 < capacity ->
  let s := final trace (new ARC capacity) in
  fst (access item s)
  = if ARCLists.raises item s then Raise KeyError
    else Ret (resident item s).
Proof.
  intros Hcap s.
  apply (ARCLists.arc_access_outcome capacity).
  - exact Hcap.
  - exact (inv_final ARC capacity Hcap trace).
  - apply (@final_invariant _ (policy_ops ARC) ARCLists.Apart).
    + intros x s0. apply ARCLists.arc_access_apart.
    + apply ARCLists.arc_apart_init.
Qed.

Lemma arc_call_raises_exactly_when_its_ghost_is_dropped_witness :
  let s := final [1; 1; 2; 2; 3; 3; 4; 4] (new ARC 2) in
  0 < 2 /\ ARCLists.raises 1 s = true /\
  fst (access 1 s)
  = if ARCLists.raises 1 s then Raise KeyError else Ret (resident 1 s).
Proof.
  intros s. assert (Hcap : 0 < 2) by lia.
  split; [exact Hcap |]. split; [reflexivity |].
  exact (arc_call_raises_exactly_when_its_ghost_is_dropped
           2 [1; 1; 2; 2; 3; 3; 4; 4] 1 Hcap).
Defined.

(** * The sliding window experiment *)

(** ** One algorithm at a time *)

(** The inner loop of one algorithm over a trace. *)
Fixpoint track (window_size i : Z) (trace : list Z) (t : Experiment.tracker)
  : outcome Experiment.tracker :=
  match trace with
  | [] => Ret t
  | item :: rest =>
      match Experiment.observe window_size i item t with
      | Raise e => Raise e
      | Ret t' => track window_size (i + 1) rest t'
      end
  end.

Lemma observe_all_returns w i item ts ts' :
  Experiment.observe_all w i item ts = Ret ts' <->
  Forall2 (fun t t' => Experiment.observe w i item t = Ret t') ts ts'.
Proof.
  revert ts'. induction ts as [| t rest IH]; intros ts'; simpl.
  - split.
    + intros [= <-]. constructor.
    + intros H. now inversion H.
  - destruct (Experiment.observe w i item t) as [t1 | e] eqn:E.
    + destruct (Experiment.observe_all w i item rest) as [rest1 | e] eqn:Er.
      * split.
        -- intros [= <-]. constructor; [exact E | now apply IH].
        -- intros H. inversion H as [| ? t2 ? rest2 Ht Hrest]; subst.
           rewrite E in Ht. injection Ht as <-.
           apply IH in Hrest. now injection Hrest as <-.
      * split; [discriminate |].
        intros H. inversion H as [| ? t2 ? rest2 Ht Hrest]; subst.
        apply IH in Hrest. discriminate.
    + split; [discriminate |].
      intros H. inversion H as [| ? t2 ? rest2 Ht Hrest]; subst.
      rewrite E in Ht. discriminate.
Qed.

Lemma forall2_through {A} (P Q : A -> A -> Prop) (l l' : list A) :
  Forall2 (fun a a' => exists b, P a b /\ Q b a') l l' ->
  exists m, Forall2 P l m /\ Forall2 Q m l'.
Proof.
  induction 1 as [| a a' l l' (b & Hp & Hq) _ (m & Hm1 & Hm2)].
  - exists []. split; constructor.
  - exists (b :: m). split; constructor; assumption.
Qed.

Lemma forall2_compose {A} (P Q : A -> A -> Prop) (l m l' : list A) :
  Forall2 P l m -> Forall2 Q m l' ->
  Forall2 (fun a a' => exists b, P a b /\ Q b a') l l'.
Proof.
  intros H. revert l'. induction H as [| a b l m Hab _ IH]; intros l' H'.
  - inversion H'. constructor.
  - inversion H' as [| ? a' ? l2 Hba Hrest]; subst.
    constructor; [now exists b | now apply IH].
Qed.

Lemma forall2_map {A} (R : A -> A -> Prop) (f : A -> A) (l : list A) :
  (forall a, In a l -> R a (f a)) -> Forall2 R l (map f l).
Proof.
  induction l as [| a l IH]; intros H; simpl; constructor.
  - apply H. now left.
  - apply IH. intros b Hb. apply H. now right.
Qed.

Lemma forall2_left {A} (R : A -> A -> Prop) (l l' : list A) :
  Forall2 R l l' -> forall a, In a l -> exists a', R a a'.
Proof.
  induction 1 as [| a a' l l' Ha _ IH]; intros b Hb; [contradiction |].
  destruct Hb as [<- | Hb]; [now exists a' | now apply IH].
Qed.

(** The loop over the trace returns exactly when each algorithm's own loop
    does, and with the same trackers. *)
Lemma observe_trace_returns w trace : forall i ts ts',
  Experiment.observe_trace w i trace ts = Ret ts' <->
  Forall2 (fun t t' => track w i trace t = Ret t') ts ts'.
Proof.
  induction trace as [| item rest IH]; intros i ts ts'; simpl.
  - split.
    + intros [= <-]. induction ts; constructor; auto.
    + intros H. f_equal. induction H as [| t t' l l' [= <-] _ IHl];
        [reflexivity | now rewrite IHl].
  - split.
    + destruct (Experiment.observe_all w i item ts) as [ts1 | e] eqn:E;
        [| discriminate].
      intros H. apply IH in H. apply observe_all_returns in E.
      pose proof (forall2_compose _ _ _ _ _ E H) as H2.
      clear -H2. induction H2 as [| t t' l l' (t1 & H1 & Ht) _ IHl];
        constructor; [| exact IHl].
      now rewrite H1.
    + intros H.
      assert (H2 : Forall2 (fun t t' => exists t1,
                    Experiment.observe w i item t = Ret t1 /\
                    track w (i + 1) rest t1 = Ret t') ts ts').
      { clear -H. induction H as [| t t' l l' Ht _ IHl];
          constructor; [| exact IHl].
        destruct (Experiment.observe w i item t) as [t1 | e];
          [now exists t1 | discriminate]. }
      apply forall2_through in H2. destruct H2 as (ts1 & H1 & Hrest).
      apply observe_all_returns in H1. rewrite H1. now apply IH.
Qed.

(** [1 if hit else 0], for the outcome of a call *)
Definition bit (o : outcome bool) : Z :=
  match o with Ret true => 1 | _ => 0 end.

Definition returned (o : outcome bool) : bool :=
  match o with Ret _ => true | Raise _ => false end.

(** [sum(window) / window_size] *)
Definition ratio (window_size : Z) (window : list Z) : Q :=
  (inject_Z (Experiment.sum window) / inject_Z window_size)%Q.

(** The hit ratios that the loop appends while it goes through [hits],
    with [seen] in [window_hits] already. *)
Fixpoint ratios (window_size : Z) (seen hits : list Z) : list Q :=
  match hits with
  | [] => []
  | h :: rest =>
      (if Z.of_nat (length seen) >=? window_size
       then [ratio window_size
                   (Experiment.slice_from (- window_size) (seen ++ [h]))]
       else [])
      ++ ratios window_size (seen ++ [h]) rest
  end.

Lemma track_returns w trace : forall t : Experiment.tracker,
  w <> 0 ->
  forallb returned (results trace (Experiment.cache t)) = true ->
  track w (Z.of_nat (length (Experiment.window_hits t))) trace t =
  Ret (Experiment.mk_tracker
         (Experiment.name t) (Experiment.kind t)
         (final trace (Experiment.cache t))
         (Experiment.window_hits t
          ++ map bit (results trace (Experiment.cache t)))
         (Experiment.results t
          ++ ratios w (Experiment.window_hits t)
                    (map bit (results trace (Experiment.cache t))))).
Proof.
  induction trace as [| item rest IH]; intros t Hw Hall.
  - destruct t as [n k s wh rs]. unfold results, final. simpl.
    now rewrite !app_nil_r.
  - rewrite results_next in Hall |- *. rewrite final_cons.
    simpl in Hall. apply andb_prop in Hall. destruct Hall as [Hfst Hrest].
    simpl track. unfold Experiment.observe.
    destruct (access item (Experiment.cache t)) as [[hit | e] s1] eqn:E;
      [| discriminate Hfst].
    cbn [fst snd] in *.
    set (h := if hit then 1 else 0).
    assert (Hbit : bit (Ret hit) = h) by (destruct hit; reflexivity).
    unfold Experiment.truediv.
    destruct (Z.eqb_spec w 0) as [| _]; [contradiction |].
    rewrite map_cons, Hbit. simpl ratios.
    destruct (Z.of_nat (length (Experiment.window_hits t)) >=? w).
    + pose (t' := Experiment.mk_tracker (Experiment.name t) (Experiment.kind t)
                    s1 (Experiment.window_hits t ++ [h])
                    (Experiment.results t ++
                     [ratio w (Experiment.slice_from (- w)
                                 (Experiment.window_hits t ++ [h]))])).
      specialize (IH t' Hw Hrest). cbn [t' Experiment.window_hits
        Experiment.cache Experiment.name Experiment.kind Experiment.results]
        in IH.
      rewrite length_app, Nat2Z.inj_add in IH. simpl length in IH.
      change (Z.of_nat 1) with 1 in IH.
      refine (eq_trans IH _). now rewrite <- !app_assoc.
    + pose (t' := Experiment.mk_tracker (Experiment.name t) (Experiment.kind t)
                    s1 (Experiment.window_hits t ++ [h])
                    (Experiment.results t)).
      specialize (IH t' Hw Hrest). cbn [t' Experiment.window_hits
        Experiment.cache Experiment.name Experiment.kind Experiment.results]
        in IH.
      rewrite length_app, Nat2Z.inj_add in IH. simpl length in IH.
      change (Z.of_nat 1) with 1 in IH.
      refine (eq_trans IH _). now rewrite <- !app_assoc.
Qed.

Lemma track_raises w trace : forall i (t : Experiment.tracker),
  forallb returned (results trace (Experiment.cache t)) = false ->
  exists e, track w i trace t = Raise e.
Proof.
  induction trace as [| item rest IH]; intros i t Hall; [discriminate |].
  rewrite results_next in Hall. simpl in Hall. simpl track.
  destruct (Experiment.observe w i item t) as [t' | e] eqn:Eo; [| now exists e].
  apply IH. unfold Experiment.observe in Eo.
  destruct (access item (Experiment.cache t)) as [[hit | e] s1] eqn:E;
    [| discriminate Eo].
  cbn [fst snd returned] in Hall. simpl in Hall.
  destruct (i >=? w).
  - destruct (Experiment.truediv _ w); [| discriminate Eo].
    injection Eo as <-. exact Hall.
  - injection Eo as <-. exact Hall.
Qed.

(** With a positive capacity and a window size other than 0 the loop
    raises nothing but the [KeyError] of an [ARCCache]. *)
Lemma observe_raises c w i item (t : Experiment.tracker) e :
  0 < c -> w <> 0 ->
  Inv (Experiment.kind t) c (Experiment.cache t) ->
  Experiment.observe w i item t = Raise e -> e = KeyError.
Proof.
  intros Hc Hw Hinv Eo. unfold Experiment.observe in Eo.
  destruct (access item (Experiment.cache t)) as [[hit | e'] s1] eqn:E.
  - unfold Experiment.truediv in Eo.
    destruct (Z.eqb_spec w 0); [contradiction |].
    destruct (i >=? w); discriminate Eo.
  - injection Eo as <-.
    apply (raise_is_arc_keyerror (Experiment.kind t) c Hc item
             (Experiment.cache t) e' Hinv).
    now rewrite E.
Qed.

Lemma observe_keeps_inv c w i item (t t' : Experiment.tracker) :
  0 < c ->
  Inv (Experiment.kind t) c (Experiment.cache t) ->
  Experiment.observe w i item t = Ret t' ->
  Inv (Experiment.kind t') c (Experiment.cache t').
Proof.
  intros Hc Hinv Eo. unfold Experiment.observe in Eo.
  pose proof (inv_access (Experiment.kind t) c Hc item _ Hinv) as Hinv'.
  destruct (access item (Experiment.cache t)) as [[hit | e'] s1] eqn:E;
    [| discriminate Eo].
  cbn [snd] in Hinv'.
  destruct (i >=? w).
  - destruct (Experiment.truediv _ w); [| discriminate Eo].
    injection Eo as <-. exact Hinv'.
  - injection Eo as <-. exact Hinv'.
Qed.

Lemma observe_all_raises c w i item ts e :
  0 < c -> w <> 0 ->
  Forall (fun t => Inv (Experiment.kind t) c (Experiment.cache t)) ts ->
  Experiment.observe_all w i item ts = Raise e -> e = KeyError.
Proof.
  intros Hc Hw Hall. induction Hall as [| t rest Ht _ IH]; [discriminate |].
  simpl. destruct (Experiment.observe w i item t) as [t' | e'] eqn:Eo.
  - destruct (Experiment.observe_all w i item rest); [discriminate |].
    intros [= <-]. now apply IH.
  - intros [= <-]. now apply (observe_raises c w i item t).
Qed.

Lemma observe_all_keeps_inv c w i item ts ts' :
  0 < c ->
  Forall (fun t => Inv (Experiment.kind t) c (Experiment.cache t)) ts ->
  Experiment.observe_all w i item ts = Ret ts' ->
  Forall (fun t => Inv (Experiment.kind t) c (Experiment.cache t)) ts'.
Proof.
  intros Hc Hall E. apply observe_all_returns in E.
  induction E as [| t t' l l' Ht _ IH]; [constructor |].
  inversion Hall; subst. constructor; [| now apply IH].
  now apply (observe_keeps_inv c w i item t).
Qed.

Lemma observe_trace_raises c w trace : forall i ts e,
  0 < c -> w <> 0 ->
  Forall (fun t => Inv (Experiment.kind t) c (Experiment.cache t)) ts ->
  Experiment.observe_trace w i trace ts = Raise e -> e = KeyError.
Proof.
  induction trace as [| item rest IH]; intros i ts e Hc Hw Hall;
    [discriminate |].
  simpl. destruct (Experiment.observe_all w i item ts) as [ts' | e'] eqn:E.
  - apply IH; try assumption.
    now apply (observe_all_keeps_inv c w i item ts).
  - intros [= <-]. now apply (observe_all_raises c w i item ts).
Qed.

(** ** The windows *)

(** The hit ratios of an algorithm whose calls gave [hits]: one for each
    run of [window_size] consecutive calls that starts after the first
    call. *)
Definition windows (window_size : Z) (hits : list Z) : list Q :=
  map (fun j => ratio window_size
                  (firstn (Z.to_nat window_size) (skipn (S j) hits)))
      (seq 0 (length hits - Z.to_nat window_size)).

(** [1 if hit else 0] for each call of a trace on a new cache *)
Definition hit_bits (k : policy) (cache_size : Z) (trace : list Z) : list Z :=
  map bit (results trace (new k cache_size)).

Lemma slice_last w (l : list Z) :
  0 < w ->
  Experiment.slice_from (- w) l = skipn (length l - Z.to_nat w) l.
Proof.
  intros Hw. unfold Experiment.slice_from.
  destruct (Z.ltb_spec (- w) 0) as [_ | H]; [| lia].
  f_equal. lia.
Qed.

Lemma window_of_last (W a : nat) (l rest : list Z) :
  length l = (S a + W)%nat ->
  firstn W (skipn (S a) (l ++ rest)) = skipn (S a) l.
Proof.
  intros Hl. rewrite skipn_app.
  replace (S a - length l)%nat with 0%nat by lia. rewrite skipn_O.
  rewrite firstn_app, length_skipn.
  replace (W - (length l - S a))%nat with 0%nat by lia.
  rewrite firstn_O, app_nil_r. apply firstn_all2.
  rewrite length_skipn. lia.
Qed.

Lemma ratios_closed w hits : forall seen,
  0 < w ->
  ratios w seen hits =
  map (fun j => ratio w (firstn (Z.to_nat w) (skipn (S j) (seen ++ hits))))
      (seq (length seen - Z.to_nat w)
           ((length seen + length hits - Z.to_nat w)
            - (length seen - Z.to_nat w))).
Proof.
  induction hits as [| h rest IH]; intros seen Hw.
  - simpl. rewrite Nat.add_0_r, Nat.sub_diag. reflexivity.
  - simpl ratios. rewrite (IH (seen ++ [h]) Hw), <- app_assoc. simpl app.
    rewrite length_app. simpl length.
    destruct (Z.geb_spec (Z.of_nat (length seen)) w) as [Hge | Hlt].
    + replace ((length seen + S (length rest) - Z.to_nat w)
               - (length seen - Z.to_nat w))%nat
        with (S (length rest)) by lia.
      replace ((length seen + 1 + length rest - Z.to_nat w)
               - (length seen + 1 - Z.to_nat w))%nat
        with (length rest) by lia.
      replace (length seen + 1 - Z.to_nat w)%nat
        with (S (length seen - Z.to_nat w)) by lia.
      rewrite <- cons_seq, map_cons.
      change ([?x] ++ ?l) with (x :: l).
      f_equal. f_equal.
      rewrite slice_last by exact Hw.
      rewrite length_app. simpl length.
      replace (length seen + 1 - Z.to_nat w)%nat
        with (S (length seen - Z.to_nat w)) by lia.
      symmetry.
      change (seen ++ h :: rest) with (seen ++ [h] ++ rest).
      rewrite app_assoc. apply window_of_last.
      rewrite length_app. simpl length. lia.
    + replace (length seen + 1 - Z.to_nat w)%nat with 0%nat by lia.
      replace (length seen - Z.to_nat w)%nat with 0%nat by lia.
      simpl app. f_equal. f_equal. lia.
Qed.

Lemma ratios_windows w hits : 0 < w -> ratios w [] hits = windows w hits.
Proof.
  intros Hw. rewrite ratios_closed by exact Hw. unfold windows. simpl.
  now rewrite Nat.sub_0_r.
Qed.

Lemma all_return_outside_arc k c trace :
  0 < c -> k <> ARC -> forallb returned (results trace (new k c)) = true.
Proof.
  intros Hc Hk. apply forallb_forall. apply Forall_forall.
  apply (results_all k c Hc (fun o => returned o = true));
    [| now apply inv_new].
  intros item s Hinv. now rewrite (returns_outside_arc k c Hc item s Hk Hinv).
Qed.

(** X17. [run_sliding_window_experiment] with a positive cache size and a
    positive window size returns exactly when no call of the trace raises in
    the [ARCCache], and raises [KeyError] otherwise.  When it returns, it
    gives for each of Proposed, LRU, LFU and ARC, in this order,
    [len(trace) - window_size] hit ratios; the ratio of index [j] is the
    number of hits among the calls [j + 1] to [j + window_size], counted
    from 0, over [window_size]: the first call of the trace is in no
    window. *)
Theorem sliding_window_experiment_gives_the_windows
  (trace : list Z) (cache_size window_size : Z) :
  0 < cache_size -> 0 < window_size ->
  Experiment.run_sliding_window_experiment trace cache_size window_size
  = if forallb returned (results trace (new ARC cache_size))
    then Ret (map (fun a => (fst a, windows window_size
                                      (hit_bits (snd a) cache_size trace)))
                  Experiment.algorithms)
    else Raise KeyError.
Proof.
  intros Hc Hw. unfold Experiment.run_sliding_window_experiment.
  assert (Hw0 : window_size <> 0) by lia.
  set (ts := map _ Experiment.algorithms).
  destruct (forallb returned (results trace (new ARC cache_size))) eqn:Harc.
  - assert (E : Experiment.observe_trace window_size 0 trace ts
              = Ret (map (fun t =>
                       Experiment.mk_tracker
                         (Experiment.name t) (Experiment.kind t)
                         (final trace (Experiment.cache t))
                         (Experiment.window_hits t
                          ++ map bit (results trace (Experiment.cache t)))
                         (Experiment.results t
                          ++ ratios window_size (Experiment.window_hits t)
                               (map bit (results trace (Experiment.cache t)))))
                       ts)).
    { apply observe_trace_returns, forall2_map. intros t Ht.
      assert (Hnew : Experiment.window_hits t = [] /\
                forallb returned (results trace (Experiment.cache t)) = true).
      { unfold ts in Ht. apply in_map_iff in Ht.
        destruct Ht as (a & <- & Ha). split; [reflexivity |].
        cbn [Experiment.cache].
        destruct Ha as [<- | [<- | [<- | [<- | []]]]]; cbn [snd];
          try exact Harc; now apply all_return_outside_arc. }
      destruct Hnew as [Hnil Hret].
      pose proof (track_returns window_size trace t Hw0 Hret) as H.
      now rewrite Hnil in H at 1. }
    rewrite E. unfold ts. simpl map. unfold hit_bits.
    now rewrite !ratios_windows.
  - destruct (Experiment.observe_trace window_size 0 trace ts)
      as [ts' | e] eqn:E.
    + exfalso. apply observe_trace_returns in E.
      pose (t := Experiment.mk_tracker "ARC" ARC (new ARC cache_size) [] []).
      destruct (forall2_left _ _ _ E t) as (t' & Ht).
      { unfold ts. simpl. tauto. }
      destruct (track_raises window_size trace 0 t Harc) as (e & He).
      congruence.
    + f_equal. apply (observe_trace_raises cache_size window_size trace 0 ts);
        try assumption.
      apply Forall_forall. intros t Ht. unfold ts in Ht.
      apply in_map_iff in Ht. destruct Ht as (a & <- & _).
      now apply inv_new.
Qed.

Lemma sliding_window_experiment_gives_the_windows_witness :
  0 < 2 /\ 0 < 2 /\
  Experiment.run_sliding_window_experiment [1; 2; 1; 1; 3] 2 2
  = Ret (map (fun a => (fst a, windows 2 (hit_bits (snd a) 2 [1; 2; 1; 1; 3])))
             Experiment.algorithms).
Proof.
  assert (Hc : 0 < 2) by lia. split; [exact Hc |]. split; [exact Hc |].
  exact (sliding_window_experiment_gives_the_windows [1; 2; 1; 1; 3] 2 2 Hc Hc).
Defined.

(** ** A window of no calls *)

(** The first call on a new [TimeDecayedCache] is a miss that returns,
    whatever the capacity. *)
Lemma tdc_first_call_returns (d : option Q) (c item : Z) :
  exists s1, access item (new (TDC d) c) = (Ret false, s1).
Proof.
  destruct (Z.lt_ge_cases 0 c) as [Hc | Hc].
  - pose proof (TDCFacts.tdc_access_result c item (new (TDC d) c) Hc
                  (TDCFacts.tdc_inv_init c d Hc)) as H.
    change (fst (access item (new (TDC d) c)) = Ret false) in H.
    destruct (access item (new (TDC d) c)) as [o s1]. exists s1.
    simpl in H. now rewrite H.
  - destruct (tdc_access_without_capacity item (new (TDC d) c))
      as (s1 & E & _); [exact Hc | | simpl; lia | now exists s1].
    split; simpl; intros x; [discriminate | intros u; discriminate].
Qed.

Lemma observe_divides_by_0 i item (t : Experiment.tracker) hit s1 :
  access item (Experiment.cache t) = (Ret hit, s1) -> 0 <= i ->
  Experiment.observe 0 i item t = Raise ZeroDivisionError.
Proof.
  intros E Hi. unfold Experiment.observe. rewrite E.
  destruct (Z.geb_spec i 0); [reflexivity | lia].
Qed.

(** X18. [run_sliding_window_experiment] with [window_size = 0] raises
    [ZeroDivisionError] on every trace that is not empty, whatever the
    cache size: the first call of the first algorithm already divides by
    the window size. *)
Theorem sliding_window_of_size_0_raises
  (item : Z) (trace : list Z) (cache_size : Z) :
  Experiment.run_sliding_window_experiment (item :: trace) cache_size 0
  = Raise ZeroDivisionError.
Proof.
  unfold Experiment.run_sliding_window_experiment, Experiment.algorithms.
  cbn [map fst snd Experiment.observe_trace Experiment.observe_all].
  destruct (tdc_first_call_returns (Some 0.995%Q) cache_size item)
    as (s1 & E).
  rewrite (observe_divides_by_0 0 item
             (Experiment.mk_tracker "Proposed" (TDC (Some 0.995%Q))
                (new (TDC (Some 0.995%Q)) cache_size) [] [])
             false s1 E); [reflexivity | lia].
Qed.

(** * A working set that fits *)

(** A complete miss of an [ARCCache] with no ghost entries and room left
    only adds the item to T1. *)
Lemma arc_complete_miss_with_room item (s : ARCCache.t) :
  ARCCache.b1 s = [] -> ARCCache.b2 s = [] ->
  OD.len (ARCCache.t1 s) + OD.len (ARCCache.t2 s) < ARCCache.c s ->
  ARCCache.complete_miss item s
  = (Ret false,
     ARCCache.set_t1 (snd (OD.setitem item (ARCCache.t1 s))) s).
Proof.
  intros H1 H2 Hroom. pose proof (ODFacts.od_len_nonneg (ARCCache.t1 s)).
  pose proof (ODFacts.od_len_nonneg (ARCCache.t2 s)).
  unfold ARCCache.complete_miss, ARCCache.trim, ARCCache.make_room,
    ARCCache.in_t1.
  py_unfold. rewrite H1, H2, ODFacts.od_len_nil.
  destruct (Z.eqb_spec (OD.len (ARCCache.t1 s) + 0) (ARCCache.c s)); [lia |].
  destruct (Z.geb_spec (OD.len (ARCCache.t1 s) + 0
                        + (OD.len (ARCCache.t2 s) + 0)) (ARCCache.c s));
    [lia |].
  rewrite andb_false_r.
  destruct (Z.geb_spec (OD.len (ARCCache.t1 s) + OD.len (ARCCache.t2 s))
              (ARCCache.c s)); [lia |].
  reflexivity.
Qed.

Ltac same_bools M :=
  match goal with
  | |- context [?x =? ?item] =>
      let E := fresh "E" in
      destruct (x =? item) eqn:E; [apply Z.eqb_eq in E; rewrite E |]
  end;
  rewrite ?M; simpl;
  rewrite ?orb_true_r, ?orb_false_r, ?andb_true_r, ?andb_false_r;
  try reflexivity;
  repeat match goal with
  | |- context [OD.mem ?x ?l] => destruct (OD.mem x l)
  | |- context [Dict.mem ?x ?l] => destruct (Dict.mem x l)
  end; reflexivity.

Section Fits.
Variable k : policy.
Variable capacity : Z.
Hypothesis capacity_pos : 0 < capacity.

(** No ghost list has an entry. *)
Definition quiet (s : state k) : Prop :=
  Forall (fun ghost => ghost = []) (history k s).

(** A call that finds the item or finds room. *)
Lemma fitting_call item (s : state k) :
  Inv k capacity s -> quiet s ->
  resident item s = true \/ size s < capacity ->
  fst (access item s) = Ret (resident item s) /\
  (forall x, resident x (snd (access item s))
             = (x =? item) || resident x s) /\
  size (snd (access item s))
  <= size s + (if resident item s then 0 else 1) /\
  quiet (snd (access item s)).
Proof using capacity_pos.
  unfold Inv, quiet. destruct k; simpl.
  - (* LRU *)
    intros [Hc Hlen] _ Hfit.
    destruct (OD.mem item (LRUCache.cache s)) eqn:M.
    + rewrite (LRUFacts.lru_access_hit item s M). simpl.
      split; [reflexivity |]. split; [| split; [| constructor]].
      * intros x. rewrite ODFacts.od_mem_app, ODFacts.od_mem_remove,
          ODFacts.od_mem_cons. same_bools M.
      * rewrite ODFacts.od_len_app, ODFacts.od_len_cons, ODFacts.od_len_nil.
        pose proof (ODFacts.od_len_remove item _ M). lia.
    + destruct Hfit as [| Hroom]; [discriminate |].
      rewrite (LRUFacts.lru_access_miss item s M).
      destruct (Z.geb_spec (OD.len (LRUCache.cache s))
                  (CachePolicy.capacity (LRUCache.base s))); [lia |].
      simpl. split; [reflexivity |]. split; [| split; [| constructor]].
      * intros x. apply ODFacts.od_setitem_mem.
      * pose proof (ODFacts.od_setitem_len item (LRUCache.cache s)) as L.
        rewrite M in L. simpl in L. lia.
  - (* LFU *)
    intros Hinv _ Hfit.
    destruct (LFUFacts.lfu_access_spec capacity item s capacity_pos Hinv)
      as (o & s' & -> & Hcase & _).
    simpl. destruct Hcase as [f Hf Hcache _ | Hout Hroom Hcache _
                              | v r Hout Hfull _ _ _ _].
    + assert (M : Dict.mem item (LFUCache.cache s) = true)
        by (apply DictFacts.dict_mem_get; eauto).
      rewrite M, Hcache. split; [reflexivity |].
      split; [| split; [| constructor]].
      * intros x. apply DictFacts.dict_mem_set.
      * rewrite DictFacts.dict_len_set, M. lia.
    + rewrite Hout, Hcache. split; [reflexivity |].
      split; [| split; [| constructor]].
      * intros x. apply DictFacts.dict_mem_set.
      * rewrite DictFacts.dict_len_set, Hout. lia.
    + exfalso. rewrite Hout in Hfit. destruct Hfit as [| Hroom];
        [discriminate |].
      pose proof (LFUFacts.good_capacity _ _ _ _ _ Hinv). lia.
  - (* ARC *)
    intros (Hb & Hc & Hp & Hres & Hl1 & Hl2) Hq Hfit.
    inversion Hq as [| ? ? Hb1 Hq']; subst.
    inversion Hq' as [| ? ? Hb2 _]; subst.
    rewrite ARCFacts.arc_access_cases.
    destruct (OD.mem item (ARCCache.t1 s)) eqn:M1.
    + simpl. split; [reflexivity |].
      split; [| split; [| now rewrite Hb1, Hb2; repeat constructor]].
      * intros x.
        pose proof (ODFacts.od_setitem_mem x item (ARCCache.t2 s)) as E.
        simpl in E. rewrite E, ODFacts.od_mem_remove. same_bools M1.
      * pose proof (ODFacts.od_setitem_len item (ARCCache.t2 s)) as L.
        simpl in L. rewrite L.
        pose proof (ODFacts.od_len_remove item _ M1).
        destruct (OD.mem item (ARCCache.t2 s)); lia.
    + destruct (OD.mem item (ARCCache.t2 s)) eqn:M2.
      * simpl. split; [reflexivity |].
        split; [| split; [| now rewrite Hb1, Hb2; repeat constructor]].
        -- intros x. rewrite ODFacts.od_mem_app, ODFacts.od_mem_remove,
             ODFacts.od_mem_cons. same_bools M2.
        -- rewrite ODFacts.od_len_app, ODFacts.od_len_cons,
             ODFacts.od_len_nil.
           pose proof (ODFacts.od_len_remove item _ M2). lia.
      * destruct Hfit as [| Hroom]; [discriminate |].
        rewrite Hb1, Hb2. simpl OD.mem. cbv iota.
        rewrite arc_complete_miss_with_room; try assumption;
          [| simpl; lia].
        simpl. split; [reflexivity |].
        split; [| split; [| now rewrite Hb1, Hb2; repeat constructor]].
        -- intros x.
           pose proof (ODFacts.od_setitem_mem x item (ARCCache.t1 s)) as E.
           simpl in E. rewrite E. same_bools M1.
        -- pose proof (ODFacts.od_setitem_len item (ARCCache.t1 s)) as L.
           simpl in L. rewrite L, M1. lia.
  - (* the proposed policy *)
    intros [(Hc & Hlen & Hst) _] _ Hfit.
    destruct (Dict.mem item (TimeDecayedCache.cache s)) eqn:M.
    + destruct (TDCFacts.tdc_access_hit item s Hst M) as (score & ->).
      simpl. split; [reflexivity |]. split; [| split; [| constructor]].
      * intros x. apply DictFacts.dict_mem_set.
      * rewrite DictFacts.dict_len_set, M. lia.
    + destruct Hfit as [| Hroom]; [discriminate |].
      rewrite TDCScores.tdc_access_miss_room by (try assumption; lia).
      simpl. split; [reflexivity |]. split; [| split; [| constructor]].
      * intros x. apply DictFacts.dict_mem_set.
      * rewrite DictFacts.dict_len_set, M. lia.
Qed.

Lemma touch_length r x :
  NoDup r ->
  length (touch r x) = if OD.mem x r then length r else S (length r).
Proof.
  intros Hd. unfold touch. rewrite length_app. simpl length.
  destruct (OD.mem x r) eqn:M.
  - apply ODFacts.od_mem_In in M.
    pose proof (remove_length_in x r Hd M). lia.
  - rewrite remove_notin; [lia |].
    intros H. apply ODFacts.od_mem_In in H. congruence.
Qed.

Lemma touch_items r x y : In y (touch r x) <-> y = x \/ In y r.
Proof.
  unfold touch, OD.remove. rewrite in_app_iff, filter_In. simpl.
  destruct (Z.eqb_spec y x) as [-> | Hne]; simpl; [tauto |].
  assert (x <> y) by congruence. tauto.
Qed.

Lemma recency_grows trace : forall r,
  NoDup r -> (length r <= length (fold_left touch trace r))%nat.
Proof.
  induction trace as [| x trace IH]; intros r Hd; simpl; [lia |].
  specialize (IH (touch r x) (touch_nodup r x Hd)).
  rewrite touch_length in IH by exact Hd.
  destruct (OD.mem x r); lia.
Qed.

(** A trace whose distinct items all find room: every call returns, and
    misses exactly when the item is new. *)
Lemma fitting_trace trace : forall (s : state k) (r : list Z),
  Inv k capacity s -> quiet s -> NoDup r ->
  (forall x, resident x s = true <-> In x r) ->
  size s <= Z.of_nat (length r) ->
  Z.of_nat (length (fold_left touch trace r)) <= capacity ->
  Forall (fun o => exists hit, o = Ret hit) (results trace s) /\
  (forall x, resident x (final trace s) = true
             <-> In x (fold_left touch trace r)) /\
  CachePolicy.misses (base (final trace s))
  = CachePolicy.misses (base s)
    + Z.of_nat (length (fold_left touch trace r)) - Z.of_nat (length r).
Proof using capacity_pos.
  induction trace as [| item rest IH]; intros s r Hinv Hq Hd Hres Hsize Hfit.
  - unfold results, final. simpl. split; [constructor |].
    split; [exact Hres | lia].
  - simpl fold_left in *.
    pose proof (recency_grows rest (touch r item) (touch_nodup r item Hd))
      as Hgrow.
    pose proof (touch_length r item Hd) as Hlen.
    assert (Hmem : OD.mem item r = resident item s).
    { destruct (resident item s) eqn:R.
      - now apply ODFacts.od_mem_In, Hres.
      - destruct (OD.mem item r) eqn:M; [| reflexivity].
        apply ODFacts.od_mem_In, Hres in M. congruence. }
    rewrite Hmem in Hlen.
    destruct (fitting_call item s Hinv Hq) as (Ho & Hres1 & Hsize1 & Hq1).
    { destruct (resident item s); [now left | right; lia]. }
    pose proof (inv_access k capacity capacity_pos item s Hinv) as Hinv1.
    pose proof (access_counted k capacity capacity_pos item s Hinv) as Hbase.
    destruct (IH (snd (access item s)) (touch r item) Hinv1 Hq1
                 (touch_nodup r item Hd)) as (Hr & Hfin & Hmiss).
    + intros x. rewrite Hres1, touch_items, <- Hres.
      destruct (Z.eqb_spec x item) as [-> | Hne]; simpl; [tauto |].
      split; [now right | now intros [? | ?]].
    + destruct (resident item s); lia.
    + exact Hfit.
    + rewrite results_next, final_cons.
      split; [constructor; [rewrite Ho; eauto | exact Hr] |].
      split; [exact Hfin |].
      rewrite Hmiss, Hbase. unfold counted.
      destruct (resident item s); simpl; lia.
Qed.

End Fits.

Lemma distinct_recency trace :
  length (nodup Z.eq_dec trace) = length (recency trace).
Proof.
  apply Nat.le_antisymm; apply NoDup_incl_length.
  - apply NoDup_nodup.
  - intros x Hx. apply nodup_In in Hx. apply recency_items. now right.
  - apply recency_nodup. constructor.
  - intros x Hx. apply nodup_In. apply recency_items in Hx.
    now destruct Hx as [[] | Hx].
Qed.

(** X19. When the distinct items of a trace are no more than the capacity,
    each of the four policies, with a [decay_rate] in the documented range
    (0, 1) where one is passed, counts one miss per distinct item and a hit
    for every other request; no call raises, also in an [ARCCache], and in
    the end exactly the items of the trace are resident. *)
Theorem working_set_that_fits_misses_once
  (k : policy) (capacity : Z) (trace : list Z) :
  0 < capacity -> in_range k ->
  Z.of_nat (length (nodup Z.eq_dec trace)) <= capacity ->
  let s := final trace (new k capacity) in
  Forall (fun o => exists hit, o = Ret hit) (results trace (new k capacity)) /\
  CachePolicy.misses (base s) = Z.of_nat (length (nodup Z.eq_dec trace)) /\
  CachePolicy.hits (base s)
  = Z.of_nat (length trace) - Z.of_nat (length (nodup Z.eq_dec trace)) /\
  (forall x, resident x s = true <-> In x trace).
Proof.
  intros Hcap _ Hfit s. rewrite distinct_recency in *.
  destruct (fitting_trace k capacity Hcap trace (new k capacity) [])
    as (Hr & Hres & Hmiss).
  - now apply inv_new.
  - unfold quiet. destruct k; simpl; repeat constructor.
  - constructor.
  - intros x. destruct k; simpl; split; (discriminate || contradiction).
  - destruct k; exact (Z.le_refl 0).
  - exact Hfit.
  - fold s in Hres, Hmiss. fold (recency trace) in Hres, Hmiss.
    destruct (counters_final k capacity Hcap trace) as (Hsum & Htime & _).
    fold s in Hsum, Htime.
    assert (H0 : CachePolicy.misses (base (new k capacity)) = 0)
      by (destruct k; reflexivity).
    rewrite H0 in Hmiss. simpl length in Hmiss.
    split; [exact Hr |]. split; [lia |]. split; [lia |].
    intros x. rewrite Hres. unfold recency. rewrite recency_items.
    simpl. tauto.
Qed.

Lemma working_set_that_fits_misses_once_witness :
  let k := TDC (Some (1 # 2)%Q) in
  let s := final [1; 2; 1; 3; 2; 1] (new k 3) in
  0 < 3 /\ in_range k /\
  Z.of_nat (length (nodup Z.eq_dec [1; 2; 1; 3; 2; 1])) <= 3 /\
  CachePolicy.misses (base s) = 3 /\ CachePolicy.hits (base s) = 3.
Proof.
  intros k s. assert (Hcap : 0 < 3) by lia.
  assert (Hd : in_range k) by (split; reflexivity).
  assert (Hfit : Z.of_nat (length (nodup Z.eq_dec [1; 2; 1; 3; 2; 1])) <= 3)
    by (vm_compute; discriminate).
  split; [exact Hcap |]. split; [exact Hd |]. split; [exact Hfit |].
  destruct (working_set_that_fits_misses_once k 3 [1; 2; 1; 3; 2; 1]
              Hcap Hd Hfit) as (_ & Hm & Hh & _).
  split; [exact Hm | exact Hh].
Defined.

(** * The size of the directory of an [ARCCache] *)

Module ARCDirectory.
Import ARCCache.

(** The entries of T1, T2, B1 and B2 together. *)
Definition total (s : t) : Z :=
  OD.len (t1 s) + OD.len (t2 s) + OD.len (b1 s) + OD.len (b2 s).

(** A computation that adds no entry, whether it returns or raises. *)
Definition shrinks {A} (m : Py t A) : Prop :=
  forall s, total (snd (m s)) <= total s.

Lemma arc_shrinks_ret {A} (a : A) : shrinks (ret a).
Proof. intros s. simpl. lia. Qed.

Lemma arc_shrinks_gets {A} (f : t -> A) : shrinks (gets f).
Proof. intros s. simpl. lia. Qed.

Lemma arc_shrinks_bind {A B} (m : Py t A) (k : A -> Py t B) :
  shrinks m -> (forall a, shrinks (k a)) -> shrinks (bind m k).
Proof.
  intros Hm Hk s. specialize (Hm s). unfold bind.
  destruct (m s) as [[a | e] s1]; simpl in *; [| exact Hm].
  specialize (Hk a s1). lia.
Qed.

Lemma arc_shrinks_when (b : bool) (m : Py t unit) :
  shrinks m -> shrinks (when b m).
Proof. intros Hm. destruct b; [exact Hm | apply arc_shrinks_ret]. Qed.

Lemma arc_pop_len (l : OD.t) :
  OD.len (snd (OD.popitem_first l))
  = if OD.nonempty l then OD.len l - 1 else OD.len l.
Proof.
  destruct l as [| x r]; simpl; [reflexivity |].
  rewrite ODFacts.od_len_cons. lia.
Qed.

Lemma arc_shrinks_pop_t1 : shrinks (in_t1 OD.popitem_first).
Proof.
  intros s. unfold in_t1. rewrite zoom_run. unfold total. simpl.
  rewrite arc_pop_len. destruct (OD.nonempty (t1 s)); lia.
Qed.

Lemma arc_shrinks_pop_b1 : shrinks (in_b1 OD.popitem_first).
Proof.
  intros s. unfold in_b1. rewrite zoom_run. unfold total. simpl.
  rewrite arc_pop_len. destruct (OD.nonempty (b1 s)); lia.
Qed.

Lemma arc_shrinks_pop_b2 : shrinks (in_b2 OD.popitem_first).
Proof.
  intros s. unfold in_b2. rewrite zoom_run. unfold total. simpl.
  rewrite arc_pop_len. destruct (OD.nonempty (b2 s)); lia.
Qed.

Lemma arc_setitem_len_le k (l : OD.t) :
  OD.len (snd (OD.setitem k l)) <= OD.len l + 1.
Proof.
  rewrite ODFacts.od_setitem_len. destruct (OD.mem k l); lia.
Qed.

Lemma arc_shrinks_t1_to_b1 : shrinks t1_to_b1.
Proof.
  intros s. destruct (t1 s) as [| old r] eqn:E1.
  - assert (E : t1_to_b1 s = (Raise KeyError, set_t1 [] s)).
    { unfold t1_to_b1, in_t1. py_unfold. now rewrite E1. }
    rewrite E. unfold total. simpl. rewrite E1. lia.
  - pose (s2 := set_b1 (snd (OD.setitem old (b1 s))) (set_t1 r s)).
    assert (E : t1_to_b1 s =
                when (OD.len (b1 s2) >? c s2)
                     (in_b1 OD.popitem_first ;; ret tt) s2).
    { unfold t1_to_b1, in_t1, in_b1. py_unfold. now rewrite E1. }
    rewrite E.
    pose proof (arc_shrinks_when (OD.len (b1 s2) >? c s2) _
                  (arc_shrinks_bind _ _ arc_shrinks_pop_b1
                     (fun _ => arc_shrinks_ret tt)) s2) as H.
    assert (H2 : total s2 <= total s).
    { unfold total, s2. cbn [t1 t2 b1 b2 set_b1 set_t1].
      rewrite E1, ODFacts.od_len_cons.
      pose proof (arc_setitem_len_le old (b1 s)). lia. }
    lia.
Qed.

Lemma arc_shrinks_t2_to_b2 : shrinks t2_to_b2.
Proof.
  intros s. destruct (t2 s) as [| old r] eqn:E2.
  - assert (E : t2_to_b2 s = (Raise KeyError, set_t2 [] s)).
    { unfold t2_to_b2, in_t2. py_unfold. now rewrite E2. }
    rewrite E. unfold total. simpl. rewrite E2. lia.
  - pose (s2 := set_b2 (snd (OD.setitem old (b2 s))) (set_t2 r s)).
    assert (E : t2_to_b2 s =
                when (OD.len (b2 s2) >? c s2)
                     (in_b2 OD.popitem_first ;; ret tt) s2).
    { unfold t2_to_b2, in_t2, in_b2. py_unfold. now rewrite E2. }
    rewrite E.
    pose proof (arc_shrinks_when (OD.len (b2 s2) >? c s2) _
                  (arc_shrinks_bind _ _ arc_shrinks_pop_b2
                     (fun _ => arc_shrinks_ret tt)) s2) as H.
    assert (H2 : total s2 <= total s).
    { unfold total, s2. cbn [t1 t2 b1 b2 set_b2 set_t2].
      rewrite E2, ODFacts.od_len_cons.
      pose proof (arc_setitem_len_le old (b2 s)). lia. }
    lia.
Qed.

Lemma arc_shrinks_replace item_in_b2 : shrinks (_replace item_in_b2).
Proof.
  unfold _replace. apply arc_shrinks_bind; [apply arc_shrinks_gets |].
  intros [|]; [apply arc_shrinks_t1_to_b1 |].
  apply arc_shrinks_bind; [apply arc_shrinks_gets |].
  intros b. apply arc_shrinks_when, arc_shrinks_t2_to_b2.
Qed.

Lemma arc_shrinks_make_room : shrinks make_room.
Proof.
  unfold make_room. apply arc_shrinks_bind; [apply arc_shrinks_gets |].
  intros full. apply arc_shrinks_when.
  apply arc_shrinks_bind; [apply arc_shrinks_gets |].
  intros [|]; [apply arc_shrinks_t1_to_b1 |].
  apply arc_shrinks_bind; [apply arc_shrinks_gets |].
  intros b. apply arc_shrinks_when, arc_shrinks_t2_to_b2.
Qed.

(** When it returns, the first block of a complete miss leaves room for
    one more entry. *)
Lemma arc_trim_leaves_room cap s s1 :
  0 < cap -> ARCFacts.Inv cap s -> total s <= 2 * cap ->
  trim (OD.len (t1 s) + OD.len (b1 s)) (OD.len (t2 s) + OD.len (b2 s)) s
  = (Ret tt, s1) ->
  total s1 <= 2 * cap - 1.
Proof.
  intros Hcap (Hb & Hc & Hp & Hres & Hl1 & Hl2) Htot.
  pose proof (ODFacts.od_len_nonneg (t1 s)) as Hn1.
  pose proof (ODFacts.od_len_nonneg (t2 s)) as Hn2.
  pose proof (ODFacts.od_len_nonneg (b1 s)) as Hn3.
  pose proof (ODFacts.od_len_nonneg (b2 s)) as Hn4.
  unfold total in Htot. unfold trim. unfold bind at 1, gets at 1. rewrite Hc.
  destruct (Z.eqb_spec (OD.len (t1 s) + OD.len (b1 s)) cap) as [El1 | Nl1].
  - unfold bind at 1, gets at 1. rewrite Hc.
    destruct (Z.ltb_spec (OD.len (t1 s)) cap) as [Hlt | Hge].
    + (* B1 gives an entry up *)
      destruct (b1 s) as [| x r] eqn:E1;
        [rewrite ODFacts.od_len_nil in El1; lia |].
      unfold bind at 1, in_b1. rewrite zoom_run, E1. cbn [OD.popitem_first fst snd].
      intros E.
      pose proof (arc_shrinks_replace false (set_b1 r s)) as H1.
      rewrite E in H1. cbn [snd] in H1.
      unfold total in *. cbn [t1 t2 b1 b2 set_b1] in H1.
      rewrite ODFacts.od_len_cons in *. lia.
    + (* T1 gives an entry up *)
      destruct (t1 s) as [| x r] eqn:E1;
        [rewrite ODFacts.od_len_nil in Hge; lia |].
      unfold bind at 1, in_t1. rewrite zoom_run, E1. cbn [OD.popitem_first fst snd].
      unfold ret. intros [= <-].
      unfold total in *. cbn [t1 t2 b1 b2 set_t1].
      rewrite ODFacts.od_len_cons in *. lia.
  - destruct (Z.ltb_spec (OD.len (t1 s) + OD.len (b1 s)) cap) as [Hlt | Hge];
      [| lia].
    cbn [andb].
    destruct (Z.geb_spec (OD.len (t1 s) + OD.len (b1 s)
                          + (OD.len (t2 s) + OD.len (b2 s))) cap)
      as [Hsum | Hsmall].
    + unfold bind at 1.
      destruct (Z.geb_spec (OD.len (t1 s) + OD.len (b1 s)
                            + (OD.len (t2 s) + OD.len (b2 s))) (2 * cap))
        as [Hfull | Hnot].
      * (* the directory is full: B2 gives an entry up *)
        destruct (b2 s) as [| x r] eqn:E2;
          [rewrite ODFacts.od_len_nil in *; lia |].
        unfold when. unfold bind at 1, gets at 1. rewrite E2.
        change (OD.nonempty (x :: r)) with true. cbv iota.
        unfold bind at 1, in_b2. rewrite zoom_run, E2.
        cbn [OD.popitem_first fst snd]. unfold ret at 1.
        intros E.
        pose proof (arc_shrinks_replace false (set_b2 r s)) as H1.
        rewrite E in H1. cbn [snd] in H1.
        unfold total in *. cbn [t1 t2 b1 b2 set_b2] in H1.
        rewrite ODFacts.od_len_cons in *. lia.
      * unfold when, ret at 1. intros E.
        pose proof (arc_shrinks_replace false s) as H1.
        rewrite E in H1. cbn [snd] in H1. unfold total in *. lia.
    + unfold ret. intros [= <-]. unfold total. lia.
Qed.

Lemma arc_complete_miss_total cap item s :
  0 < cap -> ARCFacts.Inv cap s -> total s <= 2 * cap ->
  total (snd (complete_miss item s)) <= 2 * cap.
Proof.
  intros Hcap Hinv Htot. unfold complete_miss.
  unfold bind at 1, gets at 1. unfold bind at 1, gets at 1.
  set (l1 := OD.len (t1 s) + OD.len (b1 s)).
  set (l2 := OD.len (t2 s) + OD.len (b2 s)).
  pose proof (arc_trim_leaves_room cap s) as Hroom.
  unfold bind at 1.
  destruct (trim l1 l2 s) as [[[] | e] s1] eqn:Et; cbn [snd].
  - specialize (Hroom s1 Hcap Hinv Htot Et).
    pose proof (arc_shrinks_make_room s1) as Hmr.
    unfold bind at 1.
    destruct (make_room s1) as [[[] | e] s2]; cbn [snd] in *; [| lia].
    pose proof (arc_setitem_len_le item (t1 s2)) as L.
    unfold in_t1, OD.setitem in *. py_unfold. unfold total in *.
    simpl in *. lia.
  - assert (H : total s1 <= total s).
    { assert (Hs : shrinks (trim l1 l2)).
      { unfold trim. apply arc_shrinks_bind; [apply arc_shrinks_gets |].
        intros cap0. destruct (l1 =? cap0).
        - apply arc_shrinks_bind; [apply arc_shrinks_gets |]. intros [|].
          + apply arc_shrinks_bind; [apply arc_shrinks_pop_b1 |].
            intros _. apply arc_shrinks_replace.
          + apply arc_shrinks_bind; [apply arc_shrinks_pop_t1 |].
            intros _. apply arc_shrinks_ret.
        - destruct ((l1 <? cap0) && (l1 + l2 >=? cap0));
            [| apply arc_shrinks_ret].
          apply arc_shrinks_bind; [| intros _; apply arc_shrinks_replace].
          apply arc_shrinks_when.
          apply arc_shrinks_bind; [apply arc_shrinks_gets |]. intros b.
          apply arc_shrinks_when.
          apply arc_shrinks_bind; [apply arc_shrinks_pop_b2 |].
          intros _. apply arc_shrinks_ret. }
      specialize (Hs s). now rewrite Et in Hs. }
    lia.
Qed.

Lemma arc_ghost_hit_total item item_in_b2 s :
  total (snd (ARCFacts.ghost_hit item item_in_b2 s)) <= total s.
Proof.
  pose proof (arc_shrinks_replace item_in_b2 s) as H1.
  unfold ARCFacts.ghost_hit. unfold bind at 1.
  destruct (_replace item_in_b2 s) as [[[] | e] s1]; cbn [snd] in *;
    [| exact H1].
  pose proof (arc_setitem_len_le item (t2 s1)) as L.
  destruct item_in_b2.
  - unfold in_b2, in_t2, OD.delitem, OD.setitem in *. py_unfold.
    destruct (OD.mem item (b2 s1)) eqn:M; unfold total in *; simpl in *;
      [| lia].
    pose proof (ODFacts.od_len_remove item (b2 s1) M). lia.
  - unfold in_b1, in_t2, OD.delitem, OD.setitem in *. py_unfold.
    destruct (OD.mem item (b1 s1)) eqn:M; unfold total in *; simpl in *;
      [| lia].
    pose proof (ODFacts.od_len_remove item (b1 s1) M). lia.
Qed.

Lemma arc_access_total cap item s :
  0 < cap -> ARCFacts.Inv cap s -> total s <= 2 * cap ->
  total (snd (access item s)) <= 2 * cap.
Proof.
  intros Hcap Hinv Htot. rewrite ARCFacts.arc_access_cases.
  destruct (OD.mem item (t1 s)) eqn:M1.
  { pose proof (arc_setitem_len_le item (t2 s)) as L.
    pose proof (ODFacts.od_len_remove item (t1 s) M1).
    unfold OD.setitem in *. py_unfold. unfold total in *. simpl in *. lia. }
  destruct (OD.mem item (t2 s)) eqn:M2.
  { pose proof (ODFacts.od_len_remove item (t2 s) M2).
    unfold total in *. simpl.
    rewrite ODFacts.od_len_app, ODFacts.od_len_cons, ODFacts.od_len_nil.
    lia. }
  destruct (OD.mem item (b1 s)) eqn:M3.
  { etransitivity; [apply arc_ghost_hit_total | exact Htot]. }
  destruct (OD.mem item (b2 s)) eqn:M4.
  { etransitivity; [apply arc_ghost_hit_total | exact Htot]. }
  now apply arc_complete_miss_total.
Qed.

End ARCDirectory.

(** X21. An [ARCCache] of positive capacity never remembers more than
    twice its capacity: in every reachable state T1, T2, B1 and B2 hold at
    most [2 * capacity] entries together. *)
Theorem arc_directory_holds_at_most_twice_the_capacity
  (capacity : Z) (trace : list Z) :
  0 < capacity ->
  let s := final trace (new ARC capacity) in
  OD.len (ARCCache.t1 s) + OD.len (ARCCache.t2 s)
  + OD.len (ARCCache.b1 s) + OD.len (ARCCache.b2 s) <= 2 * capacity.
Proof.
  intros Hcap s.
  assert (H : ARCFacts.Inv capacity s /\ ARCDirectory.total s <= 2 * capacity).
  { apply (@final_invariant _ (policy_ops ARC)
             (fun s => ARCFacts.Inv capacity s /\
                       ARCDirectory.total s <= 2 * capacity)).
    - intros item s0 [Hinv Htot]. split.
      + now apply ARCFacts.arc_access_inv.
      + now apply ARCDirectory.arc_access_total.
    - split; [now apply ARCFacts.arc_inv_init |].
      unfold ARCDirectory.total, ARCCache.__init__, OD.empty, OD.len.
      simpl. lia. }
  exact (proj2 H).
Qed.

Lemma arc_directory_holds_at_most_twice_the_capacity_witness :
  let s := final [1; 2; 3; 1; 4; 2; 5; 3; 3; 6] (new ARC 2) in
  0 < 2 /\
  OD.len (ARCCache.t1 s) + OD.len (ARCCache.t2 s)
  + OD.len (ARCCache.b1 s) + OD.len (ARCCache.b2 s) <= 2 * 2.
Proof.
  intros s. assert (Hcap : 0 < 2) by lia. split; [exact Hcap |].
  exact (arc_directory_holds_at_most_twice_the_capacity
           2 [1; 2; 3; 1; 4; 2; 5; 3; 3; 6] Hcap).
Defined.

(** * The frequency of an [LFUCache] as a count *)

(** [item] is resident after each of [calls]. *)
Fixpoint remains {S : Type} `{Policy S} (item : Z) (calls : list Z) (s : S)
  : bool :=
  match calls with
  | [] => true
  | y :: rest =>
      resident item (snd (access y s)) && remains item rest (snd (access y s))
  end.

(** A call and the frequency of an item that is cached before and after
    it. *)
Lemma lfu_frequency_step cap item y (s : LFUCache.t) f :
  0 < cap -> LFUFacts.Inv cap s ->
  Dict.get item (LFUCache.cache s) = Some f ->
  Dict.mem item (LFUCache.cache (snd (LFUCache.access y s))) = true ->
  Dict.get item (LFUCache.cache (snd (LFUCache.access y s)))
  = Some (if y =? item then f + 1 else f).
Proof.
  intros Hcap Hinv Hf Hin'.
  assert (Hin : Dict.mem item (LFUCache.cache s) = true)
    by (apply DictFacts.dict_mem_get; eauto).
  destruct (LFUFacts.lfu_access_spec cap y s Hcap Hinv)
    as (o & s' & E & Hcase & _).
  rewrite E in *. cbn [snd] in *.
  destruct Hcase as [f' Hf' Hcache _ | Hout _ Hcache _
                     | v r Hout _ _ _ Hcache _]; rewrite Hcache in *.
  - rewrite DictFacts.dict_get_set.
    destruct (Z.eqb_spec y item) as [-> | Hne].
    + rewrite Z.eqb_refl. congruence.
    + destruct (Z.eqb_spec item y); [congruence | exact Hf].
  - rewrite DictFacts.dict_get_set.
    destruct (Z.eqb_spec y item) as [-> | Hne]; [congruence |].
    destruct (Z.eqb_spec item y); [congruence | exact Hf].
  - rewrite DictFacts.dict_mem_set, DictFacts.dict_mem_remove in Hin'.
    rewrite DictFacts.dict_get_set, DictFacts.dict_get_remove.
    destruct (Z.eqb_spec y item) as [-> | Hne]; [congruence |].
    destruct (Z.eqb_spec item y); [congruence |].
    destruct (item =? v); [discriminate Hin' | exact Hf].
Qed.

Lemma lfu_frequency_after cap item calls : forall (s : LFUCache.t) f,
  0 < cap -> LFUFacts.Inv cap s ->
  Dict.get item (LFUCache.cache s) = Some f ->
  remains item calls s = true ->
  Dict.get item (LFUCache.cache (final calls s))
  = Some (f + Z.of_nat (count_occ Z.eq_dec calls item)).
Proof.
  induction calls as [| y rest IH]; intros s f Hcap Hinv Hf Hstay.
  - unfold final. simpl. rewrite Hf. f_equal. lia.
  - rewrite final_cons. simpl in Hstay. apply andb_prop in Hstay.
    destruct Hstay as [Hin' Hstay].
    change (access y s) with (LFUCache.access y s) in *.
    pose proof (lfu_frequency_step cap item y s f Hcap Hinv Hf Hin') as Hf'.
    rewrite (IH _ _ Hcap (LFUFacts.lfu_access_inv cap y s Hcap Hinv) Hf' Hstay).
    f_equal. simpl count_occ.
    destruct (Z.eq_dec y item) as [-> | Hne].
    + rewrite Z.eqb_refl. lia.
    + destruct (Z.eqb_spec y item); [contradiction | lia].
Qed.

(** X22. The frequency an [LFUCache] keeps for an item is the number of
    calls on it since the miss that brought it in, that miss included, as
    long as the item stays cached: what was counted before an eviction is
    forgotten. *)
Theorem lfu_frequency_counts_the_calls_since_the_miss
  (capacity : Z) (before : list Z) (item : Z) (calls : list Z) :
  0 < capacity ->
  let s0 := final before (new LFU capacity) in
  let s := final (before ++ item :: calls) (new LFU capacity) in
  resident item s0 = false ->
  remains item (item :: calls) s0 = true ->
  Dict.get item (LFUCache.cache s)
  = Some (Z.of_nat (count_occ Z.eq_dec (item :: calls) item)).
Proof.
  intros Hcap s0 s Hout Hstay.
  pose proof (inv_final LFU capacity Hcap before) as Hinv. fold s0 in Hinv.
  change (LFUFacts.Inv capacity s0) in Hinv.
  change (Dict.mem item (LFUCache.cache s0) = false) in Hout.
  simpl in Hstay. apply andb_prop in Hstay. destruct Hstay as [_ Hstay].
  assert (H1 : Dict.get item (LFUCache.cache (snd (LFUCache.access item s0)))
               = Some 1).
  { destruct (LFUFacts.lfu_access_spec capacity item s0 Hcap Hinv)
      as (o & s' & E & Hcase & _).
    rewrite E. cbn [snd].
    destruct Hcase as [f' Hf' _ _ | _ _ Hcache _ | v r _ _ _ _ Hcache _].
    - unfold Dict.mem in Hout. now rewrite Hf' in Hout.
    - now rewrite Hcache, DictFacts.dict_get_set, Z.eqb_refl.
    - now rewrite Hcache, DictFacts.dict_get_set, Z.eqb_refl. }
  unfold s. rewrite final_app, final_cons. fold s0.
  change (access item s0) with (LFUCache.access item s0).
  refine (eq_trans
            (lfu_frequency_after capacity item calls _ 1 Hcap
               (LFUFacts.lfu_access_inv capacity item s0 Hcap Hinv) H1 Hstay)
            _).
  f_equal. simpl count_occ.
  destruct (Z.eq_dec item item); [lia | contradiction].
Qed.

Lemma lfu_frequency_counts_the_calls_since_the_miss_witness :
  let s0 := final [1; 2; 2; 3] (new LFU 2) in
  let s := final ([1; 2; 2; 3] ++ 1 :: [1; 3; 1]) (new LFU 2) in
  0 < 2 /\ resident 1 s0 = false /\ remains 1 (1 :: [1; 3; 1]) s0 = true /\
  Dict.get 1 (LFUCache.cache s)
  = Some (Z.of_nat (count_occ Z.eq_dec (1 :: [1; 3; 1]) 1)).
Proof.
  intros s0 s. assert (Hcap : 0 < 2) by lia.
  assert (Hout : resident 1 s0 = false) by reflexivity.
  assert (Hstay : remains 1 (1 :: [1; 3; 1]) s0 = true) by reflexivity.
  split; [exact Hcap |]. split; [exact Hout |]. split; [exact Hstay |].
  exact (lfu_frequency_counts_the_calls_since_the_miss
           2 [1; 2; 2; 3] 1 [1; 3; 1] Hcap Hout Hstay).
Defined.
